(** * Job queue and worker engine: a shallow embedding and its properties

    The development follows the Python sources of the job processor:

    - [core/domain]: [JobStatus], [JobEvent], [Job], [User];
    - [infrastructure/persistence/repositories/job_repository.py]:
      the [JobRepository] operations over the [jobs] and [dlq] tables;
    - [infrastructure/queue/postgresql_queue.py]: the queue strategy;
    - [core/services]: quota, idempotency, job service, rate limiter;
    - [infrastructure/observability/events.py]: the event bus;
    - [workers]: lease manager and worker.

    Conventions of the embedding.

    - A [datetime] is an integer number of microseconds ([Z]); a
      [timedelta(seconds=n)] is [n * 1000000].  Every call of
      [datetime.utcnow()] in the source is an explicit argument of the
      embedded function, in source order, so a caller decides whether two
      reads of the clock coincide.
    - A [UUID] is its canonical text, so [str(job.id)] is the identity.
      Values drawn by [uuid4()] are explicit arguments as well.
    - Python [int]s and SQL integer columns are unbounded integers ([Z]).
    - Python [float]s (token bucket only) are exact rationals ([Q]).
    - Both tables are lists of rows in insertion order; [JobModel] and the
      domain [Job] carry the same thirteen fields and [_model_to_domain]
      copies them one by one, so one record serves for both.
    - A raised exception is a value of [Exn]; operations that can raise
      return a [Result].  The database state reached when an exception
      leaves a function is kept, since every repository call commits. *)

From Stdlib Require Import ZArith QArith Qminmax Lqa Lia Sorted.
From stdpp Require Import base option list strings pretty gmap.

Close Scope Q_scope.
Open Scope Z_scope.

(** ** Domain *)

Definition UUID := string.
Definition datetime := Z.

Definition timedelta_seconds (n : Z) : Z := n * 1000000.

(** [payload] is an opaque JSON document. *)
#[warnings="-register-all"]
Inductive Json :=
| JNull
| JBool (b : bool)
| JNum (n : Z)
| JStr (s : string)
| JArr (items : list Json)
| JObj (fields : list (string * Json)).

(** [core/domain/enums.py] *)
Inductive JobStatus := PENDING | RUNNING | COMPLETED | FAILED | DLQ.

Definition JobStatus_value (s : JobStatus) : string :=
  match s with
  | PENDING => "pending"
  | RUNNING => "running"
  | COMPLETED => "completed"
  | FAILED => "failed"
  | DLQ => "dlq"
  end.

#[global] Instance JobStatus_eq_dec : EqDecision JobStatus.
Proof. solve_decision. Defined.

Inductive JobEvent :=
| EV_SUBMITTED | EV_STARTED | EV_COMPLETED | EV_FAILED | EV_RETRY | EV_DLQ.

Definition JobEvent_value (e : JobEvent) : string :=
  match e with
  | EV_SUBMITTED => "submitted"
  | EV_STARTED => "started"
  | EV_COMPLETED => "completed"
  | EV_FAILED => "failed"
  | EV_RETRY => "retry"
  | EV_DLQ => "dlq"
  end.

(** [core/domain/job.py], class [Job]; also a row of table [jobs]. *)
Record Job := mkJob {
  job_id : UUID;
  tenant_id : string;
  payload : Json;
  idempotency_key : option string;
  status : JobStatus;
  max_retries : Z;
  retry_count : Z;
  created_at : datetime;
  started_at : option datetime;
  completed_at : option datetime;
  error_message : option string;
  lease_expires_at : option datetime;
  trace_id : string
}.

(** [Job.__init__] as [JobService.submit_job] calls it: the id, the
    creation time and the trace id are drawn by the constructor. *)
Definition new_Job (fresh_id : UUID) (now : datetime) (fresh_trace : string)
    (tenant : string) (p : Json) (key : option string) (retries : Z) : Job :=
  {| job_id := fresh_id; tenant_id := tenant; payload := p;
     idempotency_key := key; status := PENDING; max_retries := retries;
     retry_count := 0; created_at := now; started_at := None;
     completed_at := None; error_message := None; lease_expires_at := None;
     trace_id := fresh_trace |}.

Definition can_retry (j : Job) : bool := retry_count j <? max_retries j.

Definition should_move_to_dlq (j : Job) : bool :=
  bool_decide (status j = FAILED) && negb (can_retry j).

(** [core/domain/user.py] *)
Record User := mkUser {
  user_id : string;
  api_key_hash : string;
  max_concurrent_jobs : Z;
  rate_limit_per_minute : Z;
  user_name : option string
}.

(** A row of table [dlq] ([DLQModel]). *)
Record DLQModel := mkDLQ {
  dlq_id : UUID;
  original_job_id : UUID;
  dlq_tenant_id : string;
  dlq_payload : Json;
  dlq_error_message : option string;
  dlq_retry_count : Z;
  failed_at : datetime;
  dlq_trace_id : string
}.

Record Store := mkStore {
  jobs : list Job;
  dlq : list DLQModel
}.

Definition empty_store : Store := {| jobs := []; dlq := [] |}.

(** ** Exceptions and results *)

Inductive Exn :=
| JobNotFoundError (msg : string)
| QuotaExceededError (msg : string)
| RateLimitExceededError (msg : string)
| IntegrityError            (* primary key violated on insert *)
| MultipleResultsFound      (* [scalar_one_or_none] saw two rows *)
| Exception (msg : string). (* raised by a job processor *)

Definition str_exn (e : Exn) : string :=
  match e with
  | JobNotFoundError m | QuotaExceededError m
  | RateLimitExceededError m | Exception m => m
  | IntegrityError => "IntegrityError"
  | MultipleResultsFound => "Multiple rows were found when one or none was required"
  end.

Inductive Result (A : Type) :=
| Ok (a : A)
| Raise (e : Exn).
Arguments Ok {A} a.
Arguments Raise {A} e.

(** Python truthiness of an [Optional[str]]: [None] and the empty string
    are false. *)
Definition truthy (o : option string) : bool :=
  match o with
  | None => false
  | Some s => negb (String.eqb s "")
  end.

(** ** JobRepository *)

Definition has_id (i : UUID) (j : Job) : bool := bool_decide (job_id j = i).

(** [UPDATE jobs SET ... WHERE cond]: every matching row is rewritten. *)
Definition update_rows (cond : Job -> bool) (f : Job -> Job) (rows : list Job)
    : list Job :=
  map (fun j => if cond j then f j else j) rows.

Definition rowcount (cond : Job -> bool) (rows : list Job) : nat :=
  length (filter (fun j => cond j = true) rows).

(** [get_by_id]; [id] is the primary key of the table. *)
Definition get_by_id (i : UUID) (st : Store) : option Job :=
  find (has_id i) (jobs st).

(** The [JobModel] built by [create]: the nine columns the source names,
    the other four NULL. *)
Definition inserted_row (j : Job) : Job :=
  {| job_id := job_id j; tenant_id := tenant_id j; payload := payload j;
     idempotency_key := idempotency_key j; status := status j;
     max_retries := max_retries j; retry_count := retry_count j;
     created_at := created_at j; started_at := None;
     completed_at := None; error_message := None;
     lease_expires_at := None; trace_id := trace_id j |}.

(** [create]: the insert is refused when the primary key is taken. *)
Definition create (j : Job) (st : Store) : Result Job * Store :=
  match get_by_id (job_id j) st with
  | Some _ => (Raise IntegrityError, st)
  | None =>
      let job_model := inserted_row j in
      (Ok job_model, {| jobs := jobs st ++ [job_model]; dlq := dlq st |})
  end.

Definition idem_match (tenant key : string) (j : Job) : bool :=
  bool_decide (tenant_id j = tenant) &&
  bool_decide (idempotency_key j = Some key).

(** [get_by_idempotency_key]; [scalar_one_or_none] raises on two rows. *)
Definition get_by_idempotency_key (tenant key : string) (st : Store)
    : Result (option Job) :=
  match filter (fun j => idem_match tenant key j = true) (jobs st) with
  | [] => Ok None
  | [j] => Ok (Some j)
  | _ :: _ :: _ => Raise MultipleResultsFound
  end.

Definition not_found_msg (i : UUID) : string := "Job " +:+ i +:+ " not found".

Definition set_status (now : datetime) (s : JobStatus) (msg : option string)
    (j : Job) : Job :=
  {| job_id := job_id j; tenant_id := tenant_id j; payload := payload j;
     idempotency_key := idempotency_key j;
     status := s;
     max_retries := max_retries j; retry_count := retry_count j;
     created_at := created_at j;
     started_at :=
       match s with RUNNING => Some now | _ => started_at j end;
     completed_at :=
       match s with
       | COMPLETED | FAILED | DLQ => Some now
       | _ => completed_at j
       end;
     error_message := if truthy msg then msg else error_message j;
     lease_expires_at := lease_expires_at j;
     trace_id := trace_id j |}.

(** [update_status(job_id, status, error_message=None)] *)
Definition update_status (now : datetime) (i : UUID) (s : JobStatus)
    (msg : option string) (st : Store) : Result Job * Store :=
  let st' := {| jobs := update_rows (has_id i) (set_status now s msg) (jobs st);
                dlq := dlq st |} in
  match get_by_id i st' with
  | None => (Raise (JobNotFoundError (not_found_msg i)), st')
  | Some j => (Ok j, st')
  end.

(** The lease part of the two WHERE clauses:
    [lease_expires_at IS NULL OR lease_expires_at < now]. *)
Definition lease_free (now : datetime) (j : Job) : bool :=
  match lease_expires_at j with
  | None => true
  | Some t => t <? now
  end.

Definition leasable (now : datetime) (j : Job) : bool :=
  bool_decide (status j = PENDING) && lease_free now j.

Definition set_lease (expires start : datetime) (j : Job) : Job :=
  {| job_id := job_id j; tenant_id := tenant_id j; payload := payload j;
     idempotency_key := idempotency_key j;
     status := RUNNING;
     max_retries := max_retries j; retry_count := retry_count j;
     created_at := created_at j;
     started_at := Some start;
     completed_at := completed_at j;
     error_message := error_message j;
     lease_expires_at := Some expires;
     trace_id := trace_id j |}.

(** [acquire_lease(job_id, lease_ttl_seconds)].  The clock is read three
    times: for the expiry (line 81), in the WHERE clause (line 91) and for
    [started_at] (line 98). *)
Definition acquire_lease (t_exp t_chk t_start : datetime) (i : UUID) (ttl : Z)
    (st : Store) : bool * Store :=
  let lease_expires := t_exp + timedelta_seconds ttl in
  let cond := fun j => has_id i j && leasable t_chk j in
  (bool_decide (0 < rowcount cond (jobs st))%nat,
   {| jobs := update_rows cond (set_lease lease_expires t_start) (jobs st);
      dlq := dlq st |}).

Definition clear_lease (j : Job) : Job :=
  {| job_id := job_id j; tenant_id := tenant_id j; payload := payload j;
     idempotency_key := idempotency_key j; status := status j;
     max_retries := max_retries j; retry_count := retry_count j;
     created_at := created_at j; started_at := started_at j;
     completed_at := completed_at j; error_message := error_message j;
     lease_expires_at := None; trace_id := trace_id j |}.

Definition release_lease (i : UUID) (st : Store) : Store :=
  {| jobs := update_rows (has_id i) clear_lease (jobs st); dlq := dlq st |}.

Definition bump (j : Job) : Job :=
  {| job_id := job_id j; tenant_id := tenant_id j; payload := payload j;
     idempotency_key := idempotency_key j;
     status := PENDING;
     max_retries := max_retries j;
     retry_count := retry_count j + 1;
     created_at := created_at j;
     started_at := None;
     completed_at := completed_at j;
     error_message := None;
     lease_expires_at := None;
     trace_id := trace_id j |}.

(** [increment_retry(job_id)] *)
Definition increment_retry (i : UUID) (st : Store) : Result Job * Store :=
  let st' := {| jobs := update_rows (has_id i) bump (jobs st);
                dlq := dlq st |} in
  match get_by_id i st' with
  | None => (Raise (JobNotFoundError (not_found_msg i)), st')
  | Some j => (Ok j, st')
  end.

(** [ORDER BY created_at ASC]: a stable insertion sort, so rows of equal age
    keep their table order. *)
Fixpoint insert_by_created_at (j : Job) (l : list Job) : list Job :=
  match l with
  | [] => [j]
  | k :: l' =>
      if created_at j <=? created_at k then j :: l
      else k :: insert_by_created_at j l'
  end.

Definition order_by_created_at_asc (l : list Job) : list Job :=
  foldr insert_by_created_at [] l.

(** [get_pending_jobs_for_dequeue(limit)] *)
Definition get_pending_jobs_for_dequeue (now : datetime) (limit : nat)
    (st : Store) : list Job :=
  take limit
    (order_by_created_at_asc
       (filter (fun j => leasable now j = true) (jobs st))).

(** [count_by_status(status, tenant_id=None)]; the filter on the tenant is
    added only when [tenant_id] is truthy. *)
Definition count_by_status (s : JobStatus) (tenant : option string)
    (st : Store) : Z :=
  let by_status := filter (fun j => status j = s) (jobs st) in
  Z.of_nat (length
    (if truthy tenant
     then filter (fun j => Some (tenant_id j) = tenant) by_status
     else by_status)).

Definition count_running_jobs (tenant : string) (st : Store) : Z :=
  count_by_status RUNNING (Some tenant) st.

(** [move_to_dlq(job, error_message)]: the archive row is added to the
    session and committed by [update_status]; [fresh_id] and [t_failed] are
    the column defaults of the archive row. *)
Definition move_to_dlq (fresh_id : UUID) (t_failed t_upd : datetime)
    (j : Job) (msg : string) (st : Store) : Result unit * Store :=
  let row :=
    {| dlq_id := fresh_id; original_job_id := job_id j;
       dlq_tenant_id := tenant_id j; dlq_payload := payload j;
       dlq_error_message := Some msg; dlq_retry_count := retry_count j;
       failed_at := t_failed; dlq_trace_id := trace_id j |} in
  let st1 := {| jobs := jobs st; dlq := dlq st ++ [row] |} in
  match update_status t_upd (job_id j) DLQ (Some msg) st1 with
  | (Ok _, st2) => (Ok tt, st2)
  | (Raise e, st2) => (Raise e, st2)
  end.

(** ** PostgreSQLQueueStrategy *)

Definition enqueue (j : Job) (st : Store) : Result unit * Store :=
  match create j st with
  | (Ok _, st') => (Ok tt, st')
  | (Raise e, st') => (Raise e, st')
  end.

(** [dequeue(worker_id)]: the first row of the locking SELECT, unchanged. *)
Definition dequeue (now : datetime) (worker_id : string) (st : Store)
    : option Job :=
  head (get_pending_jobs_for_dequeue now 1 st).

Definition lease (t_exp t_chk t_start : datetime) (i : UUID) (ttl : Z)
    (st : Store) : bool * Store :=
  acquire_lease t_exp t_chk t_start i ttl st.

(** [ack(job_id, success, error_message=None)]; [JobNotFoundError] is
    swallowed. *)
Definition ack (now : datetime) (i : UUID) (success : bool)
    (msg : option string) (st : Store) : Store :=
  if success then snd (update_status now i COMPLETED None st)
  else snd (update_status now i FAILED msg st).

(** ** Quota, idempotency and job services *)

Definition quota_msg (running limit : Z) : string :=
  "Concurrent jobs limit exceeded. Current: " +:+ pretty running +:+
  ", Limit: " +:+ pretty limit.

Definition check_concurrent_jobs_limit (user : User) (st : Store)
    : Result unit :=
  let running_jobs_count := count_running_jobs (user_id user) st in
  if max_concurrent_jobs user <=? running_jobs_count
  then Raise (QuotaExceededError
                (quota_msg running_jobs_count (max_concurrent_jobs user)))
  else Ok tt.

Definition check_idempotency (tenant : string) (key : option string)
    (st : Store) : Result (option Job) :=
  match key with
  | Some k => if truthy key then get_by_idempotency_key tenant k st
              else Ok None
  | None => Ok None
  end.

(** [JobService.submit_job]: quota, then idempotency, then insert. *)
Definition submit_job (fresh_id : UUID) (now : datetime) (fresh_trace : string)
    (user : User) (p : Json) (key : option string) (retries : Z)
    (st : Store) : Result Job * Store :=
  match check_concurrent_jobs_limit user st with
  | Raise e => (Raise e, st)
  | Ok _ =>
      match (if truthy key then check_idempotency (user_id user) key st
             else Ok None) with
      | Raise e => (Raise e, st)
      | Ok (Some existing_job) => (Ok existing_job, st)
      | Ok None =>
          let job :=
            new_Job fresh_id now fresh_trace (user_id user) p key retries in
          match enqueue job st with
          | (Ok _, st') => (Ok job, st')
          | (Raise e, st') => (Raise e, st')
          end
      end
  end.

(** ** State and exception monad

    The coroutines of the worker and of the event bus run in a state [S]
    and may raise; the state reached at the raise is kept. *)

Definition ST (S A : Type) : Type := S -> Result A * S.

#[global] Instance ST_ret {S} : MRet (ST S) := fun A a s => (Ok a, s).
#[global] Instance ST_bind {S} : MBind (ST S) := fun A B k m s =>
  match m s with
  | (Ok a, s') => k a s'
  | (Raise e, s') => (Raise e, s')
  end.

(** [try: body except Exception as e: handler(e)] *)
Definition try_except {S A} (body : ST S A) (handler : Exn -> ST S A)
    : ST S A :=
  fun s =>
    match body s with
    | (Ok a, s') => (Ok a, s')
    | (Raise e, s') => handler e s'
    end.

(** ** Worker *)

(** The worker's view of the world: the database and the calls made to
    [event_bus.publish], oldest first.  A publish call returns normally
    whatever the subscribers do (see [publish] below), so the worker only
    records the topic and the data it passes. *)
Definition EventData := list (string * Json).

Record WState := mkW {
  db : Store;
  published : list (string * EventData)
}.

Abbreviation M := (ST WState).

Definition on_db {A} (f : Store -> Result A * Store) : M A :=
  fun w =>
    let '(r, s) := f (db w) in (r, {| db := s; published := published w |}).

Definition read_db {A} (f : Store -> A) : M A := fun w => (Ok (f (db w)), w).

Definition call {A} (r : Result A) : M A := fun w => (r, w).

Definition event_bus_publish (topic : string) (data : EventData) : M unit :=
  fun w => (Ok tt, {| db := db w; published := published w ++ [(topic, data)] |}).

(** The values one [run_once] draws from its environment: the clock reads
    in source order and the id of the archive row. *)
Record Draws := mkDraws {
  t_select : datetime;     (* WHERE clause of the dequeue *)
  t_expiry : datetime;     (* acquire_lease, line 81 *)
  t_check : datetime;      (* acquire_lease, line 91 *)
  t_start : datetime;      (* acquire_lease, line 98 *)
  t_completed : datetime;  (* update_status(COMPLETED) *)
  t_failed : datetime;     (* update_status(FAILED) *)
  t_archive : datetime;    (* dlq.failed_at default *)
  t_dlq : datetime;        (* update_status(DLQ) *)
  dlq_uuid : UUID          (* dlq.id default *)
}.

Definition at_instant (now : datetime) (u : UUID) : Draws :=
  mkDraws now now now now now now now now u.

Definition job_processor := Json -> Result Json.

(** The dictionaries [process_job] passes to the bus. *)
Definition started_data (worker_id : string) (job : Job) : EventData :=
  [("job_id", JStr (job_id job)); ("tenant_id", JStr (tenant_id job));
   ("worker_id", JStr worker_id); ("trace_id", JStr (trace_id job))].

Definition completed_data (worker_id : string) (job : Job) (result : Json)
    : EventData :=
  [("job_id", JStr (job_id job)); ("tenant_id", JStr (tenant_id job));
   ("worker_id", JStr worker_id); ("trace_id", JStr (trace_id job));
   ("result", result)].

Definition retry_data (job : Job) : EventData :=
  [("job_id", JStr (job_id job)); ("tenant_id", JStr (tenant_id job));
   ("retry_count", JNum (retry_count job)); ("trace_id", JStr (trace_id job))].

Definition dlq_data (job : Job) (error_message : string) : EventData :=
  [("job_id", JStr (job_id job)); ("tenant_id", JStr (tenant_id job));
   ("error_message", JStr error_message); ("trace_id", JStr (trace_id job))].

Definition failed_data (worker_id : string) (job : option Job)
    (error_message : string) : EventData :=
  [("job_id", JStr (match job with Some j => job_id j | None => "unknown" end));
   ("tenant_id",
    JStr (match job with Some j => tenant_id j | None => "unknown" end));
   ("worker_id", JStr worker_id); ("error", JStr error_message);
   ("trace_id",
    JStr (match job with Some j => trace_id j | None => "unknown" end))].

(** The [except Exception as e] block of [Worker.process_job]
    (lines 104-176). *)
Definition on_exception (worker_id : string) (d : Draws) (job : Job)
    (e : Exn) : M unit :=
  let error_message := str_exn e in
  on_db (update_status (t_failed d) (job_id job) FAILED
           (Some error_message));;
  job' ← read_db (get_by_id (job_id job));
  match job' with
  | Some j =>
      if can_retry j then
        on_db (increment_retry (job_id j));;
        event_bus_publish (JobEvent_value EV_RETRY) (retry_data j)
      else
        on_db (move_to_dlq (dlq_uuid d) (t_archive d) (t_dlq d) j
                 error_message);;
        event_bus_publish (JobEvent_value EV_DLQ) (dlq_data j error_message)
  | None => mret tt
  end;;
  event_bus_publish (JobEvent_value EV_FAILED)
    (failed_data worker_id job' error_message).

(** [Worker.process_job] *)
Definition process_job (worker_id : string) (processor : job_processor)
    (d : Draws) (job : Job) : M unit :=
  try_except
    (event_bus_publish (JobEvent_value EV_STARTED)
       (started_data worker_id job);;
     result ← call (processor (payload job));
     on_db (update_status (t_completed d) (job_id job) COMPLETED None);;
     event_bus_publish (JobEvent_value EV_COMPLETED)
       (completed_data worker_id job result))
    (on_exception worker_id d job).

(** [LeaseManager.acquire_lease(job)] *)
Definition lease_manager_acquire_lease (d : Draws) (ttl : Z) (job : Job)
    : M bool :=
  fun w =>
    let '(ok, s) :=
      acquire_lease (t_expiry d) (t_check d) (t_start d) (job_id job) ttl
        (db w) in
    (Ok ok, {| db := s; published := published w |}).

(** The first half of [Worker.run_once]: dequeue, then lease.  The job that
    goes on to [process_job] is the row as the dequeue read it. *)
Definition dequeue_and_lease (worker_id : string) (d : Draws) (ttl : Z)
    : M (option Job) :=
  job ← read_db (dequeue (t_select d) worker_id);
  match job return M (option Job) with
  | None => mret None
  | Some j =>
      lease_acquired ← lease_manager_acquire_lease d ttl j;
      if (lease_acquired : bool) return M (option Job) then mret (Some j) else mret None
  end.

(** [Worker.run_once] *)
Definition run_once (worker_id : string) (processor : job_processor)
    (d : Draws) (ttl : Z) : M bool :=
  try_except
    (job ← dequeue_and_lease worker_id d ttl;
     match job return M bool with
     | None => mret false
     | Some j => process_job worker_id processor d j;; mret true
     end)
    (fun _ => mret false).

(** ** EventBus

    A handler is a Python object; the bus asks it three things: whether it
    is callable, whether [asyncio.iscoroutinefunction] holds of it, and,
    when called (and awaited), what it does.  Handlers act on a world [W]
    of their own (open sockets, logs, counters) and either return or raise
    an [Exception]; they do not subscribe or unsubscribe while a publish
    is running, so the loop walks the list it started with. *)

Inductive Outcome := Returned | Raised (e : Exn).

Inductive HandlerKind := PlainFunction | CoroutineFunction | NotCallable.

Section EventBus.
Context {W : Type}.

Record Handler := mkHandler {
  handler_id : nat;                             (* object identity *)
  kind : HandlerKind;
  body : EventData -> W -> Outcome * W
}.

Record Bus := mkBus {
  _subscribers : gmap string (list Handler);
  world : W;
  stdout : list string
}.

(** [self._subscribers[event_type]] on a [defaultdict(list)]: a missing
    key is created with the empty list. *)
Definition subscribers_of (event_type : string) (m : gmap string (list Handler))
    : list Handler * gmap string (list Handler) :=
  match m !! event_type with
  | Some hs => (hs, m)
  | None => ([], <[event_type := []]> m)
  end.

Definition subscribe (event_type : string) (handler : Handler) (b : Bus)
    : Bus :=
  let '(hs, m) := subscribers_of event_type (_subscribers b) in
  {| _subscribers := <[event_type := hs ++ [handler]]> m;
     world := world b; stdout := stdout b |}.

Definition same_handler (h k : Handler) : bool :=
  bool_decide (handler_id h = handler_id k).

(** [list.remove]: drops the first occurrence. *)
Fixpoint list_remove (h : Handler) (hs : list Handler) : list Handler :=
  match hs with
  | [] => []
  | k :: hs' => if same_handler k h then hs' else k :: list_remove h hs'
  end.

Definition unsubscribe (event_type : string) (handler : Handler) (b : Bus)
    : Bus :=
  let '(hs, m) := subscribers_of event_type (_subscribers b) in
  {| _subscribers :=
       if existsb (fun k => same_handler k handler) hs
       then <[event_type := list_remove handler hs]> m
       else m;
     world := world b; stdout := stdout b |}.

(** The body of the [try] at lines 27-34: nothing happens for an object
    that is not callable; a coroutine function is called and awaited; any
    other callable is called. *)
Definition call_handler (handler : Handler) (data : EventData)
    : ST Bus unit :=
  fun b =>
    match kind handler with
    | NotCallable => (Ok tt, b)
    | CoroutineFunction | PlainFunction =>
        match body handler data (world b) with
        | (Returned, w) =>
            (Ok tt, {| _subscribers := _subscribers b; world := w;
                       stdout := stdout b |})
        | (Raised e, w) =>
            (Raise e, {| _subscribers := _subscribers b; world := w;
                         stdout := stdout b |})
        end
    end.

Definition print (line : string) : ST Bus unit :=
  fun b =>
    (Ok tt, {| _subscribers := _subscribers b; world := world b;
               stdout := stdout b ++ [line] |}).

Definition handler_error_line (event_type : string) (e : Exn) : string :=
  "Error in event handler for " +:+ event_type +:+ ": " +:+ str_exn e.

Fixpoint for_each (hs : list Handler) (f : Handler -> ST Bus unit)
    : ST Bus unit :=
  match hs with
  | [] => mret tt
  | h :: hs' => f h;; for_each hs' f
  end.

(** [EventBus.publish(event_type, data)] *)
Definition publish (event_type : string) (data : EventData) : ST Bus unit :=
  fun b =>
    let '(hs, m) := subscribers_of event_type (_subscribers b) in
    for_each hs
      (fun handler =>
         try_except (call_handler handler data)
           (fun e => print (handler_error_line event_type e)))
      {| _subscribers := m; world := world b; stdout := stdout b |}.

End EventBus.

Arguments Handler W : clear implicits.
Arguments Bus W : clear implicits.

(** ** Rate limiter *)

Record TokenBucket := mkBucket {
  capacity : Z;
  refill_rate : Q;          (* tokens per second *)
  tokens : Q;
  last_refill : datetime
}.

(** [TokenBucket.__init__]; [now] is the clock read at line 17. *)
Definition new_TokenBucket (now : datetime) (cap : Z) (rate : Q) : TokenBucket :=
  {| capacity := cap; refill_rate := rate; tokens := inject_Z cap;
     last_refill := now |}.

(** [timedelta.total_seconds()] *)
Definition total_seconds (delta : Z) : Q := (inject_Z delta / 1000000)%Q.

Definition refill (now : datetime) (b : TokenBucket) : TokenBucket :=
  let elapsed := total_seconds (now - last_refill b) in
  let tokens_to_add := (elapsed * refill_rate b)%Q in
  {| capacity := capacity b; refill_rate := refill_rate b;
     tokens := Qmin (inject_Z (capacity b)) (tokens b + tokens_to_add)%Q;
     last_refill := now |}.

Definition consume (now : datetime) (n : Z) (b : TokenBucket)
    : bool * TokenBucket :=
  let b' := refill now b in
  if Qle_bool (inject_Z n) (tokens b') then
    (true, {| capacity := capacity b'; refill_rate := refill_rate b';
              tokens := (tokens b' - inject_Z n)%Q;
              last_refill := last_refill b' |})
  else (false, b').

Definition _get_bucket_key (tenant : string) : string :=
  "rate_limit:" +:+ tenant.

(** [RateLimiter._get_or_create_bucket]; [t_new] is read only when a
    bucket is built. *)
Definition _get_or_create_bucket (t_new : datetime) (tenant : string)
    (rate_per_minute : Z) (buckets : gmap string TokenBucket)
    : TokenBucket * gmap string TokenBucket :=
  let key := _get_bucket_key tenant in
  match buckets !! key with
  | Some b => (b, buckets)
  | None =>
      let rate := (inject_Z rate_per_minute / 60)%Q in
      let b := new_TokenBucket t_new rate_per_minute rate in
      (b, <[key := b]> buckets)
  end.

Definition rate_limit_msg (rate_per_minute : Z) : string :=
  "Rate limit exceeded. Limit: " +:+ pretty rate_per_minute +:+
  " requests per minute".

(** [RateLimiter.check_rate_limit]; the bucket is an object held by the
    dictionary, so what [consume] does to it is written back under its
    key. *)
Definition check_rate_limit (t_new now : datetime) (tenant : string)
    (rate_per_minute : Z) (buckets : gmap string TokenBucket)
    : Result unit * gmap string TokenBucket :=
  let '(bucket, buckets1) :=
    _get_or_create_bucket t_new tenant rate_per_minute buckets in
  let '(ok, bucket') := consume now 1 bucket in
  let buckets2 := <[_get_bucket_key tenant := bucket']> buckets1 in
  if ok then (Ok tt, buckets2)
  else (Raise (RateLimitExceededError (rate_limit_msg rate_per_minute)),
        buckets2).

Definition reset_bucket (tenant : string) (buckets : gmap string TokenBucket)
    : gmap string TokenBucket :=
  delete (_get_bucket_key tenant) buckets.

(** ** Predicates used in the statements *)

(** [id] is the primary key of [jobs]. *)
Definition pk_unique (st : Store) : Prop := NoDup (map job_id (jobs st)).

(** An UPDATE whose SET clause leaves [id] alone. *)
Definition keeps_id (f : Job -> Job) : Prop := forall j, job_id (f j) = job_id j.

Definition older_eq (a b : Job) : Prop := created_at a <= created_at b.

(** ** A small scenario

    Tenant [t1] submits one job with idempotency key [k1]; a worker leases
    it at time 200 with a lease of 300 seconds. *)

Definition tenant1 : User :=
  {| user_id := "t1"; api_key_hash := "h1"; max_concurrent_jobs := 1;
     rate_limit_per_minute := 1; user_name := None |}.

Definition noop_payload : Json := JObj [("task", JStr "noop")].

Definition job1 : Job :=
  new_Job "job-1" 100 "trace-1" "t1" noop_payload (Some "k1") 3.

Definition store_pending : Store := (enqueue job1 empty_store).2.

Definition store_running : Store :=
  (acquire_lease 200 200 200 "job-1" 300 store_pending).2.

(** ... the processor fails with [boom] at time 250. *)
Definition store_failed : Store :=
  ack 250 "job-1" false (Some "boom") store_running.

Definition job1_running : Job :=
  set_lease (200 + timedelta_seconds 300) 200 job1.

Definition job1_failed : Job :=
  set_status 250 FAILED (Some "boom") job1_running.

Definition world_pending : WState := {| db := store_pending; published := [] |}.

(** A second submission of tenant [t1] under the same key. *)
Definition other_payload : Json := JObj [("task", JStr "other")].

Definition job2 : Job :=
  new_Job "job-2" 300 "trace-2" "t1" other_payload (Some "k1") 3.

(** Non-empty idempotency keys are unique within a tenant. *)
Definition idem_unique (st : Store) : Prop :=
  forall tenant key : string, key <> "" ->
    (length (filter (fun j => idem_match tenant key j = true) (jobs st)) <= 1)%nat.

(** ** The operations of the system as transitions of the store

    Submission goes through the API schema ([JobCreateRequest]), which
    accepts [max_retries] between 0 and 10.  The worker bumps the retry
    count of a job only after [can_retry] held of the row it re-read, and
    archives it otherwise. *)
Inductive step : Store -> Store -> Prop :=
| step_submit fid now tr user p key retries st r st' :
    0 <= retries <= 10 ->
    submit_job fid now tr user p key retries st = (r, st') ->
    step st st'
| step_lease e c s (i : UUID) (ttl : Z) st :
    step st (acquire_lease e c s i ttl st).2
| step_acknowledge now i success msg st :
    step st (ack now i success msg st)
| step_retry_bump i j st :
    get_by_id i st = Some j ->
    can_retry j = true ->
    step st (increment_retry i st).2
| step_move_to_dlq fid t_arch t_upd j msg st :
    get_by_id (job_id j) st = Some j ->
    can_retry j = false ->
    step st (move_to_dlq fid t_arch t_upd j msg st).2.

Definition reachable (st : Store) : Prop := rtc step empty_store st.

Definition retries_bounded (st : Store) : Prop :=
  forall j, j ∈ jobs st -> retry_count j <= max_retries j.

(** ** A failing job

    A job that allows no retry, leased at time 200, and a processor that
    raises [Exception("boom")]. *)
Definition failing_payload : Json :=
  JObj [("error", JBool true); ("error_message", JStr "boom")].

Definition job0 : Job :=
  new_Job "job-0" 100 "trace-0" "t1" failing_payload None 0.

Definition boom : job_processor := fun _ => Raise (Exception "boom").

Definition world_job0 : WState :=
  {| db := (enqueue job0 empty_store).2; published := [] |}.

(** [api/routes/websocket.py]: one coroutine function, [event_handler],
    broadcasts what it receives; it is subscribed to seven topics.  The
    world of the handlers is the list of broadcast messages. *)
Definition event_handler : Handler (list EventData) :=
  {| handler_id := 0; kind := CoroutineFunction;
     body := fun data sent => (Returned, sent ++ [data]) |}.

Definition websocket_topics : list string :=
  ["job_submitted"; "job_started"; "job_completed"; "job_failed";
   "job_retry"; "job_dlq"; "metrics_updated"].

Definition websocket_bus : Bus (list EventData) :=
  foldl (fun b topic => subscribe topic event_handler b)
    {| _subscribers := ∅; world := []; stdout := [] |} websocket_topics.

(** The bus after the publish calls a worker made, in order. *)
Definition deliver {W} (calls : list (string * EventData)) (b : Bus W) : Bus W :=
  foldl (fun b call => (publish call.1 call.2 b).2) b calls.

(** Row rewrites that never lower [retry_count], and those that keep both
    counters. *)
Definition retry_mono (f : Job -> Job) : Prop :=
  forall j, retry_count j <= retry_count (f j).

Definition keeps_retries (f : Job -> Job) : Prop :=
  forall j, retry_count (f j) = retry_count j /\ max_retries (f j) = max_retries j.

(** The five topics a worker passes to the bus: the values of [JobEvent]
    other than [SUBMITTED]. *)
Definition worker_topics : list string :=
  [JobEvent_value EV_STARTED; JobEvent_value EV_COMPLETED;
   JobEvent_value EV_RETRY; JobEvent_value EV_DLQ; JobEvent_value EV_FAILED].

(** ** Statements about the bus and the limiter *)

(** What one subscriber does to the handlers' world when the bus reaches
    it: nothing if it is not callable, its body otherwise, whether it
    returns or raises. *)
Definition invoke {W} (data : EventData) (w : W) (h : Handler W) : W :=
  match kind h with
  | NotCallable => w
  | PlainFunction | CoroutineFunction => (body h data w).2
  end.

(** A call of [check_rate_limit] with the values it draws from the clock. *)
Record RateCheck := mkCheck {
  ck_new : datetime;
  ck_now : datetime;
  ck_tenant : string;
  ck_rate : Z
}.

Definition run_checks (calls : list RateCheck) (buckets : gmap string TokenBucket)
    : gmap string TokenBucket :=
  foldl (fun bs c =>
           (check_rate_limit (ck_new c) (ck_now c) (ck_tenant c) (ck_rate c)
              bs).2)
    buckets calls.

(** Two handlers for a scenario: one raises, one counts its calls. *)
Definition raising_handler : Handler nat :=
  {| handler_id := 1; kind := PlainFunction;
     body := fun _ n => (Raised (Exception "handler failed"), n) |}.

Definition counting_handler : Handler nat :=
  {| handler_id := 2; kind := CoroutineFunction;
     body := fun _ n => (Returned, S n) |}.

Definition two_handler_bus : Bus nat :=
  subscribe "job_submitted" counting_handler
    (subscribe "job_submitted" raising_handler
       {| _subscribers := ∅; world := 0%nat; stdout := [] |}).

(** * Further operations of the repository, the services and the bus *)

(** [ORDER BY created_at DESC]: stable, rows of equal age keep their table
    order. *)
Fixpoint insert_by_created_at_desc (j : Job) (l : list Job) : list Job :=
  match l with
  | [] => [j]
  | k :: l' =>
      if created_at k <=? created_at j then j :: l
      else k :: insert_by_created_at_desc j l'
  end.

Definition order_by_created_at_desc (l : list Job) : list Job :=
  foldr insert_by_created_at_desc [] l.

(** The WHERE clause shared by [get_jobs_by_status] and [count_by_status]:
    the status, and the tenant when [tenant_id] is truthy. *)
Definition status_tenant_match (s : JobStatus) (tenant : option string)
    (j : Job) : bool :=
  bool_decide (status j = s) &&
  (if truthy tenant then bool_decide (Some (tenant_id j) = tenant) else true).

(** [JobRepository.get_jobs_by_status(status, tenant_id=None, limit=100)] *)
Definition get_jobs_by_status (s : JobStatus) (tenant : option string)
    (limit : nat) (st : Store) : list Job :=
  let by_status := filter (fun j => status j = s) (jobs st) in
  let query :=
    if truthy tenant
    then filter (fun j => Some (tenant_id j) = tenant) by_status
    else by_status in
  take limit (order_by_created_at_desc query).

(** [JobService.get_job(job_id, tenant_id=None)] *)
Definition get_job (i : UUID) (tenant : option string) (st : Store)
    : Result Job :=
  match get_by_id i st with
  | None => Raise (JobNotFoundError (not_found_msg i))
  | Some job =>
      if truthy tenant && negb (bool_decide (Some (tenant_id job) = tenant))
      then Raise (JobNotFoundError (not_found_msg i))
      else Ok job
  end.

(** [api/routes/jobs.py], [list_jobs]: the rows behind the response.  With a
    status the service is asked once; without, once per status in the order
    of the enumeration, and the concatenation is cut at [limit]. *)
Definition all_statuses : list JobStatus :=
  [PENDING; RUNNING; COMPLETED; FAILED; DLQ].

Definition list_jobs (s : option JobStatus) (current_user : User) (limit : nat)
    (st : Store) : list Job :=
  match s with
  | Some s' => get_jobs_by_status s' (Some (user_id current_user)) limit st
  | None =>
      take limit
        (concat (map (fun js =>
                   get_jobs_by_status js (Some (user_id current_user)) limit st)
                 all_statuses))
  end.

(** ** MetricsCollector *)

(** The dictionary [get_metrics] builds, key by key. *)
Record Metrics := mkMetrics {
  total_jobs : Z;
  pending_jobs : Z;
  running_jobs : Z;
  completed_jobs : Z;
  failed_jobs : Z;
  dlq_jobs : Z
}.

Definition metrics_of (tenant : option string) (st : Store) : Metrics :=
  {| total_jobs :=
       count_by_status PENDING tenant st + count_by_status RUNNING tenant st +
       count_by_status COMPLETED tenant st + count_by_status FAILED tenant st +
       count_by_status DLQ tenant st;
     pending_jobs := count_by_status PENDING tenant st;
     running_jobs := count_by_status RUNNING tenant st;
     completed_jobs := count_by_status COMPLETED tenant st;
     failed_jobs := count_by_status FAILED tenant st;
     dlq_jobs := count_by_status DLQ tenant st |}.

Section Observers.
Context {W : Type}.

(** An observer is an object with an [update(event, data)] method acting on
    a world of its own. *)
Record Observer := mkObserver {
  observer_id : nat;
  update : string -> Metrics -> W -> Outcome * W
}.

Record Collector := mkCollector {
  _observers : list Observer;
  observed : W
}.

Definition attach (o : Observer) (c : Collector) : Collector :=
  {| _observers := _observers c ++ [o]; observed := observed c |}.

Definition same_observer (o p : Observer) : bool :=
  bool_decide (observer_id o = observer_id p).

Fixpoint remove_observer (o : Observer) (l : list Observer)
    : option (list Observer) :=
  match l with
  | [] => None
  | p :: l' =>
      if same_observer p o then Some l'
      else cons p <$> remove_observer o l'
  end.

(** [detach]: [list.remove] raises [ValueError] when the observer is not in
    the list; [None] stands for that raise. *)
Definition detach (o : Observer) (c : Collector) : option Collector :=
  (fun l => {| _observers := l; observed := observed c |})
    <$> remove_observer o (_observers c).

(** [notify(event, data)]: no [try]; the first observer that raises ends
    the loop and the exception leaves [notify]. *)
Fixpoint notify_each (os : list Observer) (event : string) (data : Metrics)
    : ST W unit :=
  match os with
  | [] => mret tt
  | o :: os' =>
      (fun w => match update o event data w with
                | (Returned, w') => (Ok tt, w')
                | (Raised e, w') => (Raise e, w')
                end);;
      notify_each os' event data
  end.

Definition notify (event : string) (data : Metrics) : ST Collector unit :=
  fun c =>
    let '(r, w) := notify_each (_observers c) event data (observed c) in
    (r, {| _observers := _observers c; observed := w |}).

(** [get_metrics(tenant_id=None)] over the store [st]. *)
Definition get_metrics (tenant : option string) (st : Store)
    : ST Collector Metrics :=
  let metrics := metrics_of tenant st in
  notify "metrics_updated" metrics;;
  mret metrics.

End Observers.

Arguments Observer W : clear implicits.
Arguments Collector W : clear implicits.

Definition newer_eq (a b : Job) : Prop := created_at b <= created_at a.

(** The rows [count_by_status] and [get_jobs_by_status] range over when
    asked for [tenant]. *)
Definition rows_of_tenant (tenant : option string) (st : Store) : list Job :=
  if truthy tenant
  then filter (fun j => Some (tenant_id j) = tenant) (jobs st)
  else jobs st.

(** Two observers for a scenario: one counts its updates, one raises. *)
Definition counting_observer : Observer nat :=
  {| observer_id := 1; update := fun _ _ n => (Returned, S n) |}.

Definition raising_observer : Observer nat :=
  {| observer_id := 2;
     update := fun _ _ n => (Raised (Exception "observer failed"), n) |}.

(** A job in status DLQ has an archive row that names it and carries its
    tenant, payload and trace id. *)
Definition archived (st : Store) (j : Job) : Prop :=
  exists row, row ∈ dlq st /\ original_job_id row = job_id j /\
              dlq_tenant_id row = tenant_id j /\
              dlq_payload row = payload j /\ dlq_trace_id row = trace_id j.

Definition dlq_jobs_archived (st : Store) : Prop :=
  forall j, j ∈ jobs st -> status j = DLQ -> archived st j.

(** Row rewrites that keep what an archive row records of a job. *)
Definition keeps_identity (f : Job -> Job) : Prop :=
  forall j, job_id (f j) = job_id j /\ tenant_id (f j) = tenant_id j /\
            payload (f j) = payload j /\ trace_id (f j) = trace_id j.

(** The store after the failing job of the scenario was processed. *)
Definition world_job0_done : WState :=
  (run_once "worker-1" boom (at_instant 200 "dlq-1") 300 world_job0).2.

(** [n] calls of [consume()] at the same reading [now] of the clock. *)
Definition consume_times (n : nat) (now : datetime) (b : TokenBucket)
    : TokenBucket :=
  Nat.iter n (fun b' => (consume now 1 b').2) b.

Definition bucket5 : TokenBucket := new_TokenBucket 0 5 (inject_Z 5 / 60)%Q.

(** No handler of the list is the object [h]. *)
Definition not_subscribed {W} (h : Handler W) (hs : list (Handler W)) : Prop :=
  Forall (fun k => handler_id k <> handler_id h) hs.

(** The tenant filter of [count_by_status] accepts job [j]: an empty
    tenant id switches the filter off. *)
Definition counted_for (tenant : string) (j : Job) : Z :=
  if bool_decide (tenant = "" \/ tenant = tenant_id j) then 1 else 0.

(** ** retry_with_backoff

    The decorated coroutine is a computation [func] over a state [St]
    (the arguments of the call are fixed).  Delays are values of a type
    [F] with the multiplication [fmul] of [delay *= backoff_factor].
    What the wrapper does besides calling [func] is kept as a trace: the
    two log records and the sleeps. *)

Inductive RetryEffect (F : Type) :=
| LogRetryAttempt (attempt : Z) (delay : F) (e : Exn)
| Sleep (delay : F)
| LogRetryExhausted (e : Exn).
Arguments LogRetryAttempt {F} attempt delay e.
Arguments Sleep {F} delay.
Arguments LogRetryExhausted {F} e.

(** How the wrapper ends: with the value of [func], with the last
    exception of [func], or, when [last_exception] is still [None] at
    line 48, with the [TypeError] of [raise None]. *)
Inductive WrapperResult (A : Type) :=
| WrapperReturned (a : A)
| WrapperRaised (e : Exn)
| WrapperTypeError.
Arguments WrapperReturned {A} a.
Arguments WrapperRaised {A} e.
Arguments WrapperTypeError {A}.

Section RetryWithBackoff.
Context {St A F : Type}.
Context (fmul : F -> F -> F).

(** The [for] loop of lines 24-46 over the attempts still to make, and
    line 48 after it. *)
Fixpoint wrapper_loop (func : ST St A) (max_retries : Z) (backoff_factor : F)
    (attempts : list Z) (delay : F) (last_exception : option Exn)
    (s : St) (trace : list (RetryEffect F))
    : WrapperResult A * St * list (RetryEffect F) :=
  match attempts with
  | [] =>
      (match last_exception with
       | Some e => WrapperRaised e
       | None => WrapperTypeError
       end, s, trace)
  | attempt :: rest =>
      match func s with
      | (Ok a, s') => (WrapperReturned a, s', trace)
      | (Raise e, s') =>
          if attempt <? max_retries
          then wrapper_loop func max_retries backoff_factor rest
                 (fmul delay backoff_factor) (Some e) s'
                 (trace ++ [LogRetryAttempt (attempt + 1) delay e;
                            Sleep delay])
          else wrapper_loop func max_retries backoff_factor rest
                 delay (Some e) s' (trace ++ [LogRetryExhausted e])
      end
  end.

Definition retry_with_backoff (max_retries : Z) (initial_delay : F)
    (backoff_factor : F) (func : ST St A) (s : St)
    : WrapperResult A * St * list (RetryEffect F) :=
  wrapper_loop func max_retries backoff_factor (seqZ 0 (max_retries + 1))
    initial_delay None s [].

(** The delays slept, in order. *)
Definition sleeps (trace : list (RetryEffect F)) : list F :=
  omap (fun x => match x with Sleep d => Some d | _ => None end) trace.

(** [k] delays, each the one before times the factor. *)
Fixpoint backoff_delays (k : nat) (delay backoff_factor : F) : list F :=
  match k with
  | O => []
  | S k' => delay :: backoff_delays k' (fmul delay backoff_factor)
                       backoff_factor
  end.

(** The state after [n] calls of [func]. *)
Definition after_calls (func : ST St A) (n : nat) (s : St) : St :=
  Nat.iter n (fun s' => (func s').2) s.

(** The [i]-th call of [func] from [s] raises. *)
Definition raises_at (func : ST St A) (s : St) (i : nat) : Prop :=
  exists e, (func (after_calls func i s)).1 = Raise e.

End RetryWithBackoff.

(** A coroutine that fails on its first two calls: the state counts the
    calls. *)
Definition flaky : ST nat nat :=
  fun n => if (n <? 2)%nat then (Raise (Exception "unavailable"), S n)
           else (Ok n, S n).

(** ** ConnectionManager (api/routes/websocket.py)

    A [WebSocket] is an object with an identity and the two calls the
    manager makes on it; [N] is the state of the network those calls act
    on.  Two connections are equal when they are the same object.  The log
    records are left out.  [broadcast] is the coroutine run without another
    coroutine changing the list between its sends. *)

Section Connections.
Context {N : Type}.

Record WebSocket := mkWebSocket {
  ws_id : nat;
  ws_accept : N -> Outcome * N;
  send_json : EventData -> N -> Outcome * N
}.

Record ConnectionManager := mkManager {
  active_connections : list WebSocket;
  network : N
}.

Definition same_websocket (c k : WebSocket) : bool :=
  bool_decide (ws_id c = ws_id k).

(** [connect]: the connection joins the list once [accept] has returned. *)
Definition connect (websocket : WebSocket) (m : ConnectionManager)
    : Result unit * ConnectionManager :=
  match ws_accept websocket (network m) with
  | (Returned, n') =>
      (Ok tt, {| active_connections := active_connections m ++ [websocket];
                 network := n' |})
  | (Raised e, n') =>
      (Raise e, {| active_connections := active_connections m;
                   network := n' |})
  end.

(** [list.remove] under the guard [websocket in self.active_connections]. *)
Fixpoint remove_connection (websocket : WebSocket) (l : list WebSocket)
    : list WebSocket :=
  match l with
  | [] => []
  | k :: l' => if same_websocket k websocket then l'
               else k :: remove_connection websocket l'
  end.

Definition disconnect (websocket : WebSocket) (m : ConnectionManager)
    : ConnectionManager :=
  {| active_connections :=
       if existsb (fun k => same_websocket k websocket)
            (active_connections m)
       then remove_connection websocket (active_connections m)
       else active_connections m;
     network := network m |}.

(** The first loop of [broadcast]: one send for each connection, those
    whose send raised are collected in [disconnected]. *)
Fixpoint send_to_each (message : EventData) (connections : list WebSocket)
    (disconnected : list WebSocket) (n : N) : list WebSocket * N :=
  match connections with
  | [] => (disconnected, n)
  | connection :: rest =>
      match send_json connection message n with
      | (Returned, n') => send_to_each message rest disconnected n'
      | (Raised _, n') =>
          send_to_each message rest (disconnected ++ [connection]) n'
      end
  end.

Definition broadcast (message : EventData) (m : ConnectionManager)
    : ConnectionManager :=
  let '(disconnected, n') :=
    send_to_each message (active_connections m) [] (network m) in
  foldl (fun m' conn => disconnect conn m')
    {| active_connections := active_connections m; network := n' |}
    disconnected.

End Connections.

Definition is_raised (o : Outcome) : bool :=
  match o with Returned => false | Raised _ => true end.

(** Two connections over a network that counts the messages delivered:
    the first is open, the second raises on every send. *)
Definition open_socket : WebSocket (N:=nat) :=
  {| ws_id := 1; ws_accept := fun n => (Returned, n);
     send_json := fun _ n => (Returned, S n) |}.

Definition closed_socket : WebSocket (N:=nat) :=
  {| ws_id := 2; ws_accept := fun n => (Returned, n);
     send_json := fun _ n => (Raised (Exception "connection closed"), n) |}.

(** ** RateLimitMiddleware (api/middleware/rate_limit_middleware.py)

    [D] is the state of the application behind the middleware and [R] its
    response; [call_next] runs that application.  The limiter is the
    module-level [rate_limiter]. *)

Inductive DispatchResult (R : Type) :=
| Response (r : R)
| RaisedHTTPException (status_code : Z) (detail : string)
| RaisedOther (e : Exn).
Arguments Response {R} r.
Arguments RaisedHTTPException {R} status_code detail.
Arguments RaisedOther {R} e.

Definition exempt_paths : list string :=
  ["/docs"; "/openapi.json"; "/metrics"; "/health"].

Definition HTTP_429_TOO_MANY_REQUESTS : Z := 429.

Section Middleware.
Context {D R : Type}.

Record AppState := mkApp {
  limiter : gmap string TokenBucket;
  downstream : D
}.

(** [await call_next(request)] *)
Definition forward (call_next : D -> Result R * D)
    (buckets : gmap string TokenBucket) (d : D)
    : DispatchResult R * AppState :=
  let '(r, d') := call_next d in
  (match r with Ok x => Response x | Raise e => RaisedOther e end,
   {| limiter := buckets; downstream := d' |}).

(** [dispatch]; [user] is [request.state.user] when the attribute is set,
    [t_new] and [now] are the clock reads of the limiter. *)
Definition dispatch (t_new now : datetime) (path : string)
    (user : option User) (call_next : D -> Result R * D) (a : AppState)
    : DispatchResult R * AppState :=
  if bool_decide (path ∈ exempt_paths)
  then forward call_next (limiter a) (downstream a)
  else
    match user with
    | None => forward call_next (limiter a) (downstream a)
    | Some u =>
        match check_rate_limit t_new now (user_id u)
                (rate_limit_per_minute u) (limiter a) with
        | (Ok _, buckets) => forward call_next buckets (downstream a)
        | (Raise (RateLimitExceededError msg), buckets) =>
            (RaisedHTTPException HTTP_429_TOO_MANY_REQUESTS msg,
             {| limiter := buckets; downstream := downstream a |})
        | (Raise e, buckets) =>
            (RaisedOther e,
             {| limiter := buckets; downstream := downstream a |})
        end
    end.

(** The state after [k] requests of one user for one path, all at the
    instant [now]. *)
Definition after_requests (k : nat) (now : datetime) (path : string)
    (u : User) (call_next : D -> Result R * D) (a : AppState) : AppState :=
  Nat.iter k (fun a' => (dispatch now now path (Some u) call_next a').2) a.

End Middleware.

(** An application that answers with the number of requests it has seen. *)
Definition counting_app : nat -> Result nat * nat :=
  fun d => (Ok d, S d).

(** ** The job routes (api/routes/jobs.py)

    A route runs on the database and the event bus of the worker's view;
    its outcome is a response, the [HTTPException] it raises, or an
    exception it lets through. *)

Record JobResponse := mkJobResponse {
  r_id : UUID;
  r_tenant_id : string;
  r_status : string;
  r_payload : Json;
  r_idempotency_key : option string;
  r_max_retries : Z;
  r_retry_count : Z;
  r_created_at : datetime;
  r_started_at : option datetime;
  r_completed_at : option datetime;
  r_error_message : option string;
  r_trace_id : string
}.

Definition job_response (job : Job) : JobResponse :=
  {| r_id := job_id job; r_tenant_id := tenant_id job;
     r_status := JobStatus_value (status job); r_payload := payload job;
     r_idempotency_key := idempotency_key job;
     r_max_retries := max_retries job; r_retry_count := retry_count job;
     r_created_at := created_at job; r_started_at := started_at job;
     r_completed_at := completed_at job;
     r_error_message := error_message job; r_trace_id := trace_id job |}.

(** The dictionary [create_job] passes to the bus. *)
Definition submitted_data (job : Job) : EventData :=
  [("job_id", JStr (job_id job)); ("tenant_id", JStr (tenant_id job));
   ("status", JStr (JobStatus_value (status job)));
   ("trace_id", JStr (trace_id job))].

Definition HTTP_404_NOT_FOUND : Z := 404.

(** [POST /api/v1/jobs].  [submit_job] raises no [JobAlreadyExistsError],
    so the handler for it has nothing to catch. *)
Definition create_job (fresh_id : UUID) (now : datetime) (fresh_trace : string)
    (current_user : User) (p : Json) (key : option string) (retries : Z)
    (w : WState) : DispatchResult JobResponse * WState :=
  match submit_job fresh_id now fresh_trace current_user p key retries
          (db w) with
  | (Ok job, st) =>
      (Response (job_response job),
       {| db := st;
          published := published w ++
                       [("job_submitted", submitted_data job)] |})
  | (Raise (QuotaExceededError msg), st) =>
      (RaisedHTTPException HTTP_429_TOO_MANY_REQUESTS msg,
       {| db := st; published := published w |})
  | (Raise e, st) =>
      (RaisedOther e, {| db := st; published := published w |})
  end.

(** [GET /api/v1/jobs/{job_id}] (the route function [get_job]). *)
Definition route_get_job (i : UUID) (current_user : User) (w : WState)
    : DispatchResult JobResponse :=
  match get_job i (Some (user_id current_user)) (db w) with
  | Ok job => Response (job_response job)
  | Raise (JobNotFoundError msg) =>
      RaisedHTTPException HTTP_404_NOT_FOUND msg
  | Raise e => RaisedOther e
  end.

Definition tenant2 : User :=
  {| user_id := "t2"; api_key_hash := "h2"; max_concurrent_jobs := 5;
     rate_limit_per_minute := 10; user_name := None |}.

(** [Job.is_lease_expired]; [now] is the clock read at line 55. *)
Definition is_lease_expired (now : datetime) (j : Job) : bool :=
  match lease_expires_at j with
  | None => false
  | Some t => t <? now
  end.

(** The job of [store_running], looked at an hour after its lease ran
    out. *)
Definition long_after : datetime := 200 + timedelta_seconds 3900.
(** * Properties *)

(** ** Tables and primary keys *)

Lemma has_id_true i j : has_id i j = true <-> job_id j = i.
Proof. unfold has_id. apply bool_decide_eq_true. Qed.

Lemma has_id_false i j : has_id i j = false <-> job_id j <> i.
Proof. unfold has_id. apply bool_decide_eq_false. Qed.

Lemma find_has_id_Some i l j :
  find (has_id i) l = Some j -> j ∈ l /\ job_id j = i.
Proof.
  induction l as [|k l IH]; simpl; [discriminate|].
  destruct (has_id i k) eqn:E.
  - intros [= <-]. split; [left | by apply has_id_true].
  - intros H. destruct (IH H). split; [by right | done].
Qed.

Lemma find_has_id_None i l :
  find (has_id i) l = None <-> (forall j, j ∈ l -> job_id j <> i).
Proof.
  induction l as [|k l IH]; simpl.
  - split; [intros _ j Hj; inversion Hj | done].
  - destruct (has_id i k) eqn:E.
    + split; [discriminate|]. intros H. exfalso.
      apply (H k); [left | by apply has_id_true].
    + rewrite IH. split.
      * intros H j Hj. inversion Hj; subst; [by apply has_id_false | auto].
      * intros H j Hj. apply H. by right.
Qed.

Lemma same_key_same_row (l : list Job) j k :
  NoDup (map job_id l) -> j ∈ l -> k ∈ l -> job_id j = job_id k -> j = k.
Proof.
  induction l as [|x l IH]; simpl; intros Hnd Hj Hk Heq.
  - inversion Hj.
  - apply NoDup_cons in Hnd as [Hx Hnd].
    inversion Hj as [|? ? ? Hj']; inversion Hk as [|? ? ? Hk']; subst; auto.
    + exfalso. apply Hx. rewrite Heq. apply list_elem_of_fmap. eauto.
    + exfalso. apply Hx. rewrite <- Heq. apply list_elem_of_fmap. eauto.
Qed.

Lemma get_by_id_elem st j :
  pk_unique st -> j ∈ jobs st -> get_by_id (job_id j) st = Some j.
Proof.
  intros Hpk Hj. unfold get_by_id.
  destruct (find (has_id (job_id j)) (jobs st)) as [k|] eqn:E.
  - apply find_has_id_Some in E as [Hk Hid]. f_equal.
    by apply (same_key_same_row (jobs st)).
  - exfalso. eapply find_has_id_None in E; eauto.
Qed.

Lemma keeps_id_set_status now s msg : keeps_id (set_status now s msg).
Proof. by intros j. Qed.

Lemma keeps_id_set_lease e s : keeps_id (set_lease e s).
Proof. by intros j. Qed.

Lemma keeps_id_bump : keeps_id bump.
Proof. by intros j. Qed.

Lemma keeps_id_clear_lease : keeps_id clear_lease.
Proof. by intros j. Qed.

Create HintDb store.
#[local] Hint Resolve keeps_id_set_status keeps_id_set_lease keeps_id_bump
  keeps_id_clear_lease : store.

Lemma update_rows_ids c f l :
  keeps_id f -> map job_id (update_rows c f l) = map job_id l.
Proof.
  intros Hf. unfold update_rows. induction l as [|j l IH]; simpl; [done|].
  rewrite IH. f_equal. destruct (c j); [apply Hf | done].
Qed.

Lemma find_update_rows i c f l :
  keeps_id f ->
  find (has_id i) (update_rows c f l) =
  (fun j => if c j then f j else j) <$> find (has_id i) l.
Proof.
  intros Hf. unfold update_rows. induction l as [|j l IH]; simpl; [done|].
  assert (has_id i (if c j then f j else j) = has_id i j) as ->.
  { unfold has_id. destruct (c j); [by rewrite Hf | done]. }
  destruct (has_id i j); [done | apply IH].
Qed.

Lemma update_rows_none c f l :
  (forall j, j ∈ l -> c j = false) -> update_rows c f l = l.
Proof.
  unfold update_rows. induction l as [|j l IH]; simpl; intros H; [done|].
  rewrite (H j) by left. f_equal. apply IH. intros k Hk. apply H. by right.
Qed.

Lemma rowcount_pos c l :
  (0 < rowcount c l)%nat <-> exists j, j ∈ l /\ c j = true.
Proof.
  unfold rowcount. split.
  - intros H. destruct (filter (fun j => c j = true) l) as [|j r] eqn:E;
      simpl in H; [lia|].
    assert (j ∈ filter (fun j => c j = true) l) as Hin by (rewrite E; left).
    apply list_elem_of_filter in Hin as [? ?]. eauto.
  - intros (j & Hj & Hc).
    assert (j ∈ filter (fun j => c j = true) l) as Hin
      by by apply list_elem_of_filter.
    destruct (filter (fun j => c j = true) l); [inversion Hin | simpl; lia].
Qed.

Lemma rowcount_zero c l :
  ~ (0 < rowcount c l)%nat -> forall j, j ∈ l -> c j = false.
Proof.
  intros H j Hj. destruct (c j) eqn:E; [|done].
  exfalso. apply H, rowcount_pos. eauto.
Qed.

(** ** Age order of the dequeue *)

Lemma insert_by_created_at_elem x j l :
  x ∈ insert_by_created_at j l <-> x = j \/ x ∈ l.
Proof.
  induction l as [|k l IH]; simpl.
  - rewrite list_elem_of_singleton, elem_of_nil. tauto.
  - destruct (created_at j <=? created_at k).
    + by rewrite elem_of_cons.
    + rewrite !elem_of_cons, IH. tauto.
Qed.

Lemma order_by_created_at_asc_elem x l :
  x ∈ order_by_created_at_asc l <-> x ∈ l.
Proof.
  unfold order_by_created_at_asc. induction l as [|j l IH]; simpl; [done|].
  rewrite insert_by_created_at_elem, IH, elem_of_cons. tauto.
Qed.

Lemma insert_by_created_at_sorted j l :
  StronglySorted older_eq l -> StronglySorted older_eq (insert_by_created_at j l).
Proof.
  induction 1 as [|k l Hs IH Hall]; simpl.
  - repeat constructor.
  - destruct (created_at j <=? created_at k) eqn:E.
    + apply Z.leb_le in E. constructor; [by constructor|].
      constructor; [done|].
      eapply Forall_impl; [exact Hall|]. unfold older_eq. intros; lia.
    + apply Z.leb_gt in E. constructor; [done|].
      apply Forall_forall. intros x Hx.
      apply insert_by_created_at_elem in Hx as [->|Hx].
      * unfold older_eq. lia.
      * by eapply Forall_forall in Hall.
Qed.

Lemma order_by_created_at_asc_sorted l :
  StronglySorted older_eq (order_by_created_at_asc l).
Proof.
  unfold order_by_created_at_asc. induction l; simpl;
    [constructor | by apply insert_by_created_at_sorted].
Qed.

Lemma dequeue_None now wid st :
  dequeue now wid st = None <->
  forall k, k ∈ jobs st -> leasable now k = false.
Proof.
  unfold dequeue, get_pending_jobs_for_dequeue.
  set (L := filter (fun j => leasable now j = true) (jobs st)).
  assert (forall k, k ∈ order_by_created_at_asc L <->
                    k ∈ jobs st /\ leasable now k = true) as Hin.
  { intros k. rewrite order_by_created_at_asc_elem. unfold L.
    rewrite list_elem_of_filter. tauto. }
  destruct (order_by_created_at_asc L) as [|m r]; simpl.
  - split; [|done]. intros _ k Hk.
    destruct (leasable now k) eqn:E; [|done].
    exfalso. eapply elem_of_nil, Hin; eauto.
  - split; [discriminate|]. intros H. exfalso.
    destruct (Hin m) as [[Hm Hl] _]; [left|]. rewrite (H m Hm) in Hl. done.
Qed.

Lemma dequeue_Some now wid st j :
  dequeue now wid st = Some j ->
  j ∈ jobs st /\ leasable now j = true /\
  forall k, k ∈ jobs st -> leasable now k = true -> created_at j <= created_at k.
Proof.
  unfold dequeue, get_pending_jobs_for_dequeue.
  set (L := filter (fun j => leasable now j = true) (jobs st)).
  assert (forall k, k ∈ order_by_created_at_asc L <->
                    k ∈ jobs st /\ leasable now k = true) as Hin.
  { intros k. rewrite order_by_created_at_asc_elem. unfold L.
    rewrite list_elem_of_filter. tauto. }
  pose proof (order_by_created_at_asc_sorted L) as Hs.
  destruct (order_by_created_at_asc L) as [|m r]; simpl; [discriminate|].
  intros [= <-].
  destruct (Hin m) as [[Hm Hl] _]; [left|].
  split; [done|]. split; [done|]. intros k Hk Hkl.
  assert (k ∈ m :: r) as Hkin by (apply Hin; done).
  apply StronglySorted_inv in Hs as [_ Hall].
  apply elem_of_cons in Hkin as [->|Hkin]; [lia|].
  by eapply Forall_forall in Hall.
Qed.

(** ** Lease acquisition *)

Lemma leasable_spec now j :
  leasable now j = true <-> status j = PENDING /\ lease_free now j = true.
Proof.
  unfold leasable. rewrite andb_true_iff, bool_decide_eq_true. tauto.
Qed.

Lemma lease_free_spec now j :
  lease_free now j = true <->
  lease_expires_at j = None \/ exists t, lease_expires_at j = Some t /\ t < now.
Proof.
  unfold lease_free. destruct (lease_expires_at j) as [t|].
  - rewrite Z.ltb_lt. split; [eauto|]. intros [|(t' & [= <-] & ?)]; done.
  - split; [auto | done].
Qed.

Lemma acquire_lease_true e c s (i : UUID) (ttl : Z) (st : Store) :
  (acquire_lease e c s i ttl st).1 = true ->
  exists j, j ∈ jobs st /\ job_id j = i /\ leasable c j = true.
Proof.
  unfold acquire_lease; simpl. rewrite bool_decide_eq_true, rowcount_pos.
  intros (j & Hj & Hc). apply andb_true_iff in Hc as [Hi Hl].
  exists j. split; [done|]. split; [by apply has_id_true | done].
Qed.

Lemma acquire_lease_false e c s (i : UUID) (ttl : Z) (st : Store) :
  (acquire_lease e c s i ttl st).1 = false ->
  (acquire_lease e c s i ttl st).2 = st.
Proof.
  unfold acquire_lease; simpl. rewrite bool_decide_eq_false. intros H.
  rewrite update_rows_none; [by destruct st|]. by apply rowcount_zero.
Qed.

Lemma acquire_lease_elem e c s (ttl : Z) (st : Store) (j : Job) :
  pk_unique st -> j ∈ jobs st -> leasable c j = true ->
  acquire_lease e c s (job_id j) ttl st =
  (true,
   {| jobs := map (fun k => if has_id (job_id j) k
                            then set_lease (e + timedelta_seconds ttl) s j
                            else k) (jobs st);
      dlq := dlq st |}).
Proof.
  intros Hpk Hj Hl. unfold acquire_lease. f_equal.
  - apply bool_decide_eq_true, rowcount_pos. exists j. split; [done|].
    apply andb_true_iff. split; [by apply has_id_true | done].
  - f_equal. unfold update_rows. apply map_ext_in. intros k Hk.
    apply list_elem_of_In in Hk.
    destruct (has_id (job_id j) k) eqn:E; simpl; [|done].
    apply has_id_true in E.
    assert (k = j) as -> by by apply (same_key_same_row (jobs st)).
    by rewrite Hl.
Qed.

Lemma acquire_lease_twice e1 c1 s1 (ttl1 : Z) e2 c2 s2 (ttl2 : Z) (i : UUID)
    (st : Store) :
  pk_unique st ->
  (acquire_lease e1 c1 s1 i ttl1 st).1 = true ->
  (acquire_lease e2 c2 s2 i ttl2 (acquire_lease e1 c1 s1 i ttl1 st).2).1 = false.
Proof.
  intros Hpk H1. apply acquire_lease_true in H1 as (j & Hj & <- & Hl).
  rewrite (acquire_lease_elem e1 c1 s1 ttl1 st j) by done. simpl.
  apply bool_decide_eq_false, (not_iff_compat (rowcount_pos _ _)).
  intros (k' & Hk' & Hc). apply andb_true_iff in Hc as [Hi Hl'].
  apply list_elem_of_fmap in Hk' as (k & -> & Hk).
  destruct (has_id (job_id j) k) eqn:E.
  - by apply leasable_spec in Hl' as [? _].
  - congruence.
Qed.

Lemma dequeue_and_lease_unfold wid d ttl w :
  dequeue_and_lease wid d ttl w =
  match dequeue (t_select d) wid (db w) with
  | None => (Ok None, w)
  | Some j =>
      let r := acquire_lease (t_expiry d) (t_check d) (t_start d)
                 (job_id j) ttl (db w) in
      (Ok (if r.1 then Some j else None),
       {| db := r.2; published := published w |})
  end.
Proof.
  unfold dequeue_and_lease, mbind, ST_bind, read_db,
    lease_manager_acquire_lease, mret, ST_ret.
  destruct (dequeue (t_select d) wid (db w)) as [j|]; [|done].
  destruct (acquire_lease _ _ _ _ _ _) as [[] s]; done.
Qed.

Lemma leasable_later t t' j :
  t <= t' -> leasable t j = true -> leasable t' j = true.
Proof.
  intros Hle. rewrite !leasable_spec, !lease_free_spec.
  intros [Hs [Hn|(x & Hx & Hlt)]]; split; auto.
  right. exists x. split; [done | lia].
Qed.

(** The path with the clock reads kept apart: the row chosen at the read
    of the dequeue is still free at the later read of the lease, which
    stamps it with the reads it made itself. *)
Lemma dequeue_and_lease_draws wid d ttl w :
  pk_unique (db w) -> t_select d <= t_check d ->
  match dequeue_and_lease wid d ttl w with
  | (Ok (Some j), w') =>
      j ∈ jobs (db w) /\ leasable (t_select d) j = true /\
      (forall k, k ∈ jobs (db w) -> leasable (t_select d) k = true ->
                 created_at j <= created_at k) /\
      jobs (db w') =
        map (fun k => if has_id (job_id j) k
                      then set_lease (t_expiry d + timedelta_seconds ttl)
                             (t_start d) j
                      else k) (jobs (db w)) /\
      dlq (db w') = dlq (db w) /\ published w' = published w
  | (Ok None, w') =>
      (forall k, k ∈ jobs (db w) -> leasable (t_select d) k = false) /\ w' = w
  | (Raise _, _) => False
  end.
Proof.
  intros Hpk Hle. rewrite dequeue_and_lease_unfold.
  destruct (dequeue (t_select d) wid (db w)) as [j|] eqn:Hd.
  - apply dequeue_Some in Hd as (Hj & Hl & Hmin).
    rewrite (acquire_lease_elem _ _ _ ttl (db w) j)
      by eauto using leasable_later.
    cbn [fst snd db published jobs dlq]. done.
  - split; [by apply (proj1 (dequeue_None _ wid (db w))) | by destruct w].
Qed.

(** C1.  One pass of the dequeue-and-lease path at clock value [now]
    picks the oldest job that is PENDING with a null or expired lease,
    rewrites exactly that row to RUNNING with [started_at = now] and
    [lease_expires_at = now + ttl], and hands the job on to the worker, as
    the row the dequeue read; it yields nothing, and changes nothing, when
    no such job exists.  A lease attempt
    succeeds only on a job that is PENDING with a null or expired lease, a
    failed attempt leaves the store as it was, and of two attempts on the
    same job the second fails whenever the first succeeded. *)
Theorem dequeue_and_lease_exclusive (wid : string) (now : datetime) (u : UUID)
    (ttl : Z) (w : WState) :
  pk_unique (db w) ->
  match dequeue_and_lease wid (at_instant now u) ttl w with
  | (Ok (Some j), w') =>
      j ∈ jobs (db w) /\ status j = PENDING /\
      (lease_expires_at j = None \/
       exists t, lease_expires_at j = Some t /\ t < now) /\
      (forall k, k ∈ jobs (db w) -> leasable now k = true ->
                 created_at j <= created_at k) /\
      (exists j',
         jobs (db w') =
           map (fun k => if has_id (job_id j) k then j' else k) (jobs (db w)) /\
         j' = set_lease (now + timedelta_seconds ttl) now j /\
         status j' = RUNNING /\ started_at j' = Some now /\
         lease_expires_at j' = Some (now + timedelta_seconds ttl)) /\
      (forall k, k ∈ jobs (db w) -> job_id k = job_id j -> k = j) /\
      dlq (db w') = dlq (db w) /\ published w' = published w
  | (Ok None, w') =>
      (forall k, k ∈ jobs (db w) -> leasable now k = false) /\ w' = w
  | (Raise _, _) => False
  end /\
  forall (i : UUID) e1 c1 s1 (ttl1 : Z) e2 c2 s2 (ttl2 : Z),
    let r1 := acquire_lease e1 c1 s1 i ttl1 (db w) in
    let r2 := acquire_lease e2 c2 s2 i ttl2 r1.2 in
    (r1.1 = true ->
     exists j, get_by_id i (db w) = Some j /\ status j = PENDING /\
               (lease_expires_at j = None \/
                exists t, lease_expires_at j = Some t /\ t < c1)) /\
    (r1.1 = false -> r1.2 = db w) /\
    ~ (r1.1 = true /\ r2.1 = true).
Proof.
  intros Hpk. split.
  - rewrite dequeue_and_lease_unfold.
    cbn [at_instant t_select t_expiry t_check t_start].
    destruct (dequeue now wid (db w)) as [j|] eqn:Hd.
    + apply dequeue_Some in Hd as (Hj & Hl & Hmin).
      rewrite (acquire_lease_elem now now now ttl (db w) j) by done.
      cbn [fst snd db published jobs dlq].
      pose proof Hl as [Hs Hf]%leasable_spec.
      split; [done|]. split; [done|].
      split; [by apply lease_free_spec|]. split; [done|].
      split; [eauto 10|]. split; [|done].
      intros k Hk Hid. by apply (same_key_same_row (jobs (db w))).
    + split; [by apply (proj1 (dequeue_None now wid (db w))) | by destruct w].
  - intros i e1 c1 s1 ttl1 e2 c2 s2 ttl2 r1 r2. subst r1 r2.
    split; [|split].
    + intros (j & Hj & <- & Hl)%acquire_lease_true.
      exists j. split; [by apply get_by_id_elem|].
      apply leasable_spec in Hl as [Hs Hf]. split; [done|].
      by apply lease_free_spec.
    + apply acquire_lease_false.
    + intros [H1 H2].
      rewrite (acquire_lease_twice e1 c1 s1 ttl1 e2 c2 s2 ttl2 i (db w)) in H2;
        done.
Qed.

(** ** Status updates and retry bumps *)

Lemma get_by_id_update_rows i f st :
  keeps_id f ->
  get_by_id i {| jobs := update_rows (has_id i) f (jobs st); dlq := dlq st |} =
  f <$> get_by_id i st.
Proof.
  intros Hf. unfold get_by_id; simpl. rewrite find_update_rows by done.
  destruct (find (has_id i) (jobs st)) as [j|] eqn:E; simpl; [|done].
  apply find_has_id_Some in E as [_ E]. apply has_id_true in E. by rewrite E.
Qed.

Lemma get_by_id_update_rows_ne i i' f st :
  keeps_id f -> i <> i' ->
  get_by_id i' {| jobs := update_rows (has_id i) f (jobs st); dlq := dlq st |} =
  get_by_id i' st.
Proof.
  intros Hf Hne. unfold get_by_id; simpl. rewrite find_update_rows by done.
  destruct (find (has_id i') (jobs st)) as [j|] eqn:E; simpl; [|done].
  apply find_has_id_Some in E as [_ E].
  assert (has_id i j = false) as -> by (apply has_id_false; congruence). done.
Qed.

Lemma update_status_found now i s msg st j :
  get_by_id i st = Some j ->
  update_status now i s msg st =
  (Ok (set_status now s msg j),
   {| jobs := update_rows (has_id i) (set_status now s msg) (jobs st);
      dlq := dlq st |}).
Proof.
  intros H. unfold update_status.
  rewrite get_by_id_update_rows by auto with store. by rewrite H.
Qed.

Lemma update_status_missing now i s msg st :
  get_by_id i st = None ->
  update_status now i s msg st =
  (Raise (JobNotFoundError (not_found_msg i)), st).
Proof.
  intros H. unfold update_status.
  rewrite get_by_id_update_rows by auto with store. rewrite H. simpl.
  rewrite update_rows_none; [by destruct st|].
  intros j Hj. apply has_id_false.
  by apply (proj1 (find_has_id_None i (jobs st))).
Qed.

Lemma increment_retry_found i st j :
  get_by_id i st = Some j ->
  increment_retry i st =
  (Ok (bump j),
   {| jobs := update_rows (has_id i) bump (jobs st); dlq := dlq st |}).
Proof.
  intros H. unfold increment_retry.
  rewrite get_by_id_update_rows by auto with store. by rewrite H.
Qed.

Lemma update_rows_twice c f g l :
  (forall j, c (f j) = c j) -> (forall j, g (f j) = g j) ->
  update_rows c g (update_rows c f l) = update_rows c g l.
Proof.
  intros Hc Hg. unfold update_rows. rewrite map_map. apply map_ext.
  intros j. destruct (c j) eqn:E; [by rewrite Hc, E, Hg | by rewrite E].
Qed.

Lemma set_status_absorb now now' s msg j :
  set_status now' s msg (set_status now s msg j) = set_status now' s msg j.
Proof.
  unfold set_status; simpl. destruct (truthy msg), s; reflexivity.
Qed.

Lemma update_status_snd now i s msg st :
  (update_status now i s msg st).2 =
  {| jobs := update_rows (has_id i) (set_status now s msg) (jobs st);
     dlq := dlq st |}.
Proof. unfold update_status. by destruct (get_by_id _ _). Qed.

Lemma update_status_absorb now now' i s msg st :
  (update_status now' i s msg (update_status now i s msg st).2).2 =
  (update_status now' i s msg st).2.
Proof.
  rewrite !update_status_snd. cbn [jobs dlq]. f_equal.
  apply update_rows_twice; [done | apply set_status_absorb].
Qed.

(** C5 (amended).  [increment_retry] adds one to [retry_count], sets the
    status to PENDING and sets [lease_expires_at], [started_at] and
    [error_message] to NULL.  It does not touch [completed_at]: that
    column, [created_at] and every other column keep their values, and so
    does every other row of either table. *)
Theorem increment_retry_frame (i : UUID) (st : Store) (j : Job) :
  get_by_id i st = Some j ->
  exists j' st',
    increment_retry i st = (Ok j', st') /\
    retry_count j' = retry_count j + 1 /\
    status j' = PENDING /\
    lease_expires_at j' = None /\
    started_at j' = None /\
    error_message j' = None /\
    completed_at j' = completed_at j /\
    created_at j' = created_at j /\
    job_id j' = job_id j /\ tenant_id j' = tenant_id j /\
    payload j' = payload j /\ idempotency_key j' = idempotency_key j /\
    max_retries j' = max_retries j /\ trace_id j' = trace_id j /\
    get_by_id i st' = Some j' /\
    (forall i', i' <> i -> get_by_id i' st' = get_by_id i' st) /\
    length (jobs st') = length (jobs st) /\
    dlq st' = dlq st.
Proof.
  intros H. eexists _, _. split; [by apply increment_retry_found|].
  repeat (split; [reflexivity|]).
  split; [|split; [|split]].
  - rewrite get_by_id_update_rows by auto with store. by rewrite H.
  - intros i' Hne. apply get_by_id_update_rows_ne; auto with store.
  - cbn. unfold update_rows. by rewrite length_map.
  - done.
Qed.

(** C5, the claim as worded fails: the row of the failed job carries
    [completed_at = 250] before the bump and still does after it. *)
Lemma increment_retry_keeps_completed_at :
  completed_at <$> get_by_id "job-1" store_failed = Some (Some 250) /\
  exists j' st',
    increment_retry "job-1" store_failed = (Ok j', st') /\
    status j' = PENDING /\ retry_count j' = 1 /\
    completed_at j' = Some 250 /\ completed_at j' <> None.
Proof.
  split; [reflexivity|]. eexists _, _. split; [reflexivity|].
  repeat split; discriminate.
Qed.

Lemma increment_retry_frame_witness :
  get_by_id "job-1" store_failed = Some job1_failed /\
  exists j' st',
    increment_retry "job-1" store_failed = (Ok j', st') /\
    retry_count j' = retry_count job1_failed + 1 /\
    completed_at j' = completed_at job1_failed.
Proof.
  split; [reflexivity|].
  destruct (increment_retry_frame "job-1" store_failed job1_failed eq_refl)
    as (j' & st' & Heq & Hrc & _ & _ & _ & _ & Hc & _).
  exists j', st'. split; [exact Heq|]. split; [exact Hrc | exact Hc].
Defined.

Lemma pk_unique_store_pending : pk_unique store_pending.
Proof. unfold pk_unique. compute_done. Qed.

Lemma dequeue_and_lease_exclusive_witness :
  pk_unique (db world_pending) /\
  match dequeue_and_lease "worker-1" (at_instant 200 "dlq-1") 300
          world_pending with
  | (Ok (Some j), w') =>
      j = job1 /\ get_by_id "job-1" (db w') = Some job1_running
  | _ => False
  end.
Proof.
  split; [exact pk_unique_store_pending|].
  destruct (dequeue_and_lease_exclusive "worker-1" 200 "dlq-1" 300
              world_pending pk_unique_store_pending) as [H _].
  destruct (dequeue_and_lease "worker-1" (at_instant 200 "dlq-1") 300
              world_pending) as [[[j|]|e] w'] eqn:E; vm_compute in E.
  - injection E as <- <-. split; reflexivity.
  - discriminate E.
  - discriminate E.
Defined.

(** ** Acknowledgement *)

Lemma ack_snd now i success msg st :
  ack now i success msg st =
  {| jobs := update_rows (has_id i)
               (set_status now (if success then COMPLETED else FAILED)
                  (if success then None else msg)) (jobs st);
     dlq := dlq st |}.
Proof. unfold ack. destruct success; apply update_status_snd. Qed.

(** C7 (amended).  [ack] sets the status to COMPLETED on success and to
    FAILED on failure, and sets [completed_at] to the time of the call.  On
    failure it stores the given error message when that message is
    non-empty; an absent or empty message, like a success, leaves the
    stored [error_message] as it was.  All other columns and rows are kept.
    Repeating the call with the same outcome gives the state of a single
    call made at the time of the repetition: only [completed_at] moves. *)
Theorem ack_absorbs (now : datetime) (i : UUID) (success : bool)
    (msg : option string) (st : Store) (j : Job) :
  get_by_id i st = Some j ->
  (exists j',
     get_by_id i (ack now i success msg st) = Some j' /\
     status j' = (if success then COMPLETED else FAILED) /\
     completed_at j' = Some now /\
     error_message j' =
       (if success then error_message j
        else if truthy msg then msg else error_message j) /\
     job_id j' = job_id j /\ tenant_id j' = tenant_id j /\
     payload j' = payload j /\ idempotency_key j' = idempotency_key j /\
     max_retries j' = max_retries j /\ retry_count j' = retry_count j /\
     created_at j' = created_at j /\ started_at j' = started_at j /\
     lease_expires_at j' = lease_expires_at j /\ trace_id j' = trace_id j) /\
  (forall i', i' <> i ->
     get_by_id i' (ack now i success msg st) = get_by_id i' st) /\
  dlq (ack now i success msg st) = dlq st /\
  (forall now',
     ack now' i success msg (ack now i success msg st) =
     ack now' i success msg st) /\
  ack now i success msg (ack now i success msg st) = ack now i success msg st.
Proof.
  intros H.
  assert (forall now',
     ack now' i success msg (ack now i success msg st) =
     ack now' i success msg st) as Habs.
  { intros now'. rewrite !ack_snd. cbn [jobs dlq]. f_equal.
    apply update_rows_twice; [done | apply set_status_absorb]. }
  split; [|split; [|split; [|split]]]; [| | |exact Habs|apply Habs].
  - rewrite ack_snd, get_by_id_update_rows by auto with store. rewrite H.
    eexists. split; [reflexivity|]. destruct success; simpl; repeat split.
  - intros i' Hne. rewrite ack_snd.
    apply get_by_id_update_rows_ne; auto with store.
  - by rewrite ack_snd.
Qed.

Lemma ack_absorbs_witness :
  get_by_id "job-1" store_running = Some job1_running /\
  get_by_id "job-1" (ack 250 "job-1" false (Some "boom") store_running) =
    Some job1_failed /\
  ack 260 "job-1" false (Some "boom") store_failed =
  ack 260 "job-1" false (Some "boom") store_running.
Proof.
  split; [reflexivity|].
  destruct (ack_absorbs 250 "job-1" false (Some "boom") store_running
              job1_running eq_refl) as (_ & _ & _ & Habs & _).
  split; [reflexivity | exact (Habs 260)].
Defined.

(** C7, the claim as worded fails twice over.  A failure acknowledged with
    an empty message marks the job FAILED but stores no message; and a
    second acknowledgement made later than the first leaves a state that
    differs from the state after the first in [completed_at]. *)
Lemma ack_not_idempotent_in_time :
  (exists j',
     get_by_id "job-1" (ack 250 "job-1" false (Some "") store_running) =
       Some j' /\
     status j' = FAILED /\ error_message j' = None /\
     error_message j' <> Some "") /\
  ack 260 "job-1" false (Some "boom")
    (ack 250 "job-1" false (Some "boom") store_running) <>
  ack 250 "job-1" false (Some "boom") store_running /\
  completed_at <$> get_by_id "job-1"
    (ack 250 "job-1" false (Some "boom") store_running) = Some (Some 250) /\
  completed_at <$> get_by_id "job-1"
    (ack 260 "job-1" false (Some "boom")
       (ack 250 "job-1" false (Some "boom") store_running)) = Some (Some 260).
Proof.
  split; [|split; [|split]].
  - eexists. split; [reflexivity|]. repeat split. discriminate.
  - vm_compute. discriminate.
  - reflexivity.
  - reflexivity.
Qed.

(** ** Submission *)

Lemma truthy_Some k : truthy (Some k) = true <-> k <> "".
Proof.
  simpl. rewrite negb_true_iff. split.
  - intros H ->. done.
  - intros H. apply String.eqb_neq. done.
Qed.

Lemma create_fresh j st :
  get_by_id (job_id j) st = None ->
  create j st =
  (Ok (inserted_row j),
   {| jobs := jobs st ++ [inserted_row j]; dlq := dlq st |}).
Proof. intros H. unfold create. by rewrite H. Qed.

Lemma create_taken j st :
  get_by_id (job_id j) st <> None -> create j st = (Raise IntegrityError, st).
Proof. intros H. unfold create. by destruct (get_by_id _ _). Qed.

Lemma inserted_row_new_Job fid now tr tenant p key retries :
  inserted_row (new_Job fid now tr tenant p key retries) =
  new_Job fid now tr tenant p key retries.
Proof. reflexivity. Qed.

Lemma count_running_jobs_insert tenant st j :
  status j <> RUNNING ->
  count_running_jobs tenant {| jobs := jobs st ++ [j]; dlq := dlq st |} =
  count_running_jobs tenant st.
Proof.
  intros H. unfold count_running_jobs, count_by_status. cbn [jobs].
  rewrite filter_app, (filter_cons_False _ j) by done.
  rewrite filter_nil, app_nil_r. done.
Qed.

Lemma submit_job_cases fid now tr user p key retries st :
  submit_job fid now tr user p key retries st =
  if max_concurrent_jobs user <=? count_running_jobs (user_id user) st then
    (Raise (QuotaExceededError
              (quota_msg (count_running_jobs (user_id user) st)
                 (max_concurrent_jobs user))), st)
  else
    match (match key with
           | Some k => if truthy key
                       then get_by_idempotency_key (user_id user) k st
                       else Ok None
           | None => Ok None
           end) with
    | Raise e => (Raise e, st)
    | Ok (Some existing_job) => (Ok existing_job, st)
    | Ok None =>
        let job := new_Job fid now tr (user_id user) p key retries in
        match get_by_id fid st with
        | Some _ => (Raise IntegrityError, st)
        | None => (Ok job, {| jobs := jobs st ++ [job]; dlq := dlq st |})
        end
    end.
Proof.
  unfold submit_job, check_concurrent_jobs_limit, check_idempotency,
    enqueue, create.
  destruct (max_concurrent_jobs user <=? _); [done|].
  destruct key as [k|]; simpl.
  - destruct (negb (String.eqb k "")); simpl.
    + destruct (get_by_idempotency_key _ _ _) as [[?|]|]; try done.
      by destruct (get_by_id fid st).
    + by destruct (get_by_id fid st).
  - by destruct (get_by_id fid st).
Qed.

(** C2 (amended).  In [submit_job] the quota check comes first and the
    idempotency lookup second.  A submission under a non-empty key for
    which the tenant already has a job gets that job back, whatever its
    status, with the store untouched, provided the tenant runs fewer jobs
    than [max_concurrent_jobs]; otherwise it fails with the quota error.
    A second submission under the key of a first one that succeeded returns
    the same job, inserts nothing and drops its own payload. *)
Theorem submit_job_idempotent_after_quota (user : User) (k : string) :
  k <> "" ->
  (forall st j fid now tr p retries,
     get_by_idempotency_key (user_id user) k st = Ok (Some j) ->
     submit_job fid now tr user p (Some k) retries st =
     if max_concurrent_jobs user <=? count_running_jobs (user_id user) st
     then (Raise (QuotaExceededError
                    (quota_msg (count_running_jobs (user_id user) st)
                       (max_concurrent_jobs user))), st)
     else (Ok j, st)) /\
  (forall st0 j st1 fid now tr p retries fid2 now2 tr2 p2 retries2,
     submit_job fid now tr user p (Some k) retries st0 = (Ok j, st1) ->
     submit_job fid2 now2 tr2 user p2 (Some k) retries2 st1 = (Ok j, st1)).
Proof.
  intros Hk. pose proof (proj2 (truthy_Some k) Hk) as Ht. split.
  - intros st j fid now tr p retries Hex. rewrite submit_job_cases.
    destruct (max_concurrent_jobs user <=? _); [done|].
    by rewrite Ht, Hex.
  - intros st0 j st1 fid now tr p retries fid2 now2 tr2 p2 retries2.
    rewrite !submit_job_cases.
    destruct (max_concurrent_jobs user <=? count_running_jobs _ st0) eqn:Hq;
      [discriminate|].
    rewrite Ht.
    destruct (get_by_idempotency_key (user_id user) k st0) as [[ex|]|] eqn:Hex;
      [| |discriminate].
    + intros [= <- <-]. by rewrite Hq, Hex.
    + cbn zeta. destruct (get_by_id fid st0); [discriminate|].
      intros [= <- <-].
      rewrite count_running_jobs_insert by done. rewrite Hq.
      unfold get_by_idempotency_key in *. cbn [jobs].
      rewrite filter_app.
      destruct (filter _ (jobs st0)) as [|? [|? ?]]; [|discriminate..].
      rewrite filter_cons_True, filter_nil; [done|].
      unfold idem_match; simpl. by rewrite !bool_decide_eq_true_2.
Qed.

Lemma submit_job_idempotent_after_quota_witness :
  "k1" <> "" /\
  submit_job "job-2" 300 "trace-2" tenant1 other_payload (Some "k1") 3
    store_pending = (Ok job1, store_pending).
Proof.
  split; [discriminate|].
  destruct (submit_job_idempotent_after_quota tenant1 "k1") as [H _];
    [discriminate|].
  exact (H store_pending job1 "job-2" 300 "trace-2" other_payload 3 eq_refl).
Defined.

(** C2, the claim as worded fails: tenant [t1] may run one job and runs
    one, the one submitted under [k1]; a retried submission under [k1] is
    turned away by the quota check before the key is looked at. *)
Lemma submit_job_quota_before_idempotency :
  get_by_idempotency_key "t1" "k1" store_running = Ok (Some job1_running) /\
  count_running_jobs "t1" store_running = 1 /\
  max_concurrent_jobs tenant1 = 1 /\
  submit_job "job-2" 300 "trace-2" tenant1 other_payload (Some "k1") 3
    store_running =
  (Raise (QuotaExceededError
            "Concurrent jobs limit exceeded. Current: 1, Limit: 1"),
   store_running).
Proof. repeat split; vm_compute; reflexivity. Qed.

Lemma idem_unique_insert st j :
  idem_unique st ->
  (forall key, key <> "" -> idempotency_key j = Some key ->
     filter (fun x => idem_match (tenant_id j) key x = true) (jobs st) = []) ->
  idem_unique {| jobs := jobs st ++ [j]; dlq := dlq st |}.
Proof.
  intros Hu Hnew tenant key Hkey. cbn [jobs]. rewrite filter_app, length_app.
  destruct (idem_match tenant key j) eqn:E.
  - rewrite filter_cons_True, filter_nil by done.
    apply andb_true_iff in E as [Ht Hk].
    apply bool_decide_eq_true in Ht, Hk. subst tenant.
    rewrite (Hnew key Hkey Hk). simpl. lia.
  - rewrite filter_cons_False, filter_nil by (by rewrite E).
    specialize (Hu tenant key Hkey). simpl. lia.
Qed.

(** C3 (amended).  [create] writes the job with the status it carries and
    with no lease, start, completion or error; the only insert it refuses
    is one whose [id] is taken.  It never looks at
    [(tenant_id, idempotency_key)]: the table has no unique constraint on
    that pair.  Uniqueness of non-empty keys within a tenant is kept by
    [submit_job], which looks the key up before it inserts, and every row
    [submit_job] inserts is PENDING. *)
Theorem create_has_no_unique_constraint :
  (forall j st,
     get_by_id (job_id j) st = None ->
     exists row,
       create j st = (Ok row, {| jobs := jobs st ++ [row]; dlq := dlq st |}) /\
       status row = status j /\ job_id row = job_id j /\
       tenant_id row = tenant_id j /\
       idempotency_key row = idempotency_key j /\ payload row = payload j /\
       max_retries row = max_retries j /\ retry_count row = retry_count j /\
       created_at row = created_at j /\ trace_id row = trace_id j /\
       started_at row = None /\ completed_at row = None /\
       error_message row = None /\ lease_expires_at row = None) /\
  (forall j st,
     get_by_id (job_id j) st <> None ->
     create j st = (Raise IntegrityError, st)) /\
  (forall fid now tr user p key retries st r st',
     submit_job fid now tr user p key retries st = (r, st') ->
     (st' = st \/
      exists j, r = Ok j /\ status j = PENDING /\
                st' = {| jobs := jobs st ++ [j]; dlq := dlq st |}) /\
     (idem_unique st -> idem_unique st')).
Proof.
  split; [|split].
  - intros j st H. exists (inserted_row j).
    split; [by apply create_fresh|]. repeat split.
  - apply create_taken.
  - intros fid now tr user p key retries st r st'.
    rewrite submit_job_cases.
    destruct (max_concurrent_jobs user <=? _); [intros [= <- <-]; auto|].
    destruct (match key with Some _ => _ | None => _ end)
      as [[ex|]|e] eqn:Hlook; [intros [= <- <-]; auto | |intros [= <- <-]; auto].
    cbn zeta. destruct (get_by_id fid st); [intros [= <- <-]; auto|].
    intros [= <- <-]. split; [right; eauto|].
    intros Hu. apply idem_unique_insert; [done|].
    cbn [new_Job tenant_id idempotency_key]. intros key' Hkey' ->.
    rewrite (proj2 (truthy_Some key') Hkey') in Hlook.
    unfold get_by_idempotency_key in Hlook.
    by destruct (filter _ (jobs st)) as [|? [|? ?]].
Qed.

Lemma create_has_no_unique_constraint_witness :
  get_by_id (job_id job2) store_pending = None /\
  exists row,
    create job2 store_pending =
      (Ok row, {| jobs := jobs store_pending ++ [row];
                  dlq := dlq store_pending |}) /\
    idempotency_key row = Some "k1".
Proof.
  split; [reflexivity|].
  destruct create_has_no_unique_constraint as [H _].
  destruct (H job2 store_pending eq_refl) as (row & Hc & _ & _ & _ & Hk & _).
  exists row. split; [exact Hc | exact Hk].
Defined.

(** C3, the claim as worded fails: tenant [t1] already has a job under key
    [k1]; inserting a second job under the same tenant and key succeeds,
    after which the table holds two rows for the pair and the lookup by
    key finds more than one. *)
Lemma create_accepts_duplicate_key :
  tenant_id job2 = tenant_id job1 /\
  idempotency_key job2 = idempotency_key job1 /\
  idempotency_key job2 = Some "k1" /\
  get_by_idempotency_key "t1" "k1" store_pending = Ok (Some job1) /\
  (create job2 store_pending).1 = Ok job2 /\
  jobs (create job2 store_pending).2 = [job1; job2] /\
  get_by_idempotency_key "t1" "k1" (create job2 store_pending).2 =
    Raise MultipleResultsFound /\
  ~ idem_unique (create job2 store_pending).2.
Proof.
  repeat split; try reflexivity.
  intros H. specialize (H "t1" "k1"). vm_compute in H.
  assert ("k1" <> "") as Hk by discriminate.
  specialize (H Hk). lia.
Qed.

(** ** The worker's failure branch *)

Lemma increment_retry_snd i st :
  (increment_retry i st).2 =
  {| jobs := update_rows (has_id i) bump (jobs st); dlq := dlq st |}.
Proof. unfold increment_retry. by destruct (get_by_id _ _). Qed.

Lemma move_to_dlq_found fid t_arch t_upd j msg st :
  get_by_id (job_id j) st = Some j ->
  move_to_dlq fid t_arch t_upd j msg st =
  (Ok tt,
   {| jobs := update_rows (has_id (job_id j))
                (set_status t_upd DLQ (Some msg)) (jobs st);
      dlq := dlq st ++
        [{| dlq_id := fid; original_job_id := job_id j;
            dlq_tenant_id := tenant_id j; dlq_payload := payload j;
            dlq_error_message := Some msg; dlq_retry_count := retry_count j;
            failed_at := t_arch; dlq_trace_id := trace_id j |}] |}).
Proof.
  intros H. unfold move_to_dlq.
  by rewrite (update_status_found _ _ _ _ _ j).
Qed.

Lemma move_to_dlq_snd fid t_arch t_upd j msg st :
  (move_to_dlq fid t_arch t_upd j msg st).2 =
  {| jobs := update_rows (has_id (job_id j))
               (set_status t_upd DLQ (Some msg)) (jobs st);
     dlq := dlq st ++
       [{| dlq_id := fid; original_job_id := job_id j;
           dlq_tenant_id := tenant_id j; dlq_payload := payload j;
           dlq_error_message := Some msg; dlq_retry_count := retry_count j;
           failed_at := t_arch; dlq_trace_id := trace_id j |}] |}.
Proof.
  unfold move_to_dlq, update_status. cbn [jobs dlq].
  by destruct (get_by_id _ _).
Qed.

(** What the [except] block does to a job that is in the table: the job is
    marked FAILED, then either bumped back to PENDING or archived and
    marked DLQ, and two publish calls are made. *)
Lemma on_exception_found wid d job e w j0 :
  get_by_id (job_id job) (db w) = Some j0 ->
  let msg := str_exn e in
  let failed := set_status (t_failed d) FAILED (Some msg) j0 in
  let st1 := {| jobs := update_rows (has_id (job_id job))
                          (set_status (t_failed d) FAILED (Some msg))
                          (jobs (db w));
                dlq := dlq (db w) |} in
  on_exception wid d job e w =
  if retry_count j0 <? max_retries j0 then
    (Ok tt,
     {| db := {| jobs := update_rows (has_id (job_id job)) bump (jobs st1);
                 dlq := dlq (db w) |};
        published := published w ++
          [(JobEvent_value EV_RETRY, retry_data failed)] ++
          [(JobEvent_value EV_FAILED, failed_data wid (Some failed) msg)] |})
  else
    (Ok tt,
     {| db := {| jobs := update_rows (has_id (job_id job))
                           (set_status (t_dlq d) DLQ (Some msg)) (jobs st1);
                 dlq := dlq (db w) ++
                   [{| dlq_id := dlq_uuid d; original_job_id := job_id job;
                       dlq_tenant_id := tenant_id j0; dlq_payload := payload j0;
                       dlq_error_message := Some msg;
                       dlq_retry_count := retry_count j0;
                       failed_at := t_archive d;
                       dlq_trace_id := trace_id j0 |}] |};
        published := published w ++
          [(JobEvent_value EV_DLQ, dlq_data failed msg)] ++
          [(JobEvent_value EV_FAILED, failed_data wid (Some failed) msg)] |}).
Proof.
  intros H msg failed st1.
  assert (job_id j0 = job_id job) as Hid.
  { unfold get_by_id in H. by apply find_has_id_Some in H as [_ ?]. }
  assert (get_by_id (job_id job) st1 = Some failed) as H1.
  { unfold st1. rewrite get_by_id_update_rows by auto with store.
    by rewrite H. }
  unfold on_exception, mbind, ST_bind, on_db, read_db, event_bus_publish,
    mret, ST_ret.
  rewrite (update_status_found _ _ _ _ _ j0 H). fold msg st1. cbn [db].
  rewrite H1. unfold can_retry. cbn [failed set_status retry_count max_retries].
  destruct (retry_count j0 <? max_retries j0).
  - cbn [job_id failed set_status db published]. rewrite Hid.
    rewrite (increment_retry_found _ _ failed H1). cbn [db published].
    by rewrite <- app_assoc.
  - assert (job_id failed = job_id job) as Hf by exact Hid.
    cbn [db published].
    rewrite (move_to_dlq_found _ _ _ failed) by (by rewrite Hf).
    cbn [db published]. rewrite Hf. by rewrite <- app_assoc.
Qed.

(** ** Invariants of the transitions *)

Lemma pk_unique_update_rows c f st :
  keeps_id f -> pk_unique st ->
  pk_unique {| jobs := update_rows c f (jobs st); dlq := dlq st |}.
Proof. unfold pk_unique. intros Hf H. cbn [jobs]. by rewrite update_rows_ids. Qed.

Lemma pk_unique_insert j st d' :
  get_by_id (job_id j) st = None -> pk_unique st ->
  pk_unique {| jobs := jobs st ++ [j]; dlq := d' |}.
Proof.
  unfold pk_unique. intros Hfresh H. cbn [jobs].
  rewrite map_app. apply NoDup_app. split; [done|]. split.
  - intros i Hi Hin. apply list_elem_of_singleton in Hin. subst i.
    apply list_elem_of_fmap in Hi as (k & Hk & Hkin).
    unfold get_by_id in Hfresh.
    pose proof (proj1 (find_has_id_None _ _) Hfresh k Hkin). congruence.
  - apply NoDup_singleton.
Qed.

Lemma retries_bounded_update_rows c f st :
  (forall k, k ∈ jobs st -> c k = true ->
             retry_count k <= max_retries k ->
             retry_count (f k) <= max_retries (f k)) ->
  retries_bounded st ->
  retries_bounded {| jobs := update_rows c f (jobs st); dlq := dlq st |}.
Proof.
  intros Hf H j' Hj'. cbn [jobs] in Hj'. unfold update_rows in Hj'.
  apply list_elem_of_fmap in Hj' as (k & -> & Hk).
  destruct (c k) eqn:E; [apply Hf|]; auto.
Qed.

Lemma retries_bounded_keeps c f st :
  keeps_retries f -> retries_bounded st ->
  retries_bounded {| jobs := update_rows c f (jobs st); dlq := dlq st |}.
Proof.
  intros Hf. apply retries_bounded_update_rows. intros k _ _ Hk.
  destruct (Hf k) as [-> ->]. done.
Qed.

Lemma keeps_retries_set_status now s msg : keeps_retries (set_status now s msg).
Proof. by intros j. Qed.

Lemma keeps_retries_set_lease e s : keeps_retries (set_lease e s).
Proof. by intros j. Qed.

Lemma retry_mono_keeps f : keeps_retries f -> retry_mono f.
Proof. intros Hf j. destruct (Hf j) as [-> _]. done. Qed.

Lemma retry_mono_bump : retry_mono bump.
Proof. intros j. simpl. lia. Qed.

#[local] Hint Resolve keeps_retries_set_status keeps_retries_set_lease
  retry_mono_bump retry_mono_keeps : store.

Lemma acquire_lease_snd e c s (i : UUID) (ttl : Z) (st : Store) :
  (acquire_lease e c s i ttl st).2 =
  {| jobs := update_rows (fun j => has_id i j && leasable c j)
               (set_lease (e + timedelta_seconds ttl) s) (jobs st);
     dlq := dlq st |}.
Proof. reflexivity. Qed.

Lemma submit_job_store fid now tr user p key retries st r st' :
  submit_job fid now tr user p key retries st = (r, st') ->
  st' = st \/
  (get_by_id fid st = None /\
   st' = {| jobs := jobs st ++
              [new_Job fid now tr (user_id user) p key retries];
            dlq := dlq st |}).
Proof.
  rewrite submit_job_cases.
  destruct (max_concurrent_jobs user <=? _); [intros [= <- <-]; auto|].
  destruct (match key with Some _ => _ | None => _ end) as [[ex|]|e];
    [intros [= <- <-]; auto | |intros [= <- <-]; auto].
  cbn zeta. destruct (get_by_id fid st) eqn:E; intros [= <- <-]; auto.
Qed.

Lemma step_invariant st st' :
  step st st' ->
  pk_unique st /\ retries_bounded st ->
  pk_unique st' /\ retries_bounded st'.
Proof.
  intros Hstep [Hpk Hb]. destruct Hstep as
    [fid now tr user p key retries st r st' Hr Hs
    |e c s i ttl st
    |now i success msg st
    |i j st Hj Hc
    |fid t1 t2 j msg st Hj Hc].
  - apply submit_job_store in Hs as [->|[Hfresh ->]]; [done|].
    split; [by apply pk_unique_insert|].
    intros k Hk. cbn [jobs] in Hk. apply elem_of_app in Hk as [Hk|Hk];
      [by apply Hb|].
    apply list_elem_of_singleton in Hk. subst k. simpl. lia.
  - rewrite acquire_lease_snd. split;
      [apply pk_unique_update_rows | apply retries_bounded_keeps];
      auto with store.
  - rewrite ack_snd. split;
      [apply pk_unique_update_rows | apply retries_bounded_keeps];
      auto with store.
  - rewrite increment_retry_snd. split;
      [apply pk_unique_update_rows; auto with store|].
    apply retries_bounded_update_rows; [|done].
    intros k Hk Hid _. apply has_id_true in Hid.
    unfold get_by_id in Hj. apply find_has_id_Some in Hj as [Hjin Hjid].
    assert (k = j) as ->
      by (apply (same_key_same_row (jobs st));
          [exact Hpk | exact Hk | exact Hjin | congruence]).
    unfold can_retry in Hc. apply Z.ltb_lt in Hc. simpl. lia.
  - rewrite move_to_dlq_snd. split.
    + unfold pk_unique in *. cbn [jobs]. by rewrite update_rows_ids.
    + intros k Hk. cbn [jobs] in Hk.
      apply (retries_bounded_keeps (has_id (job_id j))
               (set_status t2 DLQ (Some msg)) st); auto with store.
Qed.

Lemma find_app_Some (i : UUID) (l l' : list Job) j :
  find (has_id i) l = Some j -> find (has_id i) (l ++ l') = Some j.
Proof.
  induction l as [|k l IH]; simpl; [discriminate|].
  destruct (has_id i k); [done | apply IH].
Qed.

Lemma get_by_id_mono_update c f i st j :
  keeps_id f -> retry_mono f ->
  get_by_id i st = Some j ->
  exists j', get_by_id i {| jobs := update_rows c f (jobs st); dlq := dlq st |}
             = Some j' /\ retry_count j <= retry_count j'.
Proof.
  intros Hid Hm H. unfold get_by_id in *. cbn [jobs].
  rewrite find_update_rows, H by done. simpl.
  eexists. split; [reflexivity|]. destruct (c j); [apply Hm | lia].
Qed.

Lemma step_retry_monotone st st' i j :
  step st st' ->
  get_by_id i st = Some j ->
  exists j', get_by_id i st' = Some j' /\ retry_count j <= retry_count j'.
Proof.
  intros Hstep H. destruct Hstep as
    [fid now tr user p key retries st r st' Hr Hs
    |e c s i0 ttl st
    |now i0 success msg st
    |i0 j0 st Hj Hc
    |fid t1 t2 j0 msg st Hj Hc].
  - apply submit_job_store in Hs as [->|[Hfresh ->]]; [eauto with lia|].
    exists j. split; [|lia]. unfold get_by_id in *. cbn [jobs].
    by apply find_app_Some.
  - rewrite acquire_lease_snd. apply get_by_id_mono_update; auto with store.
  - rewrite ack_snd. apply get_by_id_mono_update; auto with store.
  - rewrite increment_retry_snd. apply get_by_id_mono_update; auto with store.
  - rewrite move_to_dlq_snd.
    destruct (get_by_id_mono_update (has_id (job_id j0))
                (set_status t2 DLQ (Some msg)) i st j) as (j' & Hj' & Hle);
      auto with store.
    exists j'. split; [exact Hj' | done].
Qed.

Lemma reachable_invariant st :
  reachable st -> pk_unique st /\ retries_bounded st.
Proof.
  unfold reachable. revert st.
  apply (rtc_ind_r (R:=step)
           (fun st => pk_unique st /\ retries_bounded st) empty_store).
  - split; [apply NoDup_nil_2 | intros j Hj; inversion Hj].
  - intros y z _ Hs IH. by apply (step_invariant y z).
Qed.

Lemma rtc_step_retry_monotone st st' :
  rtc step st st' ->
  forall i j, get_by_id i st = Some j ->
  exists j', get_by_id i st' = Some j' /\ retry_count j <= retry_count j'.
Proof.
  induction 1 as [st|st st1 st2 Hs _ IH]; intros i j Hj.
  - exists j. split; [done | lia].
  - destruct (step_retry_monotone _ _ _ _ Hs Hj) as (j1 & Hj1 & Hle1).
    destruct (IH _ _ Hj1) as (j2 & Hj2 & Hle2).
    exists j2. split; [done | lia].
Qed.

(** C6.  In every state the system reaches from the empty store by
    submissions, lease acquisitions, acknowledgements, retry bumps and
    moves to the DLQ, every job has [retry_count <= max_retries]; and from
    such a state onwards every job stays in the table and its
    [retry_count] never goes down. *)
Theorem retry_count_bounded_and_monotone (st : Store) :
  reachable st ->
  (forall j, j ∈ jobs st -> retry_count j <= max_retries j) /\
  (forall st', rtc step st st' ->
     forall i j, get_by_id i st = Some j ->
       exists j', get_by_id i st' = Some j' /\
                  retry_count j <= retry_count j').
Proof.
  intros H. split.
  - by apply reachable_invariant.
  - apply rtc_step_retry_monotone.
Qed.

(** ** The worker moves along the transitions *)

Lemma on_exception_missing wid d job e w :
  get_by_id (job_id job) (db w) = None ->
  on_exception wid d job e w =
  (Raise (JobNotFoundError (not_found_msg (job_id job))), w).
Proof.
  intros H. unfold on_exception, mbind, ST_bind, on_db.
  rewrite (update_status_missing _ _ _ _ _ H). by destruct w.
Qed.

Lemma on_exception_path wid d job e w :
  rtc step (db w) (db (on_exception wid d job e w).2).
Proof.
  destruct (get_by_id (job_id job) (db w)) as [j0|] eqn:H.
  - pose proof (on_exception_found wid d job e w j0 H) as Heq.
    cbv zeta in Heq. rewrite Heq. clear Heq.
    set (msg := str_exn e).
    set (failed := set_status (t_failed d) FAILED (Some msg) j0).
    assert (job_id j0 = job_id job) as Hid.
    { unfold get_by_id in H. by apply find_has_id_Some in H as [_ ?]. }
    pose proof (step_acknowledge (t_failed d) (job_id job) false (Some msg)
                  (db w)) as Hack.
    rewrite ack_snd in Hack.
    set (st1 := {| jobs := update_rows (has_id (job_id job))
                             (set_status (t_failed d) FAILED (Some msg))
                             (jobs (db w));
                   dlq := dlq (db w) |}) in *.
    assert (get_by_id (job_id job) st1 = Some failed) as H1.
    { unfold st1. rewrite get_by_id_update_rows by auto with store.
      by rewrite H. }
    eapply rtc_l; [exact Hack|]. apply rtc_once.
    destruct (retry_count j0 <? max_retries j0) eqn:Hc; cbn [snd db].
    + pose proof (step_retry_bump (job_id job) failed st1 H1 Hc) as Hs.
      by rewrite increment_retry_snd in Hs.
    + assert (job_id failed = job_id job) as Hf by exact Hid.
      pose proof (step_move_to_dlq (dlq_uuid d) (t_archive d) (t_dlq d)
                    failed msg st1) as Hs.
      rewrite Hf in Hs. specialize (Hs H1 Hc).
      by rewrite move_to_dlq_snd, Hf in Hs.
  - rewrite on_exception_missing by done. apply rtc_refl.
Qed.

Lemma process_job_path wid processor d job w :
  rtc step (db w) (db (process_job wid processor d job w).2).
Proof.
  unfold process_job, try_except, mbind, ST_bind, event_bus_publish, call,
    on_db.
  destruct (processor (payload job)) as [result|e]; cbn [db published].
  - pose proof (step_acknowledge (t_completed d) (job_id job) true None (db w))
      as Hack.
    unfold ack in Hack.
    destruct (update_status (t_completed d) (job_id job) COMPLETED None (db w))
      as [[j|e] st1]; cbn [snd] in Hack; cbn [snd db].
    + by apply rtc_once.
    + eapply rtc_l; [exact Hack|].
      apply (on_exception_path wid d job e
               {| db := st1;
                  published := published w ++
                    [(JobEvent_value EV_STARTED, started_data wid job)] |}).
  - apply (on_exception_path wid d job e
             {| db := db w;
                published := published w ++
                  [(JobEvent_value EV_STARTED, started_data wid job)] |}).
Qed.

Lemma run_once_path wid processor d ttl w :
  rtc step (db w) (db (run_once wid processor d ttl w).2).
Proof.
  unfold run_once, try_except, mbind, ST_bind.
  rewrite dequeue_and_lease_unfold.
  destruct (dequeue (t_select d) wid (db w)) as [j|]; [|apply rtc_refl].
  cbv zeta.
  pose proof (step_lease (t_expiry d) (t_check d) (t_start d) (job_id j) ttl
                (db w)) as Hl.
  destruct (acquire_lease (t_expiry d) (t_check d) (t_start d) (job_id j) ttl
              (db w)) as [[] st1]; cbn [fst snd] in *.
  - pose proof (process_job_path wid processor d j
                  {| db := st1; published := published w |}) as Hp.
    cbn [db] in Hp.
    destruct (process_job wid processor d j _) as [[[]|e] w2];
      cbn [snd mret ST_ret] in *; by eapply rtc_l.
  - by apply rtc_once.
Qed.

Lemma reachable_store_failed : reachable store_failed.
Proof.
  unfold reachable.
  eapply rtc_l.
  { apply (step_submit "job-1" 100 "trace-1" tenant1 noop_payload (Some "k1") 3
             empty_store (Ok job1) store_pending); [lia | reflexivity]. }
  eapply rtc_l.
  { apply (step_lease 200 200 200 "job-1" 300 store_pending). }
  apply rtc_once.
  apply (step_acknowledge 250 "job-1" false (Some "boom") store_running).
Qed.

Lemma retry_count_bounded_and_monotone_witness :
  reachable store_failed /\
  (forall j, j ∈ jobs store_failed -> retry_count j <= max_retries j).
Proof.
  split; [exact reachable_store_failed|].
  exact (proj1 (retry_count_bounded_and_monotone store_failed
                  reachable_store_failed)).
Defined.

(** ** Topics of the worker's publish calls *)

Lemma on_exception_topics wid d job e w :
  exists calls,
    published (on_exception wid d job e w).2 = published w ++ calls /\
    Forall (fun call => call.1 ∈ worker_topics) calls.
Proof.
  destruct (get_by_id (job_id job) (db w)) as [j0|] eqn:H.
  - pose proof (on_exception_found wid d job e w j0 H) as Heq.
    cbv zeta in Heq. rewrite Heq. clear Heq.
    destruct (retry_count j0 <? max_retries j0); cbn [snd published];
      eexists; (split; [reflexivity|]);
      repeat constructor; cbn; set_solver.
  - rewrite on_exception_missing by done. exists [].
    split; [by rewrite app_nil_r | constructor].
Qed.

Lemma process_job_topics wid processor d job w :
  exists calls,
    published (process_job wid processor d job w).2 = published w ++ calls /\
    Forall (fun call => call.1 ∈ worker_topics) calls.
Proof.
  assert ((JobEvent_value EV_STARTED, started_data wid job).1 ∈ worker_topics)
    as Hstarted by (cbn; set_solver).
  unfold process_job, try_except, mbind, ST_bind, event_bus_publish, call,
    on_db.
  destruct (processor (payload job)) as [result|e]; cbn [db published].
  - destruct (update_status (t_completed d) (job_id job) COMPLETED None (db w))
      as [[j|e] st1]; cbn [snd db published].
    + eexists. rewrite <- app_assoc. split; [reflexivity|].
      repeat constructor; cbn; set_solver.
    + destruct (on_exception_topics wid d job e
               {| db := st1;
                  published := published w ++
                    [(JobEvent_value EV_STARTED, started_data wid job)] |})
        as (calls & -> & Hall).
      cbn [published]. rewrite <- app_assoc. eexists.
      split; [reflexivity|]. by constructor.
  - destruct (on_exception_topics wid d job e
             {| db := db w;
                published := published w ++
                  [(JobEvent_value EV_STARTED, started_data wid job)] |})
      as (calls & -> & Hall).
    cbn [published]. rewrite <- app_assoc. eexists.
    split; [reflexivity|]. by constructor.
Qed.

(** C4, the code at a failing input.  A job with [max_retries = 0] whose
    processor raises is leased, marked FAILED, archived with its payload,
    error message, retry count and trace id, and left in status DLQ after
    the one attempt; a job with retries left goes back to PENDING with
    [retry_count + 1].  The publish calls made on the way carry the topics
    [started], [dlq] or [retry], and [failed]: for no job does the worker
    publish under [job_retry], [job_dlq] or [job_failed], the topics the
    subscribers of the bus listen on, so nothing of a worker's events is
    broadcast. *)
Theorem process_job_topics_miss_subscribers :
  let r0 := run_once "worker-1" boom (at_instant 200 "dlq-1") 300 world_job0 in
  let r1 := run_once "worker-1" boom (at_instant 200 "dlq-1") 300 world_pending in
  (r0.1 = Ok true /\
   status <$> get_by_id "job-0" (db r0.2) = Some DLQ /\
   error_message <$> get_by_id "job-0" (db r0.2) = Some (Some "boom") /\
   dlq (db r0.2) =
     [{| dlq_id := "dlq-1"; original_job_id := "job-0"; dlq_tenant_id := "t1";
         dlq_payload := failing_payload; dlq_error_message := Some "boom";
         dlq_retry_count := 0; failed_at := 200;
         dlq_trace_id := "trace-0" |}] /\
   map fst (published r0.2) = ["started"; "dlq"; "failed"] /\
   world (deliver (published r0.2) websocket_bus) = []) /\
  (r1.1 = Ok true /\
   status <$> get_by_id "job-1" (db r1.2) = Some PENDING /\
   retry_count <$> get_by_id "job-1" (db r1.2) = Some 1 /\
   map fst (published r1.2) = ["started"; "retry"; "failed"] /\
   world (deliver (published r1.2) websocket_bus) = []) /\
  (forall wid processor d job w,
     exists calls,
       published (process_job wid processor d job w).2 = published w ++ calls /\
       Forall (fun call =>
                 call.1 <> "job_retry" /\ call.1 <> "job_dlq" /\
                 call.1 <> "job_failed" /\ call.1 ∉ websocket_topics) calls) /\
  world (deliver [("job_submitted", [("job_id", JStr "job-0")])] websocket_bus)
    = [[("job_id", JStr "job-0")]].
Proof.
  split; [|split; [|split]].
  - vm_compute. repeat split.
  - vm_compute. repeat split.
  - intros wid processor d job w.
    destruct (process_job_topics wid processor d job w) as (calls & Heq & Hall).
    exists calls. split; [exact Heq|].
    eapply Forall_impl; [exact Hall|]. intros [t data]. cbn.
    unfold worker_topics. cbn. rewrite !elem_of_cons, elem_of_nil.
    intros [->|[->|[->|[->|[->|[]]]]]]; repeat split;
      try discriminate; compute_done.
  - vm_compute. reflexivity.
Qed.

(** ** Event bus *)

Lemma for_each_handlers {W} (event_type : string) (data : EventData)
    (hs : list (Handler W)) (b : Bus W) :
  let r := for_each hs
             (fun handler =>
                try_except (call_handler handler data)
                  (fun e => print (handler_error_line event_type e))) b in
  r.1 = Ok tt /\
  world r.2 = foldl (invoke data) (world b) hs /\
  _subscribers r.2 = _subscribers b /\
  exists lines, stdout r.2 = stdout b ++ lines.
Proof.
  revert b. induction hs as [|h hs IH]; intros b; cbn zeta.
  - cbn. repeat split. exists []. by rewrite app_nil_r.
  - cbn [for_each]. unfold mbind, ST_bind.
    assert (exists b1,
      try_except (call_handler h data)
        (fun e => print (handler_error_line event_type e)) b = (Ok tt, b1) /\
      world b1 = invoke data (world b) h /\
      _subscribers b1 = _subscribers b /\
      exists lines, stdout b1 = stdout b ++ lines) as (b1 & -> & Hw & Hs & l1 & Ho).
    { unfold try_except, call_handler, invoke, print.
      destruct (kind h).
      - destruct (body h data (world b)) as [[|e] w']; cbn;
          eexists; (split; [reflexivity|]); repeat split;
          first [ by exists []; cbn; rewrite app_nil_r | by eexists ].
      - destruct (body h data (world b)) as [[|e] w']; cbn;
          eexists; (split; [reflexivity|]); repeat split;
          first [ by exists []; cbn; rewrite app_nil_r | by eexists ].
      - exists b. repeat split. exists []. by rewrite app_nil_r. }
    destruct (IH b1) as (Hr & Hw' & Hs' & l2 & Ho'). cbn zeta in *.
    split; [exact Hr|]. split; [|split].
    + cbn [foldl]. by rewrite Hw', Hw.
    + by rewrite Hs', Hs.
    + exists (l1 ++ l2). by rewrite Ho', Ho, app_assoc.
Qed.

(** C9.  [publish] runs every subscriber of the topic once, in the order
    of subscription, each on the world its predecessors left, the
    coroutine functions among them awaited; it does so whether or not any
    of them raises, and it returns normally to its caller.  A raising
    subscriber only adds a line to the output. *)
Theorem publish_reaches_every_subscriber {W} (event_type : string)
    (data : EventData) (b : Bus W) :
  let hs := default [] (_subscribers b !! event_type) in
  let r := publish event_type data b in
  r.1 = Ok tt /\
  world r.2 = foldl (invoke data) (world b) hs /\
  (forall before h after, hs = before ++ h :: after ->
     world r.2 =
     foldl (invoke data) (invoke data (foldl (invoke data) (world b) before) h)
       after) /\
  _subscribers r.2 !! event_type = Some hs /\
  (forall topic, topic <> event_type ->
     _subscribers r.2 !! topic = _subscribers b !! topic) /\
  exists lines, stdout r.2 = stdout b ++ lines.
Proof.
  cbn zeta. unfold publish, subscribers_of.
  destruct (_subscribers b !! event_type) as [hs|] eqn:Hlook; cbn [default].
  - destruct (for_each_handlers event_type data hs
                {| _subscribers := _subscribers b; world := world b;
                   stdout := stdout b |}) as (Hr & Hw & Hs & Ho).
    cbn [world _subscribers stdout] in *.
    split; [exact Hr|]. split; [exact Hw|]. split; [|split; [|split]].
    + intros before h after Heq. unfold id in Heq. subst hs.
      by rewrite Hw, foldl_app.
    + by rewrite Hs.
    + intros topic _. by rewrite Hs.
    + exact Ho.
  - destruct (for_each_handlers event_type data []
                {| _subscribers := <[event_type := []]> (_subscribers b);
                   world := world b; stdout := stdout b |})
      as (Hr & Hw & Hs & Ho).
    cbn [world _subscribers stdout] in *.
    split; [exact Hr|]. split; [exact Hw|]. split; [|split; [|split]].
    + intros before h after Heq. by destruct before.
    + rewrite Hs. apply lookup_insert_eq.
    + intros topic Hne. rewrite Hs. by apply lookup_insert_ne.
    + exact Ho.
Qed.

(** A subscriber that raises does not keep the next one from running. *)
Example publish_after_raising_handler :
  let r := publish "job_submitted" [("job_id", JStr "job-1")] two_handler_bus in
  r.1 = Ok tt /\ world r.2 = 1%nat /\
  stdout r.2 = ["Error in event handler for job_submitted: handler failed"].
Proof. vm_compute. repeat split. Qed.

(** ** Token bucket *)

Lemma _get_bucket_key_inj t1 t2 :
  _get_bucket_key t1 = _get_bucket_key t2 -> t1 = t2.
Proof. unfold _get_bucket_key. apply (inj (String.app "rate_limit:")). Qed.

Lemma refill_tokens_le_capacity now b :
  (tokens (refill now b) <= inject_Z (capacity b))%Q.
Proof. cbn. apply Q.le_min_l. Qed.

Lemma consume_spec now b :
  consume now 1 b =
  if Qle_bool 1 (tokens (refill now b)) then
    (true,
     {| capacity := capacity b; refill_rate := refill_rate b;
        tokens := (tokens (refill now b) - 1)%Q; last_refill := now |})
  else (false, refill now b).
Proof. reflexivity. Qed.


(** ** Rate limiter *)

Lemma check_rate_limit_unfold t_new now tenant rate
    (buckets : gmap string TokenBucket) :
  let b := (_get_or_create_bucket t_new tenant rate buckets).1 in
  check_rate_limit t_new now tenant rate buckets =
  ((if (consume now 1 b).1 then Ok tt
    else Raise (RateLimitExceededError (rate_limit_msg rate))),
   <[_get_bucket_key tenant := (consume now 1 b).2]>
     (_get_or_create_bucket t_new tenant rate buckets).2).
Proof.
  cbn zeta. unfold check_rate_limit.
  destruct (_get_or_create_bucket t_new tenant rate buckets) as [b bs1].
  cbn [fst snd]. destruct (consume now 1 b) as [[] b']; reflexivity.
Qed.

Lemma check_rate_limit_lookup t_new now tenant rate
    (buckets : gmap string TokenBucket) :
  (check_rate_limit t_new now tenant rate buckets).2
    !! _get_bucket_key tenant =
  Some (consume now 1
          (_get_or_create_bucket t_new tenant rate buckets).1).2.
Proof.
  pose proof (check_rate_limit_unfold t_new now tenant rate buckets) as H.
  cbn zeta in H. rewrite H. cbn [snd]. apply lookup_insert_eq.
Qed.

Lemma check_rate_limit_lookup_ne t_new now tenant rate
    (buckets : gmap string TokenBucket) (key : string) :
  key <> _get_bucket_key tenant ->
  (check_rate_limit t_new now tenant rate buckets).2 !! key = buckets !! key.
Proof.
  intros Hne.
  pose proof (check_rate_limit_unfold t_new now tenant rate buckets) as H.
  cbn zeta in H. rewrite H. cbn [snd].
  rewrite lookup_insert_ne by done.
  unfold _get_or_create_bucket.
  destruct (buckets !! _get_bucket_key tenant); cbn [snd]; [done|].
  by rewrite lookup_insert_ne.
Qed.

Lemma consume_keeps_shape now n b :
  capacity (consume now n b).2 = capacity b /\
  refill_rate (consume now n b).2 = refill_rate b /\
  last_refill (consume now n b).2 = now.
Proof.
  unfold consume. by destruct (Qle_bool _ _).
Qed.

Lemma get_or_create_existing t_new tenant rate
    (buckets : gmap string TokenBucket) b :
  buckets !! _get_bucket_key tenant = Some b ->
  _get_or_create_bucket t_new tenant rate buckets = (b, buckets).
Proof. intros H. unfold _get_or_create_bucket. by rewrite H. Qed.

Lemma get_or_create_fresh t_new tenant rate
    (buckets : gmap string TokenBucket) :
  buckets !! _get_bucket_key tenant = None ->
  _get_or_create_bucket t_new tenant rate buckets =
  (new_TokenBucket t_new rate (inject_Z rate / 60)%Q,
   <[_get_bucket_key tenant :=
       new_TokenBucket t_new rate (inject_Z rate / 60)%Q]> buckets).
Proof. intros H. unfold _get_or_create_bucket. by rewrite H. Qed.

(** Once a key holds a bucket, no call changes its capacity or its rate. *)
Lemma check_rate_limit_keeps_shape (c : RateCheck)
    (buckets : gmap string TokenBucket) (key : string) b :
  buckets !! key = Some b ->
  exists b',
    (check_rate_limit (ck_new c) (ck_now c) (ck_tenant c) (ck_rate c) buckets).2
      !! key = Some b' /\
    capacity b' = capacity b /\ refill_rate b' = refill_rate b.
Proof.
  intros H. destruct (decide (key = _get_bucket_key (ck_tenant c))) as [->|Hne].
  - rewrite check_rate_limit_lookup, (get_or_create_existing _ _ _ _ b H).
    cbn [fst]. eexists. split; [reflexivity|].
    destruct (consume_keeps_shape (ck_now c) 1 b) as (? & ? & _). done.
  - rewrite check_rate_limit_lookup_ne by done. eauto.
Qed.

Lemma run_checks_keeps_shape (calls : list RateCheck)
    (buckets : gmap string TokenBucket) (key : string) b :
  buckets !! key = Some b ->
  exists b',
    run_checks calls buckets !! key = Some b' /\
    capacity b' = capacity b /\ refill_rate b' = refill_rate b.
Proof.
  revert buckets b. induction calls as [|c calls IH]; intros buckets b H.
  - exists b. done.
  - cbn [run_checks foldl].
    destruct (check_rate_limit_keeps_shape c buckets key b H)
      as (b1 & H1 & Hc1 & Hr1).
    destruct (IH _ b1 H1) as (b2 & H2 & Hc2 & Hr2).
    exists b2. split; [exact H2|]. split; congruence.
Qed.



(** A check exactly 60 seconds after the one that passed goes through. *)
Example check_rate_limit_after_a_minute :
  (check_rate_limit 60000000 60000000 "t1" 1
     (check_rate_limit 0 0 "t1" 1 ∅).2).1 = Ok tt.
Proof. vm_compute. reflexivity. Qed.

(** C10.  The first [check_rate_limit] call for a tenant builds the
    tenant's bucket with the capacity and refill rate of the
    [rate_per_minute] it was given; whatever calls follow, for this or any
    other tenant and with whatever rates, the bucket keeps that capacity
    and that rate; and a later call for the tenant leaves the same buckets
    and lets through or refuses the same whichever [rate_per_minute] it
    passes. *)
Theorem bucket_fixed_by_first_call (tenant : string) (rate0 : Z)
    (t_new now : datetime) (buckets : gmap string TokenBucket) :
  buckets !! _get_bucket_key tenant = None ->
  let buckets1 := (check_rate_limit t_new now tenant rate0 buckets).2 in
  (forall calls, exists b,
     run_checks calls buckets1 !! _get_bucket_key tenant = Some b /\
     capacity b = rate0 /\ refill_rate b = (inject_Z rate0 / 60)%Q) /\
  (forall calls t_new1 t_new2 now' rate1 rate2,
     let bs := run_checks calls buckets1 in
     (check_rate_limit t_new1 now' tenant rate1 bs).2 =
     (check_rate_limit t_new2 now' tenant rate2 bs).2 /\
     ((check_rate_limit t_new1 now' tenant rate1 bs).1 = Ok tt <->
      (check_rate_limit t_new2 now' tenant rate2 bs).1 = Ok tt)) /\
  (forall other, other <> tenant ->
     _get_bucket_key other <> _get_bucket_key tenant).
Proof.
  intros Hfresh buckets1.
  assert (exists b1, buckets1 !! _get_bucket_key tenant = Some b1 /\
                     capacity b1 = rate0 /\
                     refill_rate b1 = (inject_Z rate0 / 60)%Q)
    as (b1 & Hb1 & Hc1 & Hr1).
  { subst buckets1. rewrite check_rate_limit_lookup.
    rewrite get_or_create_fresh by done. cbn [fst].
    eexists. split; [reflexivity|].
    destruct (consume_keeps_shape now 1
                (new_TokenBucket t_new rate0 (inject_Z rate0 / 60)%Q))
      as (-> & -> & _). done. }
  assert (forall calls, exists b,
     run_checks calls buckets1 !! _get_bucket_key tenant = Some b /\
     capacity b = rate0 /\ refill_rate b = (inject_Z rate0 / 60)%Q) as Hkeep.
  { intros calls.
    destruct (run_checks_keeps_shape calls buckets1 _ b1 Hb1)
      as (b & Hb & Hc & Hr).
    exists b. split; [exact Hb|]. split; congruence. }
  split; [exact Hkeep|]. split.
  - intros calls t_new1 t_new2 now' rate1 rate2 bs.
    destruct (Hkeep calls) as (b & Hb & _). fold bs in Hb.
    pose proof (check_rate_limit_unfold t_new1 now' tenant rate1 bs) as H1.
    pose proof (check_rate_limit_unfold t_new2 now' tenant rate2 bs) as H2.
    cbn zeta in H1, H2. rewrite H1, H2.
    rewrite !(get_or_create_existing _ _ _ _ b Hb). cbn [fst snd].
    split; [done|]. by destruct (consume now' 1 b).1.
  - intros other Hne Heq. by apply Hne, _get_bucket_key_inj.
Qed.

Lemma bucket_fixed_by_first_call_witness :
  (∅ : gmap string TokenBucket) !! _get_bucket_key "t1" = None /\
  exists b,
    run_checks [mkCheck 10 10 "t1" 100; mkCheck 20 20 "t2" 7]
      (check_rate_limit 0 0 "t1" 5 ∅).2 !! _get_bucket_key "t1" = Some b /\
    capacity b = 5 /\ refill_rate b = (inject_Z 5 / 60)%Q.
Proof.
  split; [apply lookup_empty|].
  destruct (bucket_fixed_by_first_call "t1" 5 0 0 ∅ (lookup_empty _))
    as (Hkeep & _).
  exact (Hkeep [mkCheck 10 10 "t1" 100; mkCheck 20 20 "t2" 7]).
Defined.

(** * Further properties *)

(** ** Insert and look up *)

Lemma find_app_None (i : UUID) (l l' : list Job) :
  find (has_id i) l = None ->
  find (has_id i) (l ++ l') = find (has_id i) l'.
Proof.
  induction l as [|k l IH]; simpl; [done|].
  destruct (has_id i k); [discriminate | apply IH].
Qed.

Lemma get_by_id_insert_eq j st d' :
  get_by_id (job_id j) st = None ->
  get_by_id (job_id j) {| jobs := jobs st ++ [j]; dlq := d' |} = Some j.
Proof.
  intros H. unfold get_by_id in *. cbn [jobs].
  rewrite find_app_None by done. simpl.
  by rewrite (proj2 (has_id_true (job_id j) j)).
Qed.




(** ** Missing ids *)

Lemma increment_retry_missing i st :
  get_by_id i st = None ->
  increment_retry i st = (Raise (JobNotFoundError (not_found_msg i)), st).
Proof.
  intros H. unfold increment_retry.
  rewrite get_by_id_update_rows by auto with store. rewrite H. simpl.
  rewrite update_rows_none; [by destruct st|].
  intros j Hj. apply has_id_false.
  by apply (proj1 (find_has_id_None i (jobs st))).
Qed.

(** X2.  For an id that is not in the table, [update_status] and
    [increment_retry] raise [JobNotFoundError] with the text
    "Job <id> not found" and write nothing; [ack] swallows that error and
    leaves the store as it was; [acquire_lease] answers [False]; and
    [move_to_dlq] raises the same error but has by then written its
    archive row. *)
Theorem missing_job_behaviour (i : UUID) (st : Store) :
  get_by_id i st = None ->
  (forall now s msg,
     update_status now i s msg st =
     (Raise (JobNotFoundError ("Job " +:+ i +:+ " not found")), st)) /\
  increment_retry i st =
    (Raise (JobNotFoundError ("Job " +:+ i +:+ " not found")), st) /\
  (forall now success msg, ack now i success msg st = st) /\
  (forall e c s ttl, acquire_lease e c s i ttl st = (false, st)) /\
  (forall fid t_arch t_upd j msg,
     job_id j = i ->
     (move_to_dlq fid t_arch t_upd j msg st).1 =
       Raise (JobNotFoundError ("Job " +:+ i +:+ " not found")) /\
     jobs (move_to_dlq fid t_arch t_upd j msg st).2 = jobs st /\
     dlq (move_to_dlq fid t_arch t_upd j msg st).2 =
       dlq st ++
       [{| dlq_id := fid; original_job_id := i; dlq_tenant_id := tenant_id j;
           dlq_payload := payload j; dlq_error_message := Some msg;
           dlq_retry_count := retry_count j; failed_at := t_arch;
           dlq_trace_id := trace_id j |}]).
Proof.
  intros H.
  assert (forall j, j ∈ jobs st -> has_id i j = false) as Hnone.
  { intros j Hj. apply has_id_false.
    by apply (proj1 (find_has_id_None i (jobs st))). }
  split; [|split; [|split; [|split]]].
  - intros now s msg. by apply update_status_missing.
  - by apply increment_retry_missing.
  - intros now success msg. unfold ack.
    destruct success; by rewrite update_status_missing.
  - intros e c s ttl.
    assert ((acquire_lease e c s i ttl st).1 = false) as Hf.
    { unfold acquire_lease. cbn [fst]. apply bool_decide_eq_false.
      rewrite rowcount_pos. intros (j & Hj & Hc).
      apply andb_true_iff in Hc as [Hc _]. by rewrite (Hnone j Hj) in Hc. }
    pose proof (acquire_lease_false e c s i ttl st Hf) as Hs.
    destruct (acquire_lease e c s i ttl st) as [b s']. cbn in *. congruence.
  - intros fid t_arch t_upd j msg <-. unfold move_to_dlq.
    rewrite update_status_missing by done. cbn [fst snd jobs dlq]. done.
Qed.

Lemma missing_job_behaviour_witness :
  get_by_id "job-9" store_pending = None /\
  ack 250 "job-9" false (Some "boom") store_pending = store_pending.
Proof.
  split; [reflexivity|].
  destruct (missing_job_behaviour "job-9" store_pending eq_refl)
    as (_ & _ & Hack & _).
  exact (Hack 250 false (Some "boom")).
Defined.

(** ** Submitting and fetching *)

Lemma get_by_idempotency_key_Some tenant key st j :
  get_by_idempotency_key tenant key st = Ok (Some j) ->
  j ∈ jobs st /\ tenant_id j = tenant /\ idempotency_key j = Some key.
Proof.
  unfold get_by_idempotency_key.
  destruct (filter _ (jobs st)) as [|x [|? ?]] eqn:E; try discriminate.
  intros [= ->].
  assert (j ∈ filter (fun j => idem_match tenant key j = true) (jobs st))
    as Hin by (rewrite E; left).
  apply list_elem_of_filter in Hin as [Hm Hin]. split; [done|].
  apply andb_true_iff in Hm as [Ht Hk].
  by apply bool_decide_eq_true in Ht, Hk.
Qed.

Lemma submit_job_Ok fid now tr user p key retries st j st' :
  pk_unique st ->
  submit_job fid now tr user p key retries st = (Ok j, st') ->
  tenant_id j = user_id user /\ get_by_id (job_id j) st' = Some j /\
  pk_unique st'.
Proof.
  intros Hpk. rewrite submit_job_cases.
  destruct (max_concurrent_jobs user <=? _); [discriminate|].
  destruct (match key with Some _ => _ | None => _ end)
    as [[ex|]|e] eqn:Hlook; [| |discriminate].
  - intros [= <- <-].
    destruct key as [k|]; [|discriminate].
    destruct (truthy (Some k)); [|discriminate].
    apply get_by_idempotency_key_Some in Hlook as (Hin & Ht & _).
    split; [done|]. split; [by apply get_by_id_elem | done].
  - cbn zeta. destruct (get_by_id fid st) eqn:Hfresh; [discriminate|].
    intros [= <- <-]. split; [done|]. split.
    + by apply (get_by_id_insert_eq (new_Job _ _ _ _ _ _ _)).
    + by apply (pk_unique_insert (new_Job _ _ _ _ _ _ _)).
Qed.

(** X3.  A job that [submit_job] returns, new or found under the key,
    belongs to the submitting tenant and is fetched by [get_job] under that
    tenant's id; under any other non-empty tenant id [get_job] raises the
    error it raises for an id that does not exist; a call without a tenant
    id, or with the empty one, is not filtered. *)
Theorem submit_job_then_get_job fid now tr (user : User) p key retries
    (st : Store) (j : Job) (st' : Store) :
  pk_unique st ->
  submit_job fid now tr user p key retries st = (Ok j, st') ->
  tenant_id j = user_id user /\
  get_job (job_id j) (Some (user_id user)) st' = Ok j /\
  (forall other, other <> "" -> other <> user_id user ->
     get_job (job_id j) (Some other) st' =
     Raise (JobNotFoundError ("Job " +:+ job_id j +:+ " not found"))) /\
  (forall missing, get_by_id missing st' = None ->
     forall tenant, get_job missing tenant st' =
       Raise (JobNotFoundError ("Job " +:+ missing +:+ " not found"))) /\
  get_job (job_id j) None st' = Ok j /\
  get_job (job_id j) (Some "") st' = Ok j.
Proof.
  intros Hpk Hs.
  destruct (submit_job_Ok _ _ _ _ _ _ _ _ _ _ Hpk Hs) as (Ht & Hget & _).
  split; [done|]. unfold get_job. rewrite Hget, Ht.
  split; [|split; [|split; [|split]]].
  - rewrite bool_decide_eq_true_2 by done. cbn. by rewrite andb_false_r.
  - intros other Hne Hother.
    rewrite (proj2 (truthy_Some other) Hne).
    rewrite bool_decide_eq_false_2 by congruence. done.
  - intros missing Hm tenant. by rewrite Hm.
  - done.
  - done.
Qed.

Lemma submit_job_then_get_job_witness :
  pk_unique empty_store /\
  get_job "job-1" (Some "t1") store_pending = Ok job1 /\
  get_job "job-1" (Some "t2") store_pending =
    Raise (JobNotFoundError "Job job-1 not found").
Proof.
  assert (pk_unique empty_store) as Hpk by apply NoDup_nil_2.
  split; [exact Hpk|].
  destruct (submit_job_then_get_job "job-1" 100 "trace-1" tenant1 noop_payload
              (Some "k1") 3 empty_store job1 store_pending Hpk eq_refl)
    as (_ & Hown & Hother & _).
  split; [exact Hown|].
  apply (Hother "t2"); discriminate.
Defined.

(** ** Listing and counting *)

Lemma insert_by_created_at_desc_elem x j l :
  x ∈ insert_by_created_at_desc j l <-> x = j \/ x ∈ l.
Proof.
  induction l as [|k l IH]; simpl.
  - rewrite list_elem_of_singleton, elem_of_nil. tauto.
  - destruct (created_at k <=? created_at j).
    + by rewrite elem_of_cons.
    + rewrite !elem_of_cons, IH. tauto.
Qed.

Lemma insert_by_created_at_desc_length j l :
  length (insert_by_created_at_desc j l) = S (length l).
Proof.
  induction l as [|k l IH]; simpl; [done|].
  destruct (created_at k <=? created_at j); simpl; [done | by rewrite IH].
Qed.

Lemma order_by_created_at_desc_elem x l :
  x ∈ order_by_created_at_desc l <-> x ∈ l.
Proof.
  unfold order_by_created_at_desc. induction l as [|j l IH]; simpl; [done|].
  rewrite insert_by_created_at_desc_elem, IH, elem_of_cons. tauto.
Qed.

Lemma order_by_created_at_desc_length l :
  length (order_by_created_at_desc l) = length l.
Proof.
  unfold order_by_created_at_desc. induction l as [|j l IH]; simpl; [done|].
  by rewrite insert_by_created_at_desc_length, IH.
Qed.

Lemma insert_by_created_at_desc_sorted j l :
  StronglySorted newer_eq l ->
  StronglySorted newer_eq (insert_by_created_at_desc j l).
Proof.
  induction 1 as [|k l Hs IH Hall]; simpl.
  - repeat constructor.
  - destruct (created_at k <=? created_at j) eqn:E.
    + apply Z.leb_le in E. constructor; [by constructor|].
      constructor; [done|].
      eapply Forall_impl; [exact Hall|]. unfold newer_eq. intros; lia.
    + apply Z.leb_gt in E. constructor; [done|].
      apply Forall_forall. intros x Hx.
      apply insert_by_created_at_desc_elem in Hx as [->|Hx].
      * unfold newer_eq. lia.
      * by eapply Forall_forall in Hall.
Qed.

Lemma order_by_created_at_desc_sorted l :
  StronglySorted newer_eq (order_by_created_at_desc l).
Proof.
  unfold order_by_created_at_desc. induction l; simpl;
    [constructor | by apply insert_by_created_at_desc_sorted].
Qed.

Lemma StronglySorted_take {A} (R : A -> A -> Prop) n l :
  StronglySorted R l -> StronglySorted R (take n l).
Proof.
  intros H. revert n. induction H as [|x l Hs IH Hall]; intros [|n]; simpl;
    try constructor; [apply IH | by apply Forall_take].
Qed.

Lemma filter_status_tenant s tenant st :
  (if truthy tenant
   then filter (fun j => Some (tenant_id j) = tenant)
          (filter (fun j => status j = s) (jobs st))
   else filter (fun j => status j = s) (jobs st)) =
  filter (fun j => status_tenant_match s tenant j = true) (jobs st).
Proof.
  unfold status_tenant_match. destruct (truthy tenant).
  - rewrite list_filter_filter. apply list_filter_iff. intros j.
    rewrite andb_true_iff, !bool_decide_eq_true. tauto.
  - apply list_filter_iff. intros j.
    rewrite andb_true_iff, bool_decide_eq_true. tauto.
Qed.

Lemma count_by_status_length s tenant st :
  count_by_status s tenant st =
  Z.of_nat (length (filter (fun j => status_tenant_match s tenant j = true)
                      (jobs st))).
Proof. unfold count_by_status. by rewrite filter_status_tenant. Qed.

Lemma get_jobs_by_status_eq s tenant limit st :
  get_jobs_by_status s tenant limit st =
  take limit (order_by_created_at_desc
                (filter (fun j => status_tenant_match s tenant j = true)
                   (jobs st))).
Proof. unfold get_jobs_by_status. cbv zeta. by rewrite filter_status_tenant. Qed.

Lemma get_jobs_by_status_length s tenant limit st :
  Z.of_nat (length (get_jobs_by_status s tenant limit st)) =
  Z.min (Z.of_nat limit) (count_by_status s tenant st).
Proof.
  rewrite get_jobs_by_status_eq, count_by_status_length, length_take,
    order_by_created_at_desc_length. lia.
Qed.

Lemma get_jobs_by_status_elem s tenant limit st j :
  j ∈ get_jobs_by_status s tenant limit st ->
  j ∈ jobs st /\ status_tenant_match s tenant j = true.
Proof.
  rewrite get_jobs_by_status_eq. intros H.
  apply (subseteq_take limit) in H as H'.
  apply order_by_created_at_desc_elem, list_elem_of_filter in H'. tauto.
Qed.

(** X4.  [get_jobs_by_status] returns rows of the table that have the
    status asked for and, when a non-empty tenant id is given, that
    tenant; newest first; as many as [count_by_status] counts, cut at
    [limit]; and all of them when the limit is not reached.  With no tenant
    id, or the empty one, rows of every tenant are returned. *)
Theorem get_jobs_by_status_sound (s : JobStatus) (tenant : option string)
    (limit : nat) (st : Store) :
  let r := get_jobs_by_status s tenant limit st in
  (forall j, j ∈ r ->
     j ∈ jobs st /\ status j = s /\
     (forall t, tenant = Some t -> t <> "" -> tenant_id j = t)) /\
  StronglySorted (fun a b => created_at b <= created_at a) r /\
  Z.of_nat (length r) = Z.min (Z.of_nat limit) (count_by_status s tenant st) /\
  (count_by_status s tenant st <= Z.of_nat limit ->
   forall j, j ∈ jobs st -> status j = s ->
     (forall t, tenant = Some t -> t <> "" -> tenant_id j = t) -> j ∈ r).
Proof.
  cbv zeta. split; [|split; [|split]].
  - intros j Hj. apply get_jobs_by_status_elem in Hj as [Hin Hm].
    apply andb_true_iff in Hm as [Hs Ht]. apply bool_decide_eq_true in Hs.
    split; [done|]. split; [done|]. intros t -> Hne.
    rewrite (proj2 (truthy_Some t) Hne) in Ht.
    apply bool_decide_eq_true in Ht. congruence.
  - rewrite get_jobs_by_status_eq. apply StronglySorted_take.
    apply order_by_created_at_desc_sorted.
  - apply get_jobs_by_status_length.
  - rewrite count_by_status_length, get_jobs_by_status_eq.
    intros Hle j Hin Hs Ht.
    rewrite take_ge by (rewrite order_by_created_at_desc_length; lia).
    apply order_by_created_at_desc_elem, list_elem_of_filter.
    split; [|done]. unfold status_tenant_match.
    rewrite bool_decide_eq_true_2 by done. simpl.
    destruct tenant as [t|]; [|done]. simpl.
    destruct (String.eqb t "") eqn:E; simpl; [done|].
    apply bool_decide_eq_true. f_equal. apply Ht; [done|].
    by apply String.eqb_neq.
Qed.

Lemma status_partition (l : list Job) :
  length l =
  (length (filter (fun j => status j = PENDING) l) +
   length (filter (fun j => status j = RUNNING) l) +
   length (filter (fun j => status j = COMPLETED) l) +
   length (filter (fun j => status j = FAILED) l) +
   length (filter (fun j => status j = DLQ) l))%nat.
Proof.
  induction l as [|j l IH]; [done|].
  rewrite !filter_cons. simpl length at 1. rewrite IH.
  destruct (status j); repeat case_decide; try congruence; simpl; lia.
Qed.

Lemma count_by_status_rows s tenant st :
  count_by_status s tenant st =
  Z.of_nat (length (filter (fun j => status j = s) (rows_of_tenant tenant st))).
Proof.
  unfold count_by_status, rows_of_tenant. destruct (truthy tenant); [|done].
  rewrite !list_filter_filter. do 2 f_equal. apply list_filter_iff. tauto.
Qed.

Lemma total_jobs_rows tenant st :
  total_jobs (metrics_of tenant st) =
  Z.of_nat (length (rows_of_tenant tenant st)).
Proof.
  cbn [metrics_of total_jobs]. rewrite !count_by_status_rows.
  rewrite (status_partition (rows_of_tenant tenant st)). lia.
Qed.

(** X5.  The [total_jobs] of [get_metrics] is the number of rows of the
    tenant (of all rows when no tenant id, or the empty one, is given):
    every job is counted once, under its status, so the five per-status
    counts add up to the total and no listing is longer than it.  A
    collector without observers returns the dictionary and notifies
    nobody. *)
Theorem get_metrics_counts_each_job_once {W} (tenant : option string)
    (st : Store) (c : Collector W) :
  let m := metrics_of tenant st in
  total_jobs m = Z.of_nat (length (rows_of_tenant tenant st)) /\
  pending_jobs m + running_jobs m + completed_jobs m + failed_jobs m +
    dlq_jobs m = total_jobs m /\
  (forall s, count_by_status s tenant st <= total_jobs m) /\
  (forall s limit,
     Z.of_nat (length (get_jobs_by_status s tenant limit st)) <= total_jobs m) /\
  (forall c0 : Collector W, _observers c0 = [] ->
     get_metrics tenant st c0 = (Ok m, c0)) /\
  (forall j, j ∈ jobs st -> tenant = None \/ tenant = Some "" \/
                            tenant = Some (tenant_id j) ->
             0 < total_jobs m).
Proof.
  cbv zeta. pose proof (total_jobs_rows tenant st) as Htot.
  assert (forall s, count_by_status s tenant st <= total_jobs (metrics_of tenant st))
    as Hle.
  { intros s. rewrite Htot, count_by_status_rows.
    apply inj_le, length_filter. }
  split; [done|]. split; [reflexivity|]. split; [done|].
  split; [|split].
  - intros s limit. rewrite get_jobs_by_status_length. specialize (Hle s). lia.
  - intros [os w] Hos. cbn in Hos. subst os. reflexivity.
  - intros j Hj Ht. rewrite Htot.
    assert (j ∈ rows_of_tenant tenant st) as Hin.
    { unfold rows_of_tenant. destruct Ht as [->|[->| ->]]; [done|done|].
      destruct (truthy _); [|done].
      by apply list_elem_of_filter. }
    destruct (rows_of_tenant tenant st); [inversion Hin | simpl; lia].
Qed.

(** ** Observers of the metrics collector *)

Lemma notify_each_app {W} (before after : list (Observer W)) event data w :
  notify_each (before ++ after) event data w =
  match notify_each before event data w with
  | (Ok _, w') => notify_each after event data w'
  | (Raise e, w') => (Raise e, w')
  end.
Proof.
  revert w. induction before as [|o os IH]; intros w; [done|].
  cbn [app notify_each]. unfold mbind, ST_bind.
  destruct (update o event data w) as [[|e] w']; [apply IH | done].
Qed.

Lemma notify_each_returning {W} (os : list (Observer W)) event data w :
  (forall o, o ∈ os -> forall w', (update o event data w').1 = Returned) ->
  notify_each os event data w =
  (Ok tt, foldl (fun w' o => (update o event data w').2) w os).
Proof.
  revert w. induction os as [|o os IH]; intros w Hall; [done|].
  cbn [notify_each foldl]. unfold mbind, ST_bind.
  pose proof (Hall o (list_elem_of_here _ _) w) as Ho.
  destruct (update o event data w) as [out w']. cbn in *. subst out.
  apply IH. intros o' Ho' w''. apply Hall. by right.
Qed.

(** X6.  [MetricsCollector.notify] does not shield its observers from one
    another: when the observers in front of [o] return and [o] raises,
    [get_metrics] raises that exception, the observers behind [o] are not
    updated, and the caller gets no metrics.  When all observers return,
    each is updated once, in the order of attachment. *)
Theorem get_metrics_stops_at_raising_observer {W} (tenant : option string)
    (st : Store) (before after : list (Observer W)) (o : Observer W)
    (w : W) (e : Exn) :
  let m := metrics_of tenant st in
  let upd := fun w' o' => (update o' "metrics_updated" m w').2 in
  (forall o', o' ∈ before ->
     forall w', (update o' "metrics_updated" m w').1 = Returned) ->
  (update o "metrics_updated" m (foldl upd w before)).1 = Raised e ->
  get_metrics tenant st
    {| _observers := before ++ o :: after; observed := w |} =
  (Raise e,
   {| _observers := before ++ o :: after;
      observed := upd (foldl upd w before) o |}) /\
  ((forall o', o' ∈ after ->
      forall w', (update o' "metrics_updated" m w').1 = Returned) ->
   get_metrics tenant st
     {| _observers := before ++ after; observed := w |} =
   (Ok m,
    {| _observers := before ++ after;
       observed := foldl upd w (before ++ after) |})).
Proof.
  intros m upd Hbefore Hraise. subst upd m. cbn beta in *. split.
  - unfold get_metrics, notify, mbind, ST_bind. cbn [_observers observed].
    rewrite notify_each_app, notify_each_returning by done.
    cbn [notify_each]. unfold mbind, ST_bind.
    destruct (update o "metrics_updated" (metrics_of tenant st) _)
      as [out w'] eqn:E.
    cbn in Hraise. subst out. done.
  - intros Hafter.
    unfold get_metrics, notify, mbind, ST_bind. cbn [_observers observed].
    rewrite notify_each_returning; [done|].
    intros o' Ho'. apply elem_of_app in Ho' as [?|?]; auto.
Qed.

Lemma get_metrics_stops_at_raising_observer_witness :
  (forall o', o' ∈ [counting_observer] ->
     forall w', (update o' "metrics_updated"
                   (metrics_of (Some "t1") store_running) w').1 = Returned) /\
  get_metrics (Some "t1") store_running
    {| _observers := [counting_observer; raising_observer; counting_observer];
       observed := 0%nat |} =
  (Raise (Exception "observer failed"),
   {| _observers := [counting_observer; raising_observer; counting_observer];
      observed := 1%nat |}).
Proof.
  assert (forall o', o' ∈ [counting_observer] ->
     forall w', (update o' "metrics_updated"
                   (metrics_of (Some "t1") store_running) w').1 = Returned)
    as Hret.
  { intros o' Ho' w'. apply list_elem_of_singleton in Ho'. by subst o'. }
  split; [exact Hret|].
  exact (proj1 (get_metrics_stops_at_raising_observer (Some "t1") store_running
                  [counting_observer] [counting_observer] raising_observer
                  0%nat (Exception "observer failed") Hret eq_refl)).
Defined.

(** ** The job listing of the API *)

Lemma list_jobs_elem s user limit st j :
  j ∈ list_jobs s user limit st ->
  j ∈ jobs st /\
  exists s', status_tenant_match s' (Some (user_id user)) j = true /\
             (forall s0, s = Some s0 -> s' = s0).
Proof.
  unfold list_jobs. destruct s as [s0|].
  - intros H. apply get_jobs_by_status_elem in H as [Hin Hm].
    split; [done|]. exists s0. split; [done|]. by intros ? [= ->].
  - intros H. apply (subseteq_take limit) in H.
    unfold all_statuses in H. cbn [map concat] in H.
    rewrite !elem_of_app in H.
    destruct H as [H|[H|[H|[H|[H|H]]]]]; [..|by apply elem_of_nil in H];
      apply get_jobs_by_status_elem in H as [Hin Hm];
      (split; [done|]); eexists; (split; [exact Hm | discriminate]).
Qed.

(** X7.  The listing of the API returns only rows of the table; when the
    caller's tenant id is not empty they are all the caller's, and when a
    status is asked for they all have it.  Without a status the listing
    holds [min(limit, total_jobs)] rows, filled status by status in the
    order PENDING, RUNNING, COMPLETED, FAILED, DLQ: as long as PENDING rows
    alone reach the limit, no row of another status is listed, however
    new. *)
Theorem list_jobs_scoped_to_caller (s : option JobStatus) (user : User)
    (limit : nat) (st : Store) :
  (forall j, j ∈ list_jobs s user limit st ->
     j ∈ jobs st /\
     (user_id user <> "" -> tenant_id j = user_id user) /\
     (forall s0, s = Some s0 -> status j = s0)) /\
  (length (list_jobs s user limit st) <= limit)%nat /\
  Z.of_nat (length (list_jobs None user limit st)) =
    Z.min (Z.of_nat limit)
      (total_jobs (metrics_of (Some (user_id user)) st)) /\
  (Z.of_nat limit <= count_by_status PENDING (Some (user_id user)) st ->
   list_jobs None user limit st =
   get_jobs_by_status PENDING (Some (user_id user)) limit st).
Proof.
  split; [|split; [|split]].
  - intros j Hj. apply list_jobs_elem in Hj as (Hin & s' & Hm & Hs).
    apply andb_true_iff in Hm as [Hst Ht]. apply bool_decide_eq_true in Hst.
    split; [done|]. split.
    + intros Hne. rewrite (proj2 (truthy_Some _) Hne) in Ht.
      apply bool_decide_eq_true in Ht. congruence.
    + intros s0 Hs0. by rewrite <- (Hs s0 Hs0).
  - unfold list_jobs. destruct s as [s0|].
    + pose proof (get_jobs_by_status_length s0 (Some (user_id user)) limit st).
      lia.
    + rewrite length_take. lia.
  - unfold list_jobs, all_statuses. cbn [map concat].
    rewrite length_take, !length_app. cbn [length].
    pose proof (get_jobs_by_status_length PENDING (Some (user_id user)) limit st).
    pose proof (get_jobs_by_status_length RUNNING (Some (user_id user)) limit st).
    pose proof (get_jobs_by_status_length COMPLETED (Some (user_id user)) limit st).
    pose proof (get_jobs_by_status_length FAILED (Some (user_id user)) limit st).
    pose proof (get_jobs_by_status_length DLQ (Some (user_id user)) limit st).
    cbn [metrics_of total_jobs].
    assert (forall s', 0 <= count_by_status s' (Some (user_id user)) st) as Hnn
      by (intros s'; unfold count_by_status; lia).
    pose proof (Hnn PENDING). pose proof (Hnn RUNNING).
    pose proof (Hnn COMPLETED). pose proof (Hnn FAILED). pose proof (Hnn DLQ).
    lia.
  - intros Hfull. unfold list_jobs, all_statuses. cbn [map concat].
    pose proof (get_jobs_by_status_length PENDING (Some (user_id user)) limit st)
      as Hlen.
    rewrite take_app_le by lia.
    apply take_ge. lia.
Qed.

(** ** One pass of the worker *)

Lemma find_replace_eq (i : UUID) (c : Job) (l : list Job) :
  job_id c = i ->
  find (has_id i) (map (fun k => if has_id i k then c else k) l) =
  (fun _ => c) <$> find (has_id i) l.
Proof.
  intros Hc. induction l as [|k l IH]; simpl; [done|].
  destruct (has_id i k) eqn:E.
  - by rewrite (proj2 (has_id_true i c) Hc).
  - by rewrite E.
Qed.

Lemma find_replace_ne (i i' : UUID) (c : Job) (l : list Job) :
  job_id c = i -> i' <> i ->
  find (has_id i') (map (fun k => if has_id i k then c else k) l) =
  find (has_id i') l.
Proof.
  intros Hc Hne. induction l as [|k l IH]; simpl; [done|].
  destruct (has_id i k) eqn:E.
  - apply has_id_true in E.
    rewrite (proj2 (has_id_false i' c)) by congruence.
    rewrite (proj2 (has_id_false i' k)) by congruence. done.
  - destruct (has_id i' k); [done | apply IH].
Qed.

Lemma process_job_returned wid processor d job w j0 result :
  get_by_id (job_id job) (db w) = Some j0 ->
  processor (payload job) = Ok result ->
  process_job wid processor d job w =
  (Ok tt,
   {| db := {| jobs := update_rows (has_id (job_id job))
                         (set_status (t_completed d) COMPLETED None)
                         (jobs (db w));
               dlq := dlq (db w) |};
      published := published w ++
        [(JobEvent_value EV_STARTED, started_data wid job)] ++
        [(JobEvent_value EV_COMPLETED, completed_data wid job result)] |}).
Proof.
  intros H Hp.
  unfold process_job, try_except, mbind, ST_bind, event_bus_publish, call,
    on_db.
  rewrite Hp. cbn [db published].
  rewrite (update_status_found _ _ _ _ _ j0 H). cbn [db published].
  by rewrite <- app_assoc.
Qed.

Lemma process_job_raised wid processor d job w e :
  processor (payload job) = Raise e ->
  process_job wid processor d job w =
  on_exception wid d job e
    {| db := db w;
       published := published w ++
         [(JobEvent_value EV_STARTED, started_data wid job)] |}.
Proof.
  intros Hp.
  unfold process_job, try_except, mbind, ST_bind, event_bus_publish, call.
  by rewrite Hp.
Qed.

Lemma run_once_unfold wid processor d ttl w :
  run_once wid processor d ttl w =
  match dequeue (t_select d) wid (db w) with
  | None => (Ok false, w)
  | Some j =>
      let r := acquire_lease (t_expiry d) (t_check d) (t_start d)
                 (job_id j) ttl (db w) in
      if r.1 then
        match process_job wid processor d j
                {| db := r.2; published := published w |} with
        | (Ok _, w') => (Ok true, w')
        | (Raise _, w') => (Ok false, w')
        end
      else (Ok false, {| db := r.2; published := published w |})
  end.
Proof.
  unfold run_once, try_except, mbind, ST_bind.
  rewrite dequeue_and_lease_unfold.
  destruct (dequeue (t_select d) wid (db w)) as [j|]; [|done].
  cbv zeta.
  destruct (acquire_lease _ _ _ _ _ _) as [[] st1]; cbn [fst snd]; [|done].
  by destruct (process_job _ _ _ _ _) as [[[]|e] w'].
Qed.

Lemma has_id_self j : has_id (job_id j) j = true.
Proof. by apply has_id_true. Qed.

Lemma find_update_rows_same i f l :
  keeps_id f ->
  find (has_id i) (update_rows (has_id i) f l) = f <$> find (has_id i) l.
Proof.
  intros Hf. rewrite find_update_rows by done.
  destruct (find (has_id i) l) as [j|] eqn:E; simpl; [|done].
  apply find_has_id_Some in E as [_ E]. apply has_id_true in E. by rewrite E.
Qed.

Lemma find_update_rows_other i i' f l :
  keeps_id f -> i' <> i ->
  find (has_id i') (update_rows (has_id i) f l) = find (has_id i') l.
Proof.
  intros Hf Hne. rewrite find_update_rows by done.
  destruct (find (has_id i') l) as [j|] eqn:E; simpl; [|done].
  apply find_has_id_Some in E as [_ E].
  by rewrite (proj2 (has_id_false i j)) by congruence.
Qed.

(** X8.  One pass of [run_once], on a table keyed by id and with a clock
    that does not run backwards between the dequeue and the lease: with no
    leasable job it returns [False] and changes nothing; otherwise it
    returns [True], never raises, leaves every other row as it was, and
    the job it took ends COMPLETED when the processor returned, PENDING
    with one more retry when the processor raised and retries were left,
    and DLQ with one new archive row when none were left; the publish
    calls are [started] followed by [completed], or by [retry] or [dlq]
    and then [failed]. *)
Theorem run_once_outcome (wid : string) (processor : job_processor)
    (d : Draws) (ttl : Z) (w : WState) :
  pk_unique (db w) -> t_select d <= t_check d ->
  let r := run_once wid processor d ttl w in
  match dequeue (t_select d) wid (db w) with
  | None => r = (Ok false, w)
  | Some j =>
      let leased :=
        set_lease (t_expiry d + timedelta_seconds ttl) (t_start d) j in
      r.1 = Ok true /\
      (forall i, i <> job_id j -> get_by_id i (db r.2) = get_by_id i (db w)) /\
      length (jobs (db r.2)) = length (jobs (db w)) /\
      match processor (payload j) with
      | Ok result =>
          get_by_id (job_id j) (db r.2) =
            Some (set_status (t_completed d) COMPLETED None leased) /\
          dlq (db r.2) = dlq (db w) /\
          map fst (published r.2) =
            map fst (published w) ++ ["started"; "completed"]
      | Raise e =>
          let failed :=
            set_status (t_failed d) FAILED (Some (str_exn e)) leased in
          if retry_count j <? max_retries j then
            get_by_id (job_id j) (db r.2) = Some (bump failed) /\
            dlq (db r.2) = dlq (db w) /\
            map fst (published r.2) =
              map fst (published w) ++ ["started"; "retry"; "failed"]
          else
            get_by_id (job_id j) (db r.2) =
              Some (set_status (t_dlq d) DLQ (Some (str_exn e)) failed) /\
            dlq (db r.2) =
              dlq (db w) ++
              [{| dlq_id := dlq_uuid d; original_job_id := job_id j;
                  dlq_tenant_id := tenant_id j; dlq_payload := payload j;
                  dlq_error_message := Some (str_exn e);
                  dlq_retry_count := retry_count j;
                  failed_at := t_archive d; dlq_trace_id := trace_id j |}] /\
            map fst (published r.2) =
              map fst (published w) ++ ["started"; "dlq"; "failed"]
      end
  end.
Proof.
  intros Hpk Hclock. cbv zeta. rewrite run_once_unfold.
  destruct (dequeue (t_select d) wid (db w)) as [j|] eqn:Hd; [|done].
  apply dequeue_Some in Hd as (Hj & Hl & _).
  rewrite (acquire_lease_elem _ _ _ ttl (db w) j)
    by eauto using leasable_later.
  cbn [fst snd].
  pose proof (get_by_id_elem (db w) j Hpk Hj) as Hget.
  unfold get_by_id in Hget |- *.
  remember (set_lease (t_expiry d + timedelta_seconds ttl) (t_start d) j)
    as leased eqn:Hleased.
  assert (job_id leased = job_id j /\ retry_count leased = retry_count j /\
          max_retries leased = max_retries j /\ tenant_id leased = tenant_id j /\
          payload leased = payload j /\ trace_id leased = trace_id j)
    as (Hid & Hrc & Hmr & Hten & Hpay & Htr) by (by subst leased).
  remember (map (fun k => if has_id (job_id j) k then leased else k)
              (jobs (db w))) as l1 eqn:Hl1.
  assert (find (has_id (job_id j)) l1 = Some leased) as Hget1.
  { subst l1. rewrite find_replace_eq by done. by rewrite Hget. }
  assert (forall i, i <> job_id j ->
            find (has_id i) l1 = find (has_id i) (jobs (db w))) as Hother1.
  { intros i Hne. subst l1. by apply find_replace_ne. }
  assert (length l1 = length (jobs (db w))) as Hlen1
    by (subst l1; apply length_map).
  clear Hl1.
  destruct (processor (payload j)) as [result|e] eqn:Hp.
  - rewrite (process_job_returned wid processor d j
               {| db := {| jobs := l1; dlq := dlq (db w) |};
                  published := published w |} leased result)
      by done.
    cbn [fst snd db published dlq jobs].
    split; [done|]. split; [|split; [|split; [|split]]].
    + intros i Hne. rewrite find_update_rows_other by auto with store. auto.
    + unfold update_rows. by rewrite length_map.
    + rewrite find_update_rows_same by auto with store. by rewrite Hget1.
    + done.
    + by rewrite !map_app.
  - rewrite (process_job_raised wid processor d j _ e) by done.
    cbn [db published].
    pose proof (on_exception_found wid d j e
                  {| db := {| jobs := l1; dlq := dlq (db w) |};
                     published := published w ++
                       [(JobEvent_value EV_STARTED, started_data wid j)] |}
                  leased Hget1) as Hex.
    cbv zeta in Hex. rewrite Hex. clear Hex.
    rewrite Hrc, Hmr, Hten, Hpay, Htr.
    destruct (retry_count j <? max_retries j);
      cbn [fst snd db published dlq jobs];
      (split; [done|]); (split; [|split; [|split; [|split]]]).
    + intros i Hne. rewrite !find_update_rows_other by auto with store. auto.
    + unfold update_rows. by rewrite !length_map.
    + rewrite !find_update_rows_same by auto with store. by rewrite Hget1.
    + done.
    + by rewrite !map_app, <- !app_assoc.
    + intros i Hne. rewrite !find_update_rows_other by auto with store. auto.
    + unfold update_rows. by rewrite !length_map.
    + rewrite !find_update_rows_same by auto with store. by rewrite Hget1.
    + done.
    + by rewrite !map_app, <- !app_assoc.
Qed.

Lemma run_once_outcome_witness :
  pk_unique (db world_pending) /\
  t_select (at_instant 200 "dlq-1") <= t_check (at_instant 200 "dlq-1") /\
  (run_once "worker-1" boom (at_instant 200 "dlq-1") 300 world_pending).1 =
    Ok true.
Proof.
  assert (t_select (at_instant 200 "dlq-1") <= t_check (at_instant 200 "dlq-1"))
    as Hle by (cbn; lia).
  split; [exact pk_unique_store_pending|]. split; [exact Hle|].
  pose proof (run_once_outcome "worker-1" boom (at_instant 200 "dlq-1") 300
                world_pending pk_unique_store_pending Hle) as H.
  change (dequeue (t_select (at_instant 200 "dlq-1")) "worker-1"
            (db world_pending)) with (Some job1) in H.
  exact (proj1 H).
Defined.

(** ** The archive *)

Lemma archived_mono st st' j j' :
  (forall row, row ∈ dlq st -> row ∈ dlq st') ->
  job_id j' = job_id j -> tenant_id j' = tenant_id j ->
  payload j' = payload j -> trace_id j' = trace_id j ->
  archived st j -> archived st' j'.
Proof.
  intros Hsub Hi Ht Hp Htr (row & Hin & ? & ? & ? & ?).
  exists row. split; [auto|]. repeat split; congruence.
Qed.

Lemma dlq_jobs_archived_update c f st d' :
  keeps_identity f ->
  (forall row, row ∈ dlq st -> row ∈ d') ->
  (forall k, k ∈ jobs st -> c k = true -> status (f k) = DLQ ->
     archived {| jobs := update_rows c f (jobs st); dlq := d' |} (f k)) ->
  dlq_jobs_archived st ->
  dlq_jobs_archived {| jobs := update_rows c f (jobs st); dlq := d' |}.
Proof.
  intros Hf Hsub Hnew Hinv j' Hj' Hs. cbn [jobs] in Hj'.
  unfold update_rows in Hj'. apply list_elem_of_fmap in Hj' as (k & -> & Hk).
  destruct (c k) eqn:E; [by apply Hnew|].
  eapply archived_mono; [exact Hsub|done..|]. by apply Hinv.
Qed.

Lemma keeps_identity_set_status now s msg : keeps_identity (set_status now s msg).
Proof. by intros j. Qed.

Lemma keeps_identity_set_lease e s : keeps_identity (set_lease e s).
Proof. by intros j. Qed.

Lemma keeps_identity_bump : keeps_identity bump.
Proof. by intros j. Qed.

#[local] Hint Resolve keeps_identity_set_status keeps_identity_set_lease
  keeps_identity_bump : store.

Lemma step_dlq_jobs_archived st st' :
  step st st' -> pk_unique st ->
  dlq_jobs_archived st -> dlq_jobs_archived st'.
Proof.
  intros Hstep Hpk Hinv. destruct Hstep as
    [fid now tr user p key retries st r st' Hr Hs
    |e c s i ttl st
    |now i success msg st
    |i j st Hj Hc
    |fid t1 t2 j msg st Hj Hc].
  - apply submit_job_store in Hs as [->|[Hfresh ->]]; [done|].
    intros k Hk Hst. cbn [jobs] in Hk. apply elem_of_app in Hk as [Hk|Hk].
    + eapply archived_mono; [|done..|by apply Hinv]. done.
    + apply list_elem_of_singleton in Hk. by subst k.
  - rewrite acquire_lease_snd.
    apply dlq_jobs_archived_update; auto with store. discriminate.
  - rewrite ack_snd.
    apply dlq_jobs_archived_update; auto with store.
    intros k _ _. by destruct success.
  - rewrite increment_retry_snd.
    apply dlq_jobs_archived_update; auto with store. discriminate.
  - rewrite move_to_dlq_snd.
    apply dlq_jobs_archived_update; auto with store.
    + intros row Hrow. apply elem_of_app. by left.
    + intros k Hk Hid _. apply has_id_true in Hid.
      unfold get_by_id in Hj. apply find_has_id_Some in Hj as [Hjin _].
      assert (k = j) as ->
        by (apply (same_key_same_row (jobs st)); done).
      eexists. split; [apply elem_of_app; right; apply list_elem_of_singleton;
                       reflexivity|].
      done.
Qed.

Lemma step_dlq_grows st st' :
  step st st' -> exists rows, dlq st' = dlq st ++ rows /\ (length rows <= 1)%nat.
Proof.
  intros Hstep. destruct Hstep as
    [fid now tr user p key retries st r st' Hr Hs
    |e c s i ttl st
    |now i success msg st
    |i j st Hj Hc
    |fid t1 t2 j msg st Hj Hc].
  - apply submit_job_store in Hs as [->|[Hfresh ->]];
      exists []; (split; [by rewrite app_nil_r | simpl; lia]).
  - exists []. split; [by rewrite app_nil_r | simpl; lia].
  - exists []. split; [by rewrite ack_snd, app_nil_r | simpl; lia].
  - exists []. split; [by rewrite increment_retry_snd, app_nil_r | simpl; lia].
  - rewrite move_to_dlq_snd. eexists. split; [reflexivity | simpl; lia].
Qed.

Lemma rtc_step_dlq_grows st st' :
  rtc step st st' -> exists rows, dlq st' = dlq st ++ rows.
Proof.
  induction 1 as [st|st st1 st2 Hs _ IH].
  - exists []. by rewrite app_nil_r.
  - destruct (step_dlq_grows _ _ Hs) as (rows1 & H1 & _).
    destruct IH as (rows2 & H2).
    exists (rows1 ++ rows2). by rewrite H2, H1, app_assoc.
Qed.

(** X9.  In every reachable state each job in status DLQ has an archive
    row naming it and carrying its tenant, payload and trace id; and the
    archive only grows: whatever the system does next, the rows already
    archived stay, unchanged and in place, in front of the new ones. *)
Theorem dlq_jobs_have_archive_rows (st : Store) :
  reachable st ->
  (forall j, j ∈ jobs st -> status j = DLQ ->
     exists row, row ∈ dlq st /\ original_job_id row = job_id j /\
                 dlq_tenant_id row = tenant_id j /\
                 dlq_payload row = payload j /\
                 dlq_trace_id row = trace_id j) /\
  (forall st', rtc step st st' -> exists rows, dlq st' = dlq st ++ rows).
Proof.
  intros Hreach. split.
  - assert (pk_unique st /\ dlq_jobs_archived st) as [_ H]; [|exact H].
    revert st Hreach. unfold reachable.
    apply (rtc_ind_r (R:=step)
             (fun st => pk_unique st /\ dlq_jobs_archived st) empty_store).
    + split; [apply NoDup_nil_2 | intros j Hj; inversion Hj].
    + intros y z Hy Hs [Hpk Hinv]. split.
      * by apply (step_invariant y z Hs
                    (reachable_invariant y Hy)).
      * by apply (step_dlq_jobs_archived y z).
  - apply rtc_step_dlq_grows.
Qed.

Lemma reachable_world_job0_done : reachable (db world_job0_done).
Proof.
  unfold reachable.
  eapply rtc_l.
  { apply (step_submit "job-0" 100 "trace-0" tenant1 failing_payload None 0
             empty_store (Ok job0) (db world_job0)); [lia | reflexivity]. }
  apply (run_once_path "worker-1" boom (at_instant 200 "dlq-1") 300 world_job0).
Qed.

Lemma dlq_jobs_have_archive_rows_witness :
  reachable (db world_job0_done) /\
  status <$> get_by_id "job-0" (db world_job0_done) = Some DLQ /\
  forall j, j ∈ jobs (db world_job0_done) -> status j = DLQ ->
    exists row, row ∈ dlq (db world_job0_done) /\
                original_job_id row = job_id j /\
                dlq_tenant_id row = tenant_id j /\
                dlq_payload row = payload j /\ dlq_trace_id row = trace_id j.
Proof.
  split; [exact reachable_world_job0_done|]. split; [reflexivity|].
  exact (proj1 (dlq_jobs_have_archive_rows (db world_job0_done)
                  reachable_world_job0_done)).
Defined.

(** ** First in, first out *)






(** ** Releasing a lease *)

Lemma count_by_status_update_rows s tenant c f st d' :
  (forall j, status (f j) = status j /\ tenant_id (f j) = tenant_id j) ->
  count_by_status s tenant {| jobs := update_rows c f (jobs st); dlq := d' |} =
  count_by_status s tenant st.
Proof.
  intros Hf. rewrite !count_by_status_length. cbn [jobs]. f_equal.
  unfold update_rows. induction (jobs st) as [|j l IH]; [done|].
  cbn [map]. rewrite !filter_cons.
  assert (status_tenant_match s tenant (if c j then f j else j) =
          status_tenant_match s tenant j) as ->.
  { destruct (c j); [|done]. unfold status_tenant_match.
    destruct (Hf j) as [-> ->]. done. }
  destruct (decide _); simpl; by rewrite IH.
Qed.

(** X11.  [release_lease] clears the lease and nothing else: a job that was
    leased and then released is still RUNNING, so it still counts against
    its tenant's quota, no later [acquire_lease] on it succeeds and no
    [dequeue] returns it; other rows are not touched. *)
Theorem release_lease_keeps_job_running (i : UUID) (st : Store)
    (e c s : datetime) (ttl : Z) :
  pk_unique st ->
  (acquire_lease e c s i ttl st).1 = true ->
  let st1 := (acquire_lease e c s i ttl st).2 in
  let st2 := release_lease i st1 in
  (exists j, get_by_id i st = Some j /\
     get_by_id i st1 = Some (set_lease (e + timedelta_seconds ttl) s j) /\
     get_by_id i st2 =
       Some (clear_lease (set_lease (e + timedelta_seconds ttl) s j)) /\
     status (clear_lease (set_lease (e + timedelta_seconds ttl) s j))
       = RUNNING) /\
  (forall e' c' s' ttl', acquire_lease e' c' s' i ttl' st2 = (false, st2)) /\
  (forall now wid k, dequeue now wid st2 = Some k -> job_id k <> i) /\
  (forall sx tenant,
     count_by_status sx tenant st2 = count_by_status sx tenant st1) /\
  (forall i', i' <> i -> get_by_id i' st2 = get_by_id i' st1) /\
  dlq st2 = dlq st.
Proof.
  intros Hpk Hok. cbv zeta.
  apply acquire_lease_true in Hok as (j & Hj & <- & Hl).
  rewrite (acquire_lease_elem e c s ttl st j) by done. cbn [snd].
  set (leased := set_lease (e + timedelta_seconds ttl) s j).
  set (st1 := {| jobs := map (fun k => if has_id (job_id j) k then leased else k)
                           (jobs st); dlq := dlq st |}).
  pose proof (get_by_id_elem st j Hpk Hj) as Hget.
  assert (get_by_id (job_id j) st1 = Some leased) as Hget1.
  { unfold get_by_id in *. cbn [st1 jobs].
    rewrite find_replace_eq by done. by rewrite Hget. }
  assert (forall k, k ∈ jobs (release_lease (job_id j) st1) ->
            job_id k = job_id j -> status k = RUNNING) as Hrun.
  { intros k' Hk' Hid. unfold release_lease in Hk'. cbn [jobs st1] in Hk'.
    unfold update_rows in Hk'.
    apply list_elem_of_fmap in Hk' as (k1 & -> & Hk1).
    apply list_elem_of_fmap in Hk1 as (k & -> & Hk).
    destruct (has_id (job_id j) k) eqn:E.
    - assert (has_id (job_id j) leased = true) as ->
        by (by apply has_id_true). done.
    - rewrite E in Hid |- *. apply has_id_false in E. congruence. }
  split; [|split; [|split; [|split; [|split]]]].
  - exists j. split; [done|]. split; [done|]. split; [|done].
    unfold release_lease.
    rewrite get_by_id_update_rows by auto with store. by rewrite Hget1.
  - intros e' c' s' ttl'.
    assert ((acquire_lease e' c' s' (job_id j) ttl'
               (release_lease (job_id j) st1)).1 = false) as Hf.
    { unfold acquire_lease. cbn [fst]. apply bool_decide_eq_false.
      rewrite rowcount_pos. intros (k & Hk & Hc).
      apply andb_true_iff in Hc as [Hid Hlk]. apply has_id_true in Hid.
      apply leasable_spec in Hlk as [Hs _].
      rewrite (Hrun k Hk Hid) in Hs. discriminate. }
    pose proof (acquire_lease_false _ _ _ _ _ _ Hf) as Hs.
    destruct (acquire_lease e' c' s' (job_id j) ttl' _) as [b s2].
    cbn in *. congruence.
  - intros now wid k Hd Hid. apply dequeue_Some in Hd as (Hk & Hlk & _).
    apply leasable_spec in Hlk as [Hs _].
    rewrite (Hrun k Hk Hid) in Hs. discriminate.
  - intros sx tenant. unfold release_lease.
    by apply count_by_status_update_rows.
  - intros i' Hne. unfold release_lease.
    apply get_by_id_update_rows_ne; auto with store.
  - done.
Qed.

Lemma release_lease_keeps_job_running_witness :
  pk_unique store_pending /\
  (acquire_lease 200 200 200 "job-1" 300 store_pending).1 = true /\
  acquire_lease 900 900 900 "job-1" 300 (release_lease "job-1" store_running) =
    (false, release_lease "job-1" store_running).
Proof.
  split; [exact pk_unique_store_pending|]. split; [reflexivity|].
  destruct (release_lease_keeps_job_running "job-1" store_pending 200 200 200
              300 pk_unique_store_pending eq_refl) as (_ & H & _).
  exact (H 900 900 900 300).
Defined.

(** ** More on the token bucket *)

Lemma total_seconds_nonneg t t' : t <= t' -> (0 <= total_seconds (t' - t))%Q.
Proof.
  intros H. unfold total_seconds.
  assert (inject_Z 0 <= inject_Z (t' - t))%Q as HD
    by (rewrite <- Zle_Qle; lia).
  change (inject_Z 0) with 0%Q in HD.
  remember (inject_Z (t' - t)) as D eqn:HeqD. clear HeqD.
  assert (D / 1000000 == D * (1 # 1000000))%Q as -> by field. lra.
Qed.

Lemma refill_tokens now b :
  tokens (refill now b) =
  Qmin (inject_Z (capacity b))
    (tokens b + total_seconds (now - last_refill b) * refill_rate b)%Q.
Proof. reflexivity. Qed.

Lemma consume_tokens now b :
  tokens (consume now 1 b).2 =
  if Qle_bool 1 (tokens (refill now b))
  then (tokens (refill now b) - 1)%Q else tokens (refill now b).
Proof. rewrite consume_spec. by destruct (Qle_bool _ _). Qed.

(** X12.  The tokens of a bucket never exceed its capacity after a refill
    or a consume.  With a capacity, a refill rate and a balance that are
    not negative and a clock that has not gone back since the last refill,
    [consume] leaves a balance that is not negative either, so the balance
    stays between 0 and the capacity however long the bucket is used.  A
    clock that went back takes tokens away: nothing guards the refill. *)
Theorem consume_keeps_tokens_in_range (now : datetime) (b : TokenBucket) :
  (0 <= inject_Z (capacity b))%Q -> (0 <= refill_rate b)%Q ->
  (0 <= tokens b)%Q -> last_refill b <= now ->
  (0 <= tokens (consume now 1 b).2)%Q /\
  (tokens (consume now 1 b).2 <= inject_Z (capacity (consume now 1 b).2))%Q /\
  (0 <= inject_Z (capacity (consume now 1 b).2))%Q /\
  (0 <= refill_rate (consume now 1 b).2)%Q /\
  last_refill (consume now 1 b).2 = now /\
  (forall earlier b0,
     earlier <= last_refill b0 -> (0 <= refill_rate b0)%Q ->
     (tokens (refill earlier b0) <= tokens b0)%Q) /\
  (forall now' b0,
     (tokens (refill now' b0) <= inject_Z (capacity b0))%Q /\
     (tokens (consume now' 1 b0).2 <= inject_Z (capacity b0))%Q).
Proof.
  intros Hcap Hrate Htok Hclock.
  pose proof (total_seconds_nonneg _ _ Hclock) as Hel.
  assert (0 <= tokens (refill now b))%Q as Hre.
  { rewrite refill_tokens. apply Q.min_glb; [done|].
    pose proof (Qmult_le_0_compat _ _ Hel Hrate). lra. }
  pose proof (refill_tokens_le_capacity now b) as Hle.
  split; [|split; [|split; [|split; [|split; [|split]]]]].
  - rewrite consume_tokens.
    remember (tokens (refill now b)) as tk eqn:Htk in *. clear Htk.
    destruct (Qle_bool 1 tk) eqn:E; [|done].
    apply Qle_bool_iff in E. lra.
  - rewrite consume_tokens.
    destruct (consume_keeps_shape now 1 b) as (-> & _).
    remember (tokens (refill now b)) as tk eqn:Htk in *. clear Htk.
    destruct (Qle_bool 1 tk) eqn:E; [lra | done].
  - by destruct (consume_keeps_shape now 1 b) as (-> & _).
  - by destruct (consume_keeps_shape now 1 b) as (_ & -> & _).
  - by destruct (consume_keeps_shape now 1 b) as (_ & _ & ->).
  - intros earlier b0 Hback Hr0. rewrite refill_tokens.
    eapply Qle_trans; [apply Q.le_min_r|].
    assert (total_seconds (earlier - last_refill b0) <= 0)%Q as Hneg.
    { unfold total_seconds.
      assert (inject_Z (earlier - last_refill b0) <= inject_Z 0)%Q as HD
        by (rewrite <- Zle_Qle; lia).
      change (inject_Z 0) with 0%Q in HD.
      remember (inject_Z (earlier - last_refill b0)) as D eqn:HeqD.
      clear HeqD.
      assert (D / 1000000 == D * (1 # 1000000))%Q as -> by field. lra. }
    assert (0 <= - total_seconds (earlier - last_refill b0))%Q as Hpos by lra.
    pose proof (Qmult_le_0_compat _ _ Hpos Hr0) as Hprod.
    assert (- total_seconds (earlier - last_refill b0) * refill_rate b0 ==
            - (total_seconds (earlier - last_refill b0) * refill_rate b0))%Q
      as Heq by ring.
    rewrite Heq in Hprod. lra.
  - intros now' b0.
    pose proof (refill_tokens_le_capacity now' b0) as Hle0.
    split; [done|]. rewrite consume_tokens.
    remember (tokens (refill now' b0)) as tk eqn:Htk in *. clear Htk.
    destruct (Qle_bool 1 tk) eqn:E; [lra | done].
Qed.

Lemma consume_keeps_tokens_in_range_witness :
  (0 <= inject_Z (capacity bucket5))%Q /\ (0 <= refill_rate bucket5)%Q /\
  (0 <= tokens bucket5)%Q /\ last_refill bucket5 <= 1000000 /\
  (0 <= tokens (consume 1000000%Z 1%Z bucket5).2)%Q /\
  (tokens (consume 1000000%Z 1%Z bucket5).2 <= inject_Z 5)%Q.
Proof.
  assert (0 <= inject_Z (capacity bucket5))%Q as H1 by (vm_compute; discriminate).
  assert (0 <= refill_rate bucket5)%Q as H2 by (vm_compute; discriminate).
  assert (0 <= tokens bucket5)%Q as H3 by (vm_compute; discriminate).
  assert (last_refill bucket5 <= 1000000) as H4 by (vm_compute; discriminate).
  do 4 (split; [assumption|]).
  destruct (consume_keeps_tokens_in_range 1000000 bucket5 H1 H2 H3 H4)
    as (Hlo & Hhi & _).
  split; [exact Hlo | exact Hhi].
Defined.

Lemma consume_below_one now b :
  (inject_Z (capacity b) < 1)%Q -> (consume now 1 b).1 = false.
Proof.
  intros Hcap. rewrite consume_spec.
  pose proof (refill_tokens_le_capacity now b) as Hle.
  destruct (Qle_bool 1 (tokens (refill now b))) eqn:E; [|done].
  apply Qle_bool_iff in E. lra.
Qed.

(** X13.  [reset_bucket] removes the tenant's bucket and no other; it is
    harmless for a tenant without one.  The next [check_rate_limit] for
    that tenant builds a fresh bucket from the rate it is given, so this
    is how a changed rate takes effect, and with a rate of at least one
    and a clock that does not go back that check goes through. *)
Theorem reset_bucket_renews (tenant : string)
    (buckets : gmap string TokenBucket) :
  reset_bucket tenant buckets !! _get_bucket_key tenant = None /\
  (forall other, other <> tenant ->
     reset_bucket tenant buckets !! _get_bucket_key other =
     buckets !! _get_bucket_key other) /\
  (buckets !! _get_bucket_key tenant = None ->
   reset_bucket tenant buckets = buckets) /\
  (forall t_new now rate, exists b,
     (check_rate_limit t_new now tenant rate (reset_bucket tenant buckets)).2
       !! _get_bucket_key tenant = Some b /\
     capacity b = rate /\ refill_rate b = (inject_Z rate / 60)%Q /\
     last_refill b = now) /\
  (forall t_new now rate, t_new <= now -> 1 <= rate ->
     (check_rate_limit t_new now tenant rate (reset_bucket tenant buckets)).1
     = Ok tt).
Proof.
  assert (reset_bucket tenant buckets !! _get_bucket_key tenant = None)
    as Hnone by apply lookup_delete_eq.
  split; [done|]. split; [|split; [|split]].
  - intros other Hne. apply lookup_delete_ne.
    intros Heq. by apply Hne, _get_bucket_key_inj.
  - apply delete_id.
  - intros t_new now rate. rewrite check_rate_limit_lookup.
    rewrite get_or_create_fresh by done. cbn [fst].
    eexists. split; [reflexivity|].
    destruct (consume_keeps_shape now 1
                (new_TokenBucket t_new rate (inject_Z rate / 60)%Q))
      as (-> & -> & ->). done.
  - intros t_new now rate Hclock Hrate.
    pose proof (check_rate_limit_unfold t_new now tenant rate
                  (reset_bucket tenant buckets)) as H.
    cbn zeta in H. rewrite H. cbn [fst].
    rewrite get_or_create_fresh by done. cbn [fst].
    rewrite consume_spec.
    destruct (Qle_bool 1 (tokens (refill now _))) eqn:E; [done|].
    exfalso. apply not_true_iff_false in E. apply E, Qle_bool_iff.
    rewrite refill_tokens.
    cbn [new_TokenBucket tokens capacity refill_rate last_refill].
    assert (1 <= inject_Z rate)%Q as HrQ.
    { change 1%Q with (inject_Z 1). rewrite <- Zle_Qle. lia. }
    pose proof (total_seconds_nonneg _ _ Hclock) as Hel.
    assert (0 <= inject_Z rate / 60)%Q as Hr60.
    { assert (inject_Z rate / 60 == inject_Z rate * (1 # 60))%Q as -> by field.
      lra. }
    pose proof (Qmult_le_0_compat _ _ Hel Hr60) as Hprod.
    apply Q.min_glb; lra.
Qed.

Lemma bucket_shape_after_first_call tenant rate0 t_new now
    (buckets : gmap string TokenBucket) :
  buckets !! _get_bucket_key tenant = None ->
  forall calls, exists b,
    run_checks calls (check_rate_limit t_new now tenant rate0 buckets).2
      !! _get_bucket_key tenant = Some b /\
    capacity b = rate0 /\ refill_rate b = (inject_Z rate0 / 60)%Q.
Proof.
  intros Hfresh calls.
  assert (exists b1,
    (check_rate_limit t_new now tenant rate0 buckets).2
      !! _get_bucket_key tenant = Some b1 /\
    capacity b1 = rate0 /\ refill_rate b1 = (inject_Z rate0 / 60)%Q)
    as (b1 & Hb1 & Hc1 & Hr1).
  { rewrite check_rate_limit_lookup, get_or_create_fresh by done. cbn [fst].
    eexists. split; [reflexivity|].
    destruct (consume_keeps_shape now 1
                (new_TokenBucket t_new rate0 (inject_Z rate0 / 60)%Q))
      as (-> & -> & _). done. }
  destruct (run_checks_keeps_shape calls _ _ b1 Hb1) as (b & Hb & Hc & Hr).
  exists b. split; [exact Hb|]. split; congruence.
Qed.

(** X14.  A bucket whose capacity is below one never lets a request
    through.  So a tenant whose first [check_rate_limit] came with a
    [rate_per_minute] of zero or less is refused on that call and on every
    later one, whatever rate the later calls carry and however much time
    passes, until the bucket is reset. *)
Theorem nonpositive_rate_refuses_forever (tenant : string) (rate0 : Z)
    (buckets : gmap string TokenBucket) :
  buckets !! _get_bucket_key tenant = None -> rate0 <= 0 ->
  (forall t_new now,
     (check_rate_limit t_new now tenant rate0 buckets).1 =
     Raise (RateLimitExceededError (rate_limit_msg rate0))) /\
  (forall t_new now calls t_new' now' rate',
     (check_rate_limit t_new' now' tenant rate'
        (run_checks calls
           (check_rate_limit t_new now tenant rate0 buckets).2)).1 =
     Raise (RateLimitExceededError (rate_limit_msg rate'))).
Proof.
  intros Hfresh Hrate.
  assert (inject_Z rate0 < 1)%Q as HrQ.
  { change 1%Q with (inject_Z 1). rewrite <- Zlt_Qlt. lia. }
  split.
  - intros t_new now.
    pose proof (check_rate_limit_unfold t_new now tenant rate0 buckets) as H.
    cbn zeta in H. rewrite H. cbn [fst].
    rewrite get_or_create_fresh by done. cbn [fst].
    by rewrite consume_below_one.
  - intros t_new now calls t_new' now' rate'.
    destruct (bucket_shape_after_first_call tenant rate0 t_new now buckets
                Hfresh calls) as (b & Hb & Hc & _).
    pose proof (check_rate_limit_unfold t_new' now' tenant rate'
                  (run_checks calls
                     (check_rate_limit t_new now tenant rate0 buckets).2))
      as H.
    cbn zeta in H. rewrite H. cbn [fst].
    rewrite (get_or_create_existing _ _ _ _ b Hb). cbn [fst].
    rewrite consume_below_one; [done|]. by rewrite Hc.
Qed.

Lemma nonpositive_rate_refuses_forever_witness :
  (∅ : gmap string TokenBucket) !! _get_bucket_key "t1" = None /\ 0 <= 0 /\
  (check_rate_limit 86400000000 86400000000 "t1" 100
     (check_rate_limit 0 0 "t1" 0 ∅).2).1 =
  Raise (RateLimitExceededError (rate_limit_msg 100)).
Proof.
  split; [apply lookup_empty|]. split; [lia|].
  destruct (nonpositive_rate_refuses_forever "t1" 0 ∅ (lookup_empty _)
              (Z.le_refl 0)) as [_ H].
  exact (H 0 0 [] 86400000000 86400000000 100).
Defined.

Lemma refill_same_instant now b :
  last_refill b = now -> (tokens b <= inject_Z (capacity b))%Q ->
  (tokens (refill now b) == tokens b)%Q.
Proof.
  intros Hl Hle. rewrite refill_tokens, Hl, Z.sub_diag.
  assert (tokens b + total_seconds 0 * refill_rate b == tokens b)%Q as Heq.
  { unfold total_seconds. change (inject_Z 0) with 0%Q. field. }
  rewrite Heq. apply Q.min_r. exact Hle.
Qed.

Lemma consume_times_S k now b :
  consume_times (S k) now b = (consume now 1 (consume_times k now b)).2.
Proof. reflexivity. Qed.

Lemma consume_times_state (c : Z) (now : datetime) (k : nat) :
  0 <= c ->
  let bk := consume_times k now
              (new_TokenBucket now c (inject_Z c / 60)%Q) in
  capacity bk = c /\ last_refill bk = now /\
  (tokens bk == inject_Z (Z.max 0 (c - Z.of_nat k)))%Q.
Proof.
  intros Hc. cbv zeta. induction k as [|k (Hcap & Hlast & Htok)].
  - split; [done|]. split; [done|].
    cbn [consume_times Nat.iter new_TokenBucket tokens].
    replace (Z.max 0 (c - Z.of_nat 0)) with c by lia. reflexivity.
  - rewrite consume_times_S.
    set (bk := consume_times k now _) in *.
    destruct (consume_keeps_shape now 1 bk) as (-> & _ & ->).
    split; [done|]. split; [done|].
    rewrite consume_tokens.
    assert (tokens bk <= inject_Z (capacity bk))%Q as Hle.
    { rewrite Htok, Hcap, <- Zle_Qle. lia. }
    pose proof (refill_same_instant now bk Hlast Hle) as Hre.
    rewrite Htok in Hre.
    remember (tokens (refill now bk)) as tr eqn:Htr. clear Htr.
    destruct (Qle_bool 1 tr) eqn:E.
    + apply Qle_bool_iff in E. rewrite Hre in E |- *.
      change 1%Q with (inject_Z 1) in *. rewrite <- Zle_Qle in E.
      unfold Qminus. rewrite <- inject_Z_opp, <- inject_Z_plus.
      replace (Z.max 0 (c - Z.of_nat k) + - (1))
        with (Z.max 0 (c - Z.of_nat (S k))) by lia.
      reflexivity.
    + assert (~ (1 <= tr)%Q) as Hn
        by (intros H; apply Qle_bool_iff in H; congruence).
      rewrite Hre in Hn |- *.
      change 1%Q with (inject_Z 1) in Hn. rewrite <- Zle_Qle in Hn.
      replace (Z.max 0 (c - Z.of_nat (S k)))
        with (Z.max 0 (c - Z.of_nat k)) by lia.
      reflexivity.
Qed.

Lemma consume_at_instant (now : datetime) (b : TokenBucket) (n : Z) :
  last_refill b = now -> n <= capacity b -> (tokens b == inject_Z n)%Q ->
  (consume now 1 b).1 = bool_decide (0 < n).
Proof.
  intros Hlast Hcap Htok. rewrite consume_spec.
  assert (tokens b <= inject_Z (capacity b))%Q as Hle
    by (by rewrite Htok, <- Zle_Qle).
  pose proof (refill_same_instant now b Hlast Hle) as Hre.
  rewrite Htok in Hre.
  remember (tokens (refill now b)) as tr eqn:Htr. clear Htr.
  destruct (Qle_bool 1 tr) eqn:E; cbn [fst]; symmetry.
  - apply Qle_bool_iff in E. rewrite Hre in E.
    change 1%Q with (inject_Z 1) in E. rewrite <- Zle_Qle in E.
    apply bool_decide_eq_true. lia.
  - assert (~ (1 <= tr)%Q) as Hn
      by (intros H; apply Qle_bool_iff in H; congruence).
    rewrite Hre in Hn.
    change 1%Q with (inject_Z 1) in Hn. rewrite <- Zle_Qle in Hn.
    apply bool_decide_eq_false. lia.
Qed.

(** X15.  A full bucket lets through exactly as many requests at one
    instant as its capacity: of the consumes made at the instant the
    bucket was built, the first [capacity] succeed and every later one
    fails. *)
Theorem burst_is_capacity (c : Z) (now : datetime) (k : nat) :
  0 <= c ->
  (consume now 1
     (consume_times k now (new_TokenBucket now c (inject_Z c / 60)%Q))).1 =
  bool_decide (Z.of_nat k < c).
Proof.
  intros Hc.
  destruct (consume_times_state c now k Hc) as (Hcap & Hlast & Htok).
  rewrite (consume_at_instant now _ (Z.max 0 (c - Z.of_nat k)) Hlast)
    by (rewrite ?Hcap; done || lia).
  apply bool_decide_ext. lia.
Qed.

Lemma burst_is_capacity_witness :
  0 <= 3 /\
  (consume 0 1 (consume_times 2 0 (new_TokenBucket 0 3 (inject_Z 3 / 60)%Q))).1
    = true /\
  (consume 0 1 (consume_times 3 0 (new_TokenBucket 0 3 (inject_Z 3 / 60)%Q))).1
    = false.
Proof.
  assert (0 <= 3) as H by lia. split; [exact H|].
  split; [exact (burst_is_capacity 3 0 2 H) | exact (burst_is_capacity 3 0 3 H)].
Defined.

(** ** Subscribing and unsubscribing *)

Lemma subscribers_of_lookup {W} (t : string)
    (m : gmap string (list (Handler W))) :
  (subscribers_of t m).1 = default [] (m !! t) /\
  (subscribers_of t m).2 !! t = Some (default [] (m !! t)) /\
  (forall t', t' <> t -> (subscribers_of t m).2 !! t' = m !! t').
Proof.
  unfold subscribers_of. destruct (m !! t) as [hs|] eqn:E; cbn.
  - done.
  - split; [done|]. split; [apply lookup_insert_eq|].
    intros t' Hne. by apply lookup_insert_ne.
Qed.

Lemma list_remove_not_subscribed {W} (h : Handler W) hs :
  not_subscribed h hs ->
  list_remove h hs = hs /\ existsb (fun k => same_handler k h) hs = false.
Proof.
  induction 1 as [|k hs Hk _ [IH1 IH2]]; [done|].
  cbn [list_remove existsb]. rewrite IH1, IH2.
  unfold same_handler. by rewrite bool_decide_eq_false_2.
Qed.

Lemma list_remove_app_new {W} (h : Handler W) hs tl :
  not_subscribed h hs ->
  list_remove h (hs ++ h :: tl) = hs ++ tl /\
  existsb (fun k => same_handler k h) (hs ++ h :: tl) = true.
Proof.
  induction 1 as [|k hs Hk _ [IH1 IH2]]; cbn [list_remove existsb app].
  - unfold same_handler. by rewrite bool_decide_eq_true_2.
  - rewrite IH1, IH2.
    unfold same_handler. by rewrite bool_decide_eq_false_2.
Qed.

Lemma subscribe_lookup {W} (t : string) (h : Handler W) (b : Bus W) :
  _subscribers (subscribe t h b) !! t =
    Some (default [] (_subscribers b !! t) ++ [h]) /\
  (forall t', t' <> t ->
     _subscribers (subscribe t h b) !! t' = _subscribers b !! t') /\
  world (subscribe t h b) = world b /\ stdout (subscribe t h b) = stdout b.
Proof.
  unfold subscribe.
  destruct (subscribers_of_lookup t (_subscribers b)) as (H1 & _ & H3).
  destruct (subscribers_of t (_subscribers b)) as [hs m]. cbn in *.
  subst hs. split; [apply lookup_insert_eq|]. split; [|done].
  intros t' Hne. rewrite lookup_insert_ne by done. by apply H3.
Qed.

Lemma unsubscribe_lookup {W} (t : string) (h : Handler W) (b : Bus W) :
  _subscribers (unsubscribe t h b) !! t =
    Some (list_remove h (default [] (_subscribers b !! t))) /\
  (forall t', t' <> t ->
     _subscribers (unsubscribe t h b) !! t' = _subscribers b !! t') /\
  world (unsubscribe t h b) = world b /\ stdout (unsubscribe t h b) = stdout b.
Proof.
  unfold unsubscribe.
  destruct (subscribers_of_lookup t (_subscribers b)) as (H1 & H2 & H3).
  destruct (subscribers_of t (_subscribers b)) as [hs m]. cbn in *.
  subst hs. set (hs := default [] (_subscribers b !! t)) in *.
  destruct (existsb (fun k => same_handler k h) hs) eqn:E.
  - split; [apply lookup_insert_eq|]. split; [|done].
    intros t' Hne. rewrite lookup_insert_ne by done. by apply H3.
  - split; [|split; [exact H3 | done]].
    rewrite H2. f_equal. clear -E.
    induction hs as [|k hs IH]; [done|]. cbn [list_remove existsb] in *.
    apply orb_false_iff in E as [E1 E2]. rewrite E1. f_equal. by apply IH.
Qed.

Lemma publish_world {W} (t : string) (data : EventData) (b : Bus W) :
  (publish t data b).1 = Ok tt /\
  world (publish t data b).2 =
    foldl (invoke data) (world b) (default [] (_subscribers b !! t)).
Proof.
  unfold publish.
  destruct (subscribers_of_lookup t (_subscribers b)) as (H1 & _).
  destruct (subscribers_of t (_subscribers b)) as [hs m]. cbn in H1. subst hs.
  destruct (for_each_handlers t data (default [] (_subscribers b !! t))
              {| _subscribers := m; world := world b; stdout := stdout b |})
    as (Hr & Hw & _).
  done.
Qed.

(** X16.  [subscribe] puts the handler at the end of the topic's list, so
    a publish runs it after the handlers that were there, on the world
    they left.  [unsubscribe] takes out the earliest entry of the handler
    and only that one: it undoes a [subscribe] of a handler that was not
    subscribed before, it leaves one entry of a handler subscribed twice,
    and for a handler that is not subscribed it changes no list.  Neither
    touches another topic. *)
Theorem subscribe_unsubscribe_round_trip {W} (t : string) (h : Handler W)
    (b : Bus W) :
  let hs := default [] (_subscribers b !! t) in
  not_subscribed h hs ->
  _subscribers (unsubscribe t h (subscribe t h b)) !! t = Some hs /\
  _subscribers (unsubscribe t h (subscribe t h (subscribe t h b))) !! t =
    Some (hs ++ [h]) /\
  _subscribers (unsubscribe t h b) !! t = Some hs /\
  (forall data,
     world (publish t data (subscribe t h b)).2 =
     invoke data (world (publish t data b).2) h) /\
  (forall data,
     world (publish t data (unsubscribe t h (subscribe t h b))).2 =
     world (publish t data b).2) /\
  (forall t', t' <> t ->
     _subscribers (subscribe t h b) !! t' = _subscribers b !! t' /\
     _subscribers (unsubscribe t h b) !! t' = _subscribers b !! t').
Proof.
  intros hs Hnot.
  destruct (subscribe_lookup t h b) as (Hs1 & Hs2 & Hs3 & _). fold hs in Hs1.
  destruct (unsubscribe_lookup t h (subscribe t h b)) as (Hu1 & _ & Hu3 & _).
  rewrite Hs1 in Hu1. cbn [from_option id] in Hu1.
  destruct (list_remove_app_new h hs [] Hnot) as [Hrm _].
  rewrite Hrm, app_nil_r in Hu1.
  split; [exact Hu1|]. split; [|split; [|split; [|split]]].
  - destruct (subscribe_lookup t h (subscribe t h b)) as (Hss & _).
    rewrite Hs1 in Hss. cbn [from_option id] in Hss.
    destruct (unsubscribe_lookup t h (subscribe t h (subscribe t h b)))
      as (Huu & _).
    rewrite Hss in Huu. cbn [from_option id] in Huu.
    rewrite <- app_assoc in Huu. cbn [app] in Huu.
    destruct (list_remove_app_new h hs [h] Hnot) as [Hrm2 _].
    by rewrite Hrm2 in Huu.
  - destruct (unsubscribe_lookup t h b) as (Hu & _). fold hs in Hu.
    by rewrite (proj1 (list_remove_not_subscribed h hs Hnot)) in Hu.
  - intros data.
    destruct (publish_world t data (subscribe t h b)) as [_ ->].
    destruct (publish_world t data b) as [_ ->].
    rewrite Hs1, Hs3. cbn [from_option id]. fold hs. by rewrite foldl_app.
  - intros data.
    destruct (publish_world t data (unsubscribe t h (subscribe t h b)))
      as [_ ->].
    destruct (publish_world t data b) as [_ ->].
    rewrite Hu1, Hu3, Hs3. done.
  - intros t' Hne. split; [by apply Hs2|].
    destruct (unsubscribe_lookup t h b) as (_ & Hu2 & _). by apply Hu2.
Qed.

Lemma subscribe_unsubscribe_round_trip_witness :
  let b := subscribe "job_submitted" raising_handler
             {| _subscribers := ∅; world := 0%nat; stdout := [] |} in
  not_subscribed counting_handler
    (default [] (_subscribers b !! "job_submitted")) /\
  _subscribers
    (unsubscribe "job_submitted" counting_handler
       (subscribe "job_submitted" counting_handler b))
    !! "job_submitted" = Some [raising_handler].
Proof.
  intros b.
  assert (not_subscribed counting_handler
            (default [] (_subscribers b !! "job_submitted")))
    as H by (vm_compute; repeat constructor; discriminate).
  split; [exact H|].
  exact (proj1 (subscribe_unsubscribe_round_trip "job_submitted"
                  counting_handler b H)).
Defined.

(** ** Leases and the quota *)

Lemma count_by_status_jobs s tenant l d l' d' :
  l = l' ->
  count_by_status s tenant {| jobs := l; dlq := d |} =
  count_by_status s tenant {| jobs := l'; dlq := d' |}.
Proof. by intros ->. Qed.

Lemma length_filter_update_one (P : Job -> Prop) `{!forall j, Decision (P j)}
    (c : Job -> bool) (f : Job -> Job) (l : list Job) (j : Job) :
  NoDup (map job_id l) -> j ∈ l -> c j = true ->
  (forall k, c k = true -> job_id k = job_id j) ->
  (length (filter P (update_rows c f l)) + (if decide (P j) then 1 else 0) =
   length (filter P l) + (if decide (P (f j)) then 1 else 0))%nat.
Proof.
  intros Hnd Hin Hc Hid. induction l as [|k l IH]; [inversion Hin|].
  cbn [map] in Hnd. apply NoDup_cons in Hnd as [Hk Hnd].
  unfold update_rows in *. cbn [map].
  apply elem_of_cons in Hin as [<-|Hin'].
  - rewrite Hc.
    assert (map (fun j0 => if c j0 then f j0 else j0) l = l) as ->.
    { apply (update_rows_none c f). intros x Hx.
      destruct (c x) eqn:E; [|done]. exfalso. apply Hk.
      rewrite <- (Hid x E). apply list_elem_of_fmap. eauto. }
    rewrite !filter_cons.
    destruct (decide (P j)), (decide (P (f j))); cbn [length]; lia.
  - assert (c k = false) as ->.
    { destruct (c k) eqn:E; [|done]. exfalso. apply Hk.
      rewrite (Hid k E). apply list_elem_of_fmap. eauto. }
    specialize (IH Hnd Hin'). rewrite !filter_cons.
    destruct (decide (P k)); cbn [length]; lia.
Qed.

Lemma counted_for_spec s tenant (j : Job) :
  (if decide ((fun k => status k = s /\
                 (truthy (Some tenant) = true -> tenant_id k = tenant)) j)
   then 1 else 0) =
  (if decide (status j = s) then counted_for tenant j else 0).
Proof.
  unfold counted_for. cbn beta.
  destruct (decide (status j = s)) as [Hs|Hs].
  - destruct (decide (tenant = "")) as [->|Hne].
    + rewrite decide_True, bool_decide_eq_true_2; [done|by left|].
      split; [done|]. cbn. discriminate.
    + assert (truthy (Some tenant) = true) as Ht by by apply truthy_Some.
      destruct (decide (tenant = tenant_id j)) as [He|He].
      * rewrite decide_True, bool_decide_eq_true_2; [done|by right|].
        by split.
      * rewrite decide_False, bool_decide_eq_false_2; [done|tauto|].
        intros [_ H]. by specialize (H Ht).
  - rewrite decide_False; [done | tauto].
Qed.

Lemma count_by_status_filter s tenant st :
  count_by_status s (Some tenant) st =
  Z.of_nat (length (filter (fun k => status k = s /\
              (truthy (Some tenant) = true -> tenant_id k = tenant))
              (jobs st))).
Proof.
  unfold count_by_status. f_equal. f_equal.
  destruct (truthy (Some tenant)) eqn:Ht.
  - rewrite list_filter_filter. apply list_filter_iff. intros k.
    split; [intros [[= ?] ?] | intros [? H]]; [tauto|].
    split; [f_equal; by apply H | done].
  - apply list_filter_iff. intros k. split; [by intros ?|tauto].
Qed.

Lemma count_by_status_update_one s tenant c f st j :
  pk_unique st -> j ∈ jobs st -> c j = true ->
  (forall k, c k = true -> job_id k = job_id j) ->
  tenant_id (f j) = tenant_id j ->
  count_by_status s (Some tenant)
    {| jobs := update_rows c f (jobs st); dlq := dlq st |} =
  count_by_status s (Some tenant) st
  - (if decide (status j = s) then counted_for tenant j else 0)
  + (if decide (status (f j) = s) then counted_for tenant j else 0).
Proof.
  intros Hpk Hin Hc Hid Hten. rewrite !count_by_status_filter. cbn [jobs].
  pose proof (length_filter_update_one
    (fun k => status k = s /\
              (truthy (Some tenant) = true -> tenant_id k = tenant))
    c f (jobs st) j Hpk Hin Hc Hid) as H.
  pose proof (counted_for_spec s tenant j) as E1.
  pose proof (counted_for_spec s tenant (f j)) as E2.
  assert (counted_for tenant (f j) = counted_for tenant j) as E3
    by (unfold counted_for; by rewrite Hten).
  rewrite E3 in E2. cbn beta in *.
  destruct (decide (status j = s /\ _)), (decide (status (f j) = s /\ _));
    lia.
Qed.

(** X17.  The quota counts leases, not submissions.  A call of
    [submit_job], whatever it returns, leaves every tenant's number of
    running jobs as it was.  A successful [acquire_lease] moves one job of
    one tenant from PENDING to RUNNING: the running count of that tenant
    (and the count over all tenants, which the empty tenant id gives) grows
    by one, its pending count falls by one, and the counts of every other
    tenant stay.  If that brings the tenant to [max_concurrent_jobs], its
    next submission is refused with the quota error and writes nothing. *)
Theorem lease_counts_against_quota e c s (i : UUID) (ttl : Z) (st : Store) :
  pk_unique st ->
  (acquire_lease e c s i ttl st).1 = true ->
  let st1 := (acquire_lease e c s i ttl st).2 in
  (forall fid now tr user p key retries tenant,
     count_running_jobs tenant
       (submit_job fid now tr user p key retries st).2 =
     count_running_jobs tenant st) /\
  exists j,
    get_by_id i st = Some j /\ status j = PENDING /\
    (forall tenant,
       count_running_jobs tenant st1 =
       count_running_jobs tenant st + counted_for tenant j) /\
    (forall tenant,
       count_by_status PENDING (Some tenant) st1 =
       count_by_status PENDING (Some tenant) st - counted_for tenant j) /\
    (forall fid now tr user p key retries,
       user_id user = tenant_id j ->
       max_concurrent_jobs user <=
         count_running_jobs (user_id user) st + 1 ->
       submit_job fid now tr user p key retries st1 =
       (Raise (QuotaExceededError
                 (quota_msg (count_running_jobs (user_id user) st + 1)
                    (max_concurrent_jobs user))), st1)).
Proof.
  intros Hpk Hok st1. split.
  { intros fid now tr user p key retries tenant.
    destruct (submit_job fid now tr user p key retries st) as [r st'] eqn:E.
    apply submit_job_store in E as [->|[_ ->]]; [done|].
    cbn [snd]. by apply count_running_jobs_insert. }
  destruct (acquire_lease_true _ _ _ _ _ _ Hok) as (j & Hin & Hid & Hl).
  pose proof Hl as Hl'. apply leasable_spec in Hl' as [Hpend _].
  exists j. split; [subst i; by apply get_by_id_elem|]. split; [done|].
  assert (forall s' tenant,
    count_by_status s' (Some tenant) st1 =
    count_by_status s' (Some tenant) st
    - (if decide (status j = s') then counted_for tenant j else 0)
    + (if decide (RUNNING = s') then counted_for tenant j else 0)) as Hcount.
  { intros s' tenant. subst st1. rewrite acquire_lease_snd.
    rewrite (count_by_status_update_one s' tenant _ _ st j Hpk Hin); try done.
    - apply andb_true_iff. split; [by apply has_id_true | done].
    - intros k Hk. apply andb_true_iff in Hk as [Hk _].
      apply has_id_true in Hk. congruence. }
  assert (forall tenant,
    count_running_jobs tenant st1 =
    count_running_jobs tenant st + counted_for tenant j) as Hrun.
  { intros tenant. unfold count_running_jobs. rewrite Hcount, Hpend.
    rewrite decide_False, decide_True by done. lia. }
  split; [exact Hrun|]. split.
  - intros tenant. rewrite Hcount, Hpend.
    rewrite decide_True, decide_False by done. lia.
  - intros fid now tr user p key retries Hu Hmax.
    rewrite submit_job_cases, Hrun.
    assert (counted_for (user_id user) j = 1) as ->.
    { unfold counted_for. rewrite bool_decide_eq_true_2; [done | by right]. }
    by rewrite (proj2 (Z.leb_le _ _) Hmax).
Qed.

Lemma lease_counts_against_quota_witness :
  pk_unique store_pending /\
  (acquire_lease 200 200 200 "job-1" 300 store_pending).1 = true /\
  count_running_jobs "t1" store_running = 1 /\
  count_running_jobs "t2" store_running = 0.
Proof.
  assert ((acquire_lease 200 200 200 "job-1" 300 store_pending).1 = true)
    as Hok by (vm_compute; reflexivity).
  split; [exact pk_unique_store_pending|]. split; [exact Hok|].
  destruct (lease_counts_against_quota 200 200 200 "job-1" 300 store_pending
              pk_unique_store_pending Hok) as [_ (j & Hj & _ & Hrun & _)].
  vm_compute in Hj. injection Hj as <-.
  unfold store_running. rewrite (Hrun "t1"), (Hrun "t2").
  split; vm_compute; reflexivity.
Defined.

(** ** retry_with_backoff *)

Section RetryProofs.
Context {St A F : Type}.
Context (fmul : F -> F -> F) (func : ST St A).
Context (max_retries : Z) (backoff_factor : F).

Lemma after_calls_S n s :
  after_calls func (S n) s = after_calls func n ((func s).2).
Proof. unfold after_calls. by rewrite Nat.iter_succ_r. Qed.

Lemma sleeps_app (t1 t2 : list (RetryEffect F)) :
  sleeps (t1 ++ t2) = sleeps t1 ++ sleeps t2.
Proof. unfold sleeps. apply omap_app. Qed.

Lemma seqZ_attempts start :
  start <= max_retries ->
  seqZ start (max_retries + 1 - start) =
  start :: seqZ (start + 1) (max_retries + 1 - (start + 1)).
Proof.
  intros H. rewrite seqZ_cons by lia. f_equal. f_equal; lia.
Qed.

Lemma wrapper_loop_returns (k : nat) : forall start delay last s trace a,
  0 <= start -> start + Z.of_nat k <= max_retries ->
  (forall i, (i < k)%nat -> raises_at func s i) ->
  (func (after_calls func k s)).1 = Ok a ->
  exists tr,
    wrapper_loop fmul func max_retries backoff_factor
      (seqZ start (max_retries + 1 - start)) delay last s trace =
    (WrapperReturned a, after_calls func (S k) s, trace ++ tr) /\
    sleeps tr = backoff_delays fmul k delay backoff_factor /\
    length tr = (2 * k)%nat /\
    (forall e, LogRetryExhausted e ∉ tr).
Proof.
  induction k as [|k IH]; intros start delay last s trace a H0 Hk Hfail Hok.
  - exists []. rewrite seqZ_attempts by lia. cbn [wrapper_loop].
    cbn in Hok. cbn. destruct (func s) as [[x|e] s']; [|discriminate].
    cbn in Hok. injection Hok as ->. rewrite app_nil_r.
    split; [done|]. split; [done|]. split; [done|].
    intros e He. inversion He.
  - rewrite seqZ_attempts by lia. cbn [wrapper_loop].
    destruct (Hfail 0%nat ltac:(lia)) as [e He]. cbn in He.
    rewrite after_calls_S in Hok. rewrite !after_calls_S.
    destruct (func s) as [[x|e'] s'] eqn:Hs; [discriminate|].
    cbn in He. injection He as ->. cbn [snd] in *.
    rewrite (proj2 (Z.ltb_lt start max_retries)) by lia.
    destruct (IH (start + 1) (fmul delay backoff_factor) (Some e) s'
                (trace ++ [LogRetryAttempt (start + 1) delay e; Sleep delay])
                a ltac:(lia) ltac:(lia)) as (tr & Hrun & Hsl & Hlen & Hno).
    + intros i Hi. destruct (Hfail (S i) ltac:(lia)) as [e' He'].
      exists e'. by rewrite after_calls_S, Hs in He'.
    + exact Hok.
    + exists ([LogRetryAttempt (start + 1) delay e; Sleep delay] ++ tr).
      rewrite Hrun, after_calls_S, <- app_assoc.
      split; [done|]. split; [|split].
      * rewrite sleeps_app, Hsl. done.
      * rewrite length_app, Hlen. cbn [length]. lia.
      * intros e' Hin. apply elem_of_app in Hin as [Hin|Hin].
        -- apply elem_of_cons in Hin as [?|Hin]; [discriminate|].
           apply elem_of_cons in Hin as [?|Hin]; [discriminate|].
           inversion Hin.
        -- by apply (Hno e').
Qed.

Lemma wrapper_loop_exhausted (k : nat) : forall start delay last s trace e,
  0 <= start -> start + Z.of_nat k = max_retries ->
  (forall i, (i <= k)%nat -> raises_at func s i) ->
  (func (after_calls func k s)).1 = Raise e ->
  exists tr,
    wrapper_loop fmul func max_retries backoff_factor
      (seqZ start (max_retries + 1 - start)) delay last s trace =
    (WrapperRaised e, after_calls func (S k) s,
     trace ++ tr ++ [LogRetryExhausted e]) /\
    sleeps tr = backoff_delays fmul k delay backoff_factor /\
    length tr = (2 * k)%nat.
Proof.
  induction k as [|k IH]; intros start delay last s trace e H0 Hk Hfail Hlast.
  - exists []. rewrite seqZ_attempts by lia. cbn [wrapper_loop].
    unfold after_calls in *. cbn [Nat.iter nat_rect] in *.
    destruct (func s) as [[x|e'] s']; [discriminate|].
    cbn in Hlast. injection Hlast as ->.
    rewrite (proj2 (Z.ltb_ge start max_retries)) by lia.
    replace (max_retries + 1 - (start + 1)) with 0 by lia.
    change (seqZ (start + 1) 0) with (@nil Z). cbn. done.
  - rewrite seqZ_attempts by lia. cbn [wrapper_loop].
    destruct (Hfail 0%nat ltac:(lia)) as [e0 He]. cbn in He.
    rewrite after_calls_S in Hlast. rewrite !after_calls_S.
    destruct (func s) as [[x|e'] s'] eqn:Hs; [discriminate|].
    cbn in He. injection He as ->. cbn [snd] in *.
    rewrite (proj2 (Z.ltb_lt start max_retries)) by lia.
    destruct (IH (start + 1) (fmul delay backoff_factor) (Some e0) s'
                (trace ++ [LogRetryAttempt (start + 1) delay e0; Sleep delay])
                e ltac:(lia) ltac:(lia)) as (tr & Hrun & Hsl & Hlen).
    + intros i Hi. destruct (Hfail (S i) ltac:(lia)) as [e' He'].
      exists e'. by rewrite after_calls_S, Hs in He'.
    + exact Hlast.
    + exists ([LogRetryAttempt (start + 1) delay e0; Sleep delay] ++ tr).
      rewrite Hrun, after_calls_S, <- !app_assoc.
      split; [done|]. split.
      * rewrite sleeps_app, Hsl. done.
      * rewrite length_app, Hlen. cbn [length]. lia.
Qed.

End RetryProofs.

(** X18.  The wrapper of [retry_with_backoff] calls the function at most
    [max_retries + 1] times, each call on the state the one before left.
    If the first [k <= max_retries] calls raise and the next returns, the
    wrapper returns that value after [k] sleeps, the first of
    [initial_delay] and each next one the one before times
    [backoff_factor], and logs nothing as exhausted.  If all
    [max_retries + 1] calls raise, it sleeps [max_retries] times, not
    after the last call, logs the exhaustion and raises the last
    exception.  With a negative [max_retries] the function is never
    called and the wrapper ends in the [TypeError] of [raise None]. *)
Theorem retry_with_backoff_attempts {St A F : Type} (fmul : F -> F -> F)
    (func : ST St A) (max_retries : Z) (initial_delay backoff_factor : F)
    (s : St) :
  let run := retry_with_backoff fmul max_retries initial_delay
               backoff_factor func s in
  (max_retries < 0 -> run = (WrapperTypeError, s, [])) /\
  (forall (k : nat) a,
     Z.of_nat k <= max_retries ->
     (forall i, (i < k)%nat -> raises_at func s i) ->
     (func (after_calls func k s)).1 = Ok a ->
     exists tr,
       run = (WrapperReturned a, after_calls func (S k) s, tr) /\
       sleeps tr = backoff_delays fmul k initial_delay backoff_factor /\
       length tr = (2 * k)%nat /\
       (forall e, LogRetryExhausted e ∉ tr)) /\
  (forall e,
     0 <= max_retries ->
     (forall i, (i <= Z.to_nat max_retries)%nat -> raises_at func s i) ->
     (func (after_calls func (Z.to_nat max_retries) s)).1 = Raise e ->
     exists tr,
       run = (WrapperRaised e,
              after_calls func (S (Z.to_nat max_retries)) s,
              tr ++ [LogRetryExhausted e]) /\
       sleeps tr = backoff_delays fmul (Z.to_nat max_retries)
                     initial_delay backoff_factor /\
       length tr = (2 * Z.to_nat max_retries)%nat).
Proof.
  intros run. subst run. unfold retry_with_backoff. split; [|split].
  - intros Hneg. unfold seqZ.
    replace (Z.to_nat (max_retries + 1)) with 0%nat by lia. done.
  - intros k a Hk Hfail Hok.
    destruct (wrapper_loop_returns fmul func max_retries backoff_factor k 0
                initial_delay None s [] a ltac:(lia) ltac:(lia) Hfail Hok)
      as (tr & Hrun & H).
    exists tr. rewrite Z.sub_0_r in Hrun. by rewrite Hrun.
  - intros e Hmax Hfail Hlast.
    destruct (wrapper_loop_exhausted fmul func max_retries backoff_factor
                (Z.to_nat max_retries) 0 initial_delay None s [] e
                ltac:(lia) ltac:(lia) Hfail Hlast)
      as (tr & Hrun & H).
    exists tr. rewrite Z.sub_0_r in Hrun. by rewrite Hrun.
Qed.

Lemma retry_with_backoff_attempts_witness :
  Z.of_nat 2 <= 3 /\
  (forall i, (i < 2)%nat -> raises_at flaky 0%nat i) /\
  (flaky (after_calls flaky 2 0%nat)).1 = Ok 2%nat /\
  exists tr,
    retry_with_backoff Z.mul 3 1 2 flaky 0%nat =
      (WrapperReturned 2%nat, 3%nat, tr) /\
    sleeps tr = [1; 2].
Proof.
  assert (forall i, (i < 2)%nat -> raises_at flaky 0%nat i) as Hfail.
  { intros i Hi. exists (Exception "unavailable").
    destruct i as [|[|i]]; [reflexivity | reflexivity | lia]. }
  split; [lia|]. split; [exact Hfail|]. split; [reflexivity|].
  destruct (proj1 (proj2 (retry_with_backoff_attempts Z.mul flaky 3 1 2
                            0%nat)) 2%nat 2%nat ltac:(lia) Hfail eq_refl)
    as (tr & Hrun & Hsl & _).
  exists tr. split; [exact Hrun | exact Hsl].
Defined.

(** ** ConnectionManager *)

Section ConnectionProofs.
Context {N : Type}.
Implicit Types (c k : WebSocket (N:=N)) (l : list (WebSocket (N:=N))).

Lemma same_id_same_socket l c k :
  NoDup (map ws_id l) -> c ∈ l -> k ∈ l -> ws_id c = ws_id k -> c = k.
Proof.
  induction l as [|x l IH]; intros Hnd Hc Hk Hid; [inversion Hc|].
  cbn [map] in Hnd. apply NoDup_cons in Hnd as [Hx Hnd].
  apply elem_of_cons in Hc as [->|Hc]; apply elem_of_cons in Hk as [->|Hk].
  - done.
  - exfalso. apply Hx. rewrite Hid. apply list_elem_of_fmap. eauto.
  - exfalso. apply Hx. rewrite <- Hid. apply list_elem_of_fmap. eauto.
  - by apply IH.
Qed.

Lemma filter_ext_elem (P Q : WebSocket (N:=N) -> Prop)
    `{!forall x, Decision (P x)} `{!forall x, Decision (Q x)} l :
  (forall x, x ∈ l -> P x <-> Q x) -> filter P l = filter Q l.
Proof.
  induction l as [|x l IH]; intros Hext; [done|].
  rewrite !filter_cons.
  assert (filter P l = filter Q l) as ->
    by (apply IH; intros y Hy; apply Hext; by right).
  destruct (decide (P x)) as [HP|HP], (decide (Q x)) as [HQ|HQ]; try done.
  - exfalso. apply HQ, (Hext x); [left | done].
  - exfalso. apply HP, (Hext x); [left | done].
Qed.

Lemma filter_all_elem (P : WebSocket (N:=N) -> Prop)
    `{!forall x, Decision (P x)} l :
  (forall x, x ∈ l -> P x) -> filter P l = l.
Proof.
  induction l as [|x l IH]; intros Hall; [done|].
  rewrite filter_cons_True by (apply Hall; left).
  f_equal. apply IH. intros y Hy. apply Hall. by right.
Qed.

Lemma disconnect_filter c (m : ConnectionManager) :
  NoDup (map ws_id (active_connections m)) ->
  active_connections (disconnect c m) =
    filter (fun k => ws_id k <> ws_id c) (active_connections m) /\
  network (disconnect c m) = network m.
Proof.
  intros Hnd. split; [|done]. unfold disconnect. cbn [active_connections].
  assert (remove_connection c (active_connections m) =
          filter (fun k => ws_id k <> ws_id c) (active_connections m) /\
          (existsb (fun k => same_websocket k c) (active_connections m)
             = false ->
           active_connections m =
           filter (fun k => ws_id k <> ws_id c) (active_connections m)))
    as [H1 H2].
  { induction (active_connections m) as [|x l IH]; [done|].
    cbn [map] in Hnd. apply NoDup_cons in Hnd as [Hx Hnd].
    destruct (IH Hnd) as [IH1 IH2].
    cbn [remove_connection existsb]. rewrite filter_cons.
    unfold same_websocket at 1 2.
    destruct (decide (ws_id x = ws_id c)) as [He|He].
    - rewrite bool_decide_eq_true_2 by done.
      rewrite decide_False by (intros ?; done).
      split; [|discriminate].
      symmetry. apply filter_all_elem.
      intros y Hy Hid. apply Hx.
      rewrite He, <- Hid. apply list_elem_of_fmap. eauto.
    - rewrite bool_decide_eq_false_2 by done.
      rewrite decide_True by done. cbn [orb]. split.
      + by rewrite IH1.
      + intros E. by rewrite <- IH2. }
  destruct (existsb _ _); [exact H1 | by apply H2].
Qed.

Lemma disconnect_each (D : list (WebSocket (N:=N))) :
  forall m : ConnectionManager,
  NoDup (map ws_id (active_connections m)) ->
  active_connections (foldl (fun m' conn => disconnect conn m') m D) =
    filter (fun k => ws_id k ∉ map ws_id D) (active_connections m) /\
  network (foldl (fun m' conn => disconnect conn m') m D) = network m.
Proof.
  induction D as [|d D IH]; intros m Hnd.
  - cbn [foldl map]. split; [|done].
    symmetry. apply filter_all_elem. intros y _ Hin. inversion Hin.
  - cbn [foldl map].
    destruct (disconnect_filter d m Hnd) as [Ha Hn].
    assert (NoDup (map ws_id (active_connections (disconnect d m))))
      as Hnd'.
    { rewrite Ha. clear -Hnd.
      induction (active_connections m) as [|y l IHl]; [constructor|].
      cbn [map] in Hnd. apply NoDup_cons in Hnd as [Hy Hnd].
      rewrite filter_cons. destruct (decide _); [|by apply IHl].
      cbn [map]. apply NoDup_cons. split; [|by apply IHl].
      intros Hin. apply Hy. apply list_elem_of_fmap in Hin as (z & -> & Hz).
      apply list_elem_of_filter in Hz as [_ Hz].
      apply list_elem_of_fmap. eauto. }
    destruct (IH (disconnect d m) Hnd') as [IHa IHn].
    rewrite IHa, IHn, Ha, Hn. split; [|done].
    rewrite list_filter_filter. apply list_filter_iff. intros k.
    rewrite not_elem_of_cons. tauto.
Qed.

Lemma send_to_each_spec (dead : WebSocket (N:=N) -> bool) message l :
  forall disconnected n,
  (forall c n', c ∈ l -> is_raised (send_json c message n').1 = dead c) ->
  send_to_each message l disconnected n =
  (disconnected ++ filter (fun c => dead c = true) l,
   foldl (fun n' c => (send_json c message n').2) n l).
Proof.
  induction l as [|x l IH]; intros disconnected n Hdead.
  - cbn. by rewrite app_nil_r.
  - cbn [send_to_each foldl]. rewrite filter_cons.
    pose proof (Hdead x n ltac:(left)) as Hx.
    destruct (send_json x message n) as [[|e] n1]; cbn in Hx; cbn [snd];
      rewrite IH by (intros c n' Hc; apply Hdead; by right).
    + rewrite decide_False by (rewrite <- Hx; done). done.
    + rewrite decide_True by done. by rewrite <- app_assoc.
Qed.

End ConnectionProofs.

(** X19.  A broadcast over distinct connections sends the message once to
    each of them, in the order of the list, and then keeps exactly the
    connections whose send returned, in their order: a connection whose
    send raised is dropped, and a second broadcast finds none to drop.
    [dead] tells the connections whose send raises. *)
Theorem broadcast_drops_failed_connections {N : Type} (message : EventData)
    (dead : WebSocket (N:=N) -> bool) (m : ConnectionManager) :
  NoDup (map ws_id (active_connections m)) ->
  (forall c n, c ∈ active_connections m ->
     is_raised (send_json c message n).1 = dead c) ->
  active_connections (broadcast message m) =
    filter (fun c => dead c = false) (active_connections m) /\
  network (broadcast message m) =
    foldl (fun n c => (send_json c message n).2) (network m)
      (active_connections m) /\
  NoDup (map ws_id (active_connections (broadcast message m))) /\
  active_connections (broadcast message (broadcast message m)) =
    active_connections (broadcast message m).
Proof.
  assert (forall m : ConnectionManager,
    NoDup (map ws_id (active_connections m)) ->
    (forall c n, c ∈ active_connections m ->
       is_raised (send_json c message n).1 = dead c) ->
    active_connections (broadcast message m) =
      filter (fun c => dead c = false) (active_connections m) /\
    network (broadcast message m) =
      foldl (fun n c => (send_json c message n).2) (network m)
        (active_connections m)) as Hone.
  { clear m. intros m Hnd Hdead. unfold broadcast.
    rewrite (send_to_each_spec dead) by (intros; by apply Hdead).
    cbn [app].
    destruct (disconnect_each
                (filter (fun c => dead c = true) (active_connections m))
                {| active_connections := active_connections m;
                   network := foldl (fun n c => (send_json c message n).2)
                                (network m) (active_connections m) |} Hnd)
      as [Ha Hn].
    rewrite Ha, Hn. cbn [active_connections network]. split; [|done].
    apply filter_ext_elem. intros k Hk. split.
    - intros Hnot. destruct (dead k) eqn:E; [|done]. exfalso. apply Hnot.
      apply list_elem_of_fmap. exists k. split; [done|].
      by apply list_elem_of_filter.
    - intros E Hin. apply list_elem_of_fmap in Hin as (z & Hid & Hz).
      apply list_elem_of_filter in Hz as [Hz Hzin].
      assert (k = z) as -> by by apply (same_id_same_socket
                                         (active_connections m)).
      congruence. }
  intros Hnd Hdead. destruct (Hone m Hnd Hdead) as [Ha Hn].
  assert (NoDup (map ws_id (active_connections (broadcast message m))))
    as Hnd'.
  { rewrite Ha. clear -Hnd.
    induction (active_connections m) as [|y l IHl]; [constructor|].
    cbn [map] in Hnd. apply NoDup_cons in Hnd as [Hy Hnd].
    rewrite filter_cons. destruct (decide _); [|by apply IHl].
    cbn [map]. apply NoDup_cons. split; [|by apply IHl].
    intros Hin. apply Hy. apply list_elem_of_fmap in Hin as (z & -> & Hz).
    apply list_elem_of_filter in Hz as [_ Hz].
    apply list_elem_of_fmap. eauto. }
  split; [exact Ha|]. split; [exact Hn|]. split; [exact Hnd'|].
  destruct (Hone (broadcast message m) Hnd') as [Ha2 _].
  { intros c n Hc. apply Hdead. rewrite Ha in Hc.
    by apply list_elem_of_filter in Hc as [_ ?]. }
  rewrite Ha2, Ha, list_filter_filter. apply list_filter_iff. tauto.
Qed.

Lemma broadcast_drops_failed_connections_witness :
  let m := {| active_connections := [closed_socket; open_socket];
              network := 0%nat |} in
  let dead := fun c : WebSocket (N:=nat) => bool_decide (ws_id c = 2%nat) in
  NoDup (map ws_id (active_connections m)) /\
  (forall c n, c ∈ active_connections m ->
     is_raised (send_json c [] n).1 = dead c) /\
  active_connections (broadcast [] m) = [open_socket] /\
  network (broadcast [] m) = 1%nat.
Proof.
  intros m dead.
  assert (NoDup (map ws_id (active_connections m))) as Hnd
    by compute_done.
  assert (forall c n, c ∈ active_connections m ->
            is_raised (send_json c [] n).1 = dead c) as Hdead.
  { intros c n Hc. cbn in Hc.
    apply elem_of_cons in Hc as [->|Hc]; [reflexivity|].
    apply elem_of_cons in Hc as [->|Hc]; [reflexivity|]. inversion Hc. }
  split; [exact Hnd|]. split; [exact Hdead|].
  destruct (broadcast_drops_failed_connections [] dead m Hnd Hdead)
    as (Ha & Hn & _).
  split; [exact Ha | exact Hn].
Defined.

(** ** RateLimitMiddleware *)

Section MiddlewareProofs.
Context {D R : Type}.
Context (call_next : D -> Result R * D).

Lemma forward_state buckets d :
  limiter (forward call_next buckets d).2 = buckets /\
  downstream (forward call_next buckets d).2 = (call_next d).2.
Proof. unfold forward. by destruct (call_next d). Qed.

Lemma dispatch_unlimited t_new now path user (a : AppState) :
  path ∈ exempt_paths \/ user = None ->
  dispatch t_new now path user call_next a =
  forward call_next (limiter a) (downstream a).
Proof.
  unfold dispatch. intros [Hp| ->].
  - by rewrite bool_decide_eq_true_2.
  - by destruct (bool_decide _).
Qed.

Lemma dispatch_limited t_new now path (u : User) (a : AppState) :
  path ∉ exempt_paths ->
  let b := (_get_or_create_bucket t_new (user_id u)
              (rate_limit_per_minute u) (limiter a)).1 in
  let buckets := (check_rate_limit t_new now (user_id u)
                    (rate_limit_per_minute u) (limiter a)).2 in
  dispatch t_new now path (Some u) call_next a =
  if (consume now 1 b).1
  then forward call_next buckets (downstream a)
  else (RaisedHTTPException 429 (rate_limit_msg (rate_limit_per_minute u)),
        {| limiter := buckets; downstream := downstream a |}).
Proof.
  intros Hp. cbv zeta. unfold dispatch.
  rewrite bool_decide_eq_false_2 by done.
  pose proof (check_rate_limit_unfold t_new now (user_id u)
                (rate_limit_per_minute u) (limiter a)) as H.
  cbv zeta in H. rewrite H. cbn [snd].
  by destruct ((consume now 1 _).1).
Qed.

Lemma after_requests_S k now path u (a : AppState) :
  after_requests (S k) now path u call_next a =
  (dispatch now now path (Some u) call_next
     (after_requests k now path u call_next a)).2.
Proof. reflexivity. Qed.

Lemma after_requests_bucket k now path (u : User) (a : AppState) :
  path ∉ exempt_paths ->
  limiter a !! _get_bucket_key (user_id u) = None ->
  (_get_or_create_bucket now (user_id u) (rate_limit_per_minute u)
     (limiter (after_requests k now path u call_next a))).1 =
  consume_times k now
    (new_TokenBucket now (rate_limit_per_minute u)
       (inject_Z (rate_limit_per_minute u) / 60)%Q).
Proof.
  intros Hp Hnone. induction k as [|k IH].
  - cbn [after_requests Nat.iter consume_times].
    by rewrite get_or_create_fresh.
  - rewrite after_requests_S, consume_times_S, <- IH.
    set (ak := after_requests k now path u call_next a) in *.
    assert (limiter (dispatch now now path (Some u) call_next ak).2 =
            (check_rate_limit now now (user_id u) (rate_limit_per_minute u)
               (limiter ak)).2) as ->.
    { pose proof (dispatch_limited now now path u ak Hp) as H.
      cbv zeta in H. rewrite H.
      destruct ((consume now 1 _).1); [apply forward_state | done]. }
    erewrite get_or_create_existing; [|apply check_rate_limit_lookup].
    done.
Qed.

End MiddlewareProofs.

(** X20.  Of the requests a user sends for a limited path at the instant
    its bucket is built, the middleware hands the first
    [rate_limit_per_minute] to the application and answers every later
    one with the HTTP 429 error that carries the limiter's message,
    without calling the application.  A request for one of the four exempt
    paths, or one that carries no user, reaches the application without
    the limiter being read or written. *)
Theorem dispatch_forwards_burst {D R : Type}
    (call_next : D -> Result R * D) (u : User) (path : string)
    (now : datetime) (a : AppState) (k : nat) :
  path ∉ exempt_paths ->
  0 <= rate_limit_per_minute u ->
  limiter a !! _get_bucket_key (user_id u) = None ->
  let served := after_requests k now path u call_next a in
  let next := dispatch now now path (Some u) call_next served in
  downstream served =
    Nat.iter (Nat.min k (Z.to_nat (rate_limit_per_minute u)))
      (fun d => (call_next d).2) (downstream a) /\
  (Z.of_nat k < rate_limit_per_minute u ->
     next.1 = (forward call_next (limiter next.2) (downstream served)).1 /\
     downstream next.2 = (call_next (downstream served)).2) /\
  (rate_limit_per_minute u <= Z.of_nat k ->
     next.1 = RaisedHTTPException 429
                (rate_limit_msg (rate_limit_per_minute u)) /\
     downstream next.2 = downstream served) /\
  (forall t_new t path' user' a',
     path' ∈ exempt_paths \/ user' = None ->
     dispatch t_new t path' user' call_next a' =
       forward call_next (limiter a') (downstream a') /\
     limiter (dispatch t_new t path' user' call_next a').2 = limiter a').
Proof.
  intros Hp Hrate Hnone.
  assert (forall k,
    let served := after_requests k now path u call_next a in
    dispatch now now path (Some u) call_next served =
    if bool_decide (Z.of_nat k < rate_limit_per_minute u)
    then forward call_next
           (check_rate_limit now now (user_id u) (rate_limit_per_minute u)
              (limiter served)).2 (downstream served)
    else (RaisedHTTPException 429
            (rate_limit_msg (rate_limit_per_minute u)),
          {| limiter := (check_rate_limit now now (user_id u)
                           (rate_limit_per_minute u) (limiter served)).2;
             downstream := downstream served |})) as Hnext.
  { intros k'. cbv zeta.
    pose proof (dispatch_limited call_next now now path u
                  (after_requests k' now path u call_next a) Hp) as H.
    cbv zeta in H. rewrite H.
    rewrite (after_requests_bucket call_next k' now path u a Hp Hnone).
    destruct (consume_times_state (rate_limit_per_minute u) now k' Hrate)
      as (Hcap & Hlast & Htok).
    rewrite (consume_at_instant now _
               (Z.max 0 (rate_limit_per_minute u - Z.of_nat k')) Hlast)
      by (rewrite ?Hcap; done || lia).
    rewrite (bool_decide_ext _ (Z.of_nat k' < rate_limit_per_minute u))
      by lia.
    done. }
  cbv zeta. split; [|split; [|split]].
  - induction k as [|k IH]; [done|].
    rewrite after_requests_S, (Hnext k).
    destruct (bool_decide (Z.of_nat k < rate_limit_per_minute u)) eqn:E.
    + apply bool_decide_eq_true in E.
      rewrite (proj2 (forward_state call_next _ _)), IH.
      replace (Nat.min (S k) (Z.to_nat (rate_limit_per_minute u)))
        with (S (Nat.min k (Z.to_nat (rate_limit_per_minute u)))) by lia.
      done.
    + apply bool_decide_eq_false in E. cbn [snd downstream]. rewrite IH.
      f_equal. lia.
  - intros Hlt. rewrite (Hnext k), bool_decide_eq_true_2 by done.
    rewrite (proj1 (forward_state call_next _ _)).
    split; [done | apply forward_state].
  - intros Hge. rewrite (Hnext k), bool_decide_eq_false_2 by lia. done.
  - intros t_new t path' user' a' H.
    rewrite (dispatch_unlimited call_next t_new t path' user' a' H).
    split; [done | apply forward_state].
Qed.

Lemma dispatch_forwards_burst_witness :
  let a := {| limiter := ∅; downstream := 0%nat |} in
  ("/jobs" ∉ exempt_paths) /\
  0 <= rate_limit_per_minute tenant1 /\
  limiter a !! _get_bucket_key (user_id tenant1) = None /\
  dispatch 0 0 "/jobs" (Some tenant1) counting_app a =
    (Response 0%nat,
     (dispatch 0 0 "/jobs" (Some tenant1) counting_app a).2) /\
  (dispatch 0 0 "/jobs" (Some tenant1) counting_app
     (after_requests 1 0 "/jobs" tenant1 counting_app a)).1 =
    RaisedHTTPException 429 (rate_limit_msg 1).
Proof.
  intros a.
  assert ("/jobs" ∉ exempt_paths) as Hp by compute_done.
  assert (0 <= rate_limit_per_minute tenant1) as Hr by (cbn; lia).
  assert (limiter a !! _get_bucket_key (user_id tenant1) = None) as Hn
    by reflexivity.
  split; [exact Hp|]. split; [exact Hr|]. split; [exact Hn|].
  split; [vm_compute; reflexivity|].
  destruct (dispatch_forwards_burst counting_app tenant1 "/jobs" 0 a 1
              Hp Hr Hn) as (_ & _ & Hrefused & _).
  exact (proj1 (Hrefused ltac:(cbn; lia))).
Defined.

(** ** The job routes *)

Lemma submit_job_again user k fid now tr p retries st0 j st1
    fid2 now2 tr2 p2 retries2 :
  k <> "" ->
  submit_job fid now tr user p (Some k) retries st0 = (Ok j, st1) ->
  submit_job fid2 now2 tr2 user p2 (Some k) retries2 st1 = (Ok j, st1).
Proof.
  intros Hk. pose proof (proj2 (truthy_Some k) Hk) as Ht.
  rewrite !submit_job_cases.
  destruct (max_concurrent_jobs user <=? count_running_jobs _ st0) eqn:Hq;
    [discriminate|].
  rewrite Ht.
  destruct (get_by_idempotency_key (user_id user) k st0) as [[ex|]|] eqn:Hex;
    [| |discriminate].
  - intros [= <- <-]. by rewrite Hq, Hex.
  - cbn zeta. destruct (get_by_id fid st0); [discriminate|].
    intros [= <- <-].
    rewrite count_running_jobs_insert by done. rewrite Hq.
    unfold get_by_idempotency_key in *. cbn [jobs].
    rewrite filter_app.
    destruct (filter _ (jobs st0)) as [|? [|? ?]]; [|discriminate..].
    rewrite filter_cons_True, filter_nil; [done|].
    unfold idem_match; simpl. by rewrite !bool_decide_eq_true_2.
Qed.

Lemma create_job_cases fid now tr user p key retries w :
  create_job fid now tr user p key retries w =
  match submit_job fid now tr user p key retries (db w) with
  | (Ok job, st) =>
      (Response (job_response job),
       {| db := st;
          published := published w ++
                       [("job_submitted", submitted_data job)] |})
  | (Raise (QuotaExceededError msg), st) =>
      (RaisedHTTPException 429 msg, {| db := st; published := published w |})
  | (Raise e, st) =>
      (RaisedOther e, {| db := st; published := published w |})
  end.
Proof. reflexivity. Qed.

Lemma submit_job_Raise fid now tr user p key retries st e st' :
  submit_job fid now tr user p key retries st = (Raise e, st') -> st' = st.
Proof.
  rewrite submit_job_cases.
  destruct (max_concurrent_jobs user <=? _); [by intros [= _ <-]|].
  destruct (match key with Some _ => _ | None => _ end) as [[ex|]|e'];
    [discriminate | | by intros [= _ <-]].
  cbn zeta. destruct (get_by_id fid st); [by intros [= _ <-] | discriminate].
Qed.

(** X21.  [POST /api/v1/jobs] answers a tenant at its quota with the HTTP
    429 error that carries the quota message; whenever it does not answer
    with a job it leaves the database and the bus as they were.  When it
    answers with a job, it has published one [job_submitted] event for
    that job, the job is the tenant's, [GET /api/v1/jobs/{id}] gives the
    tenant the same answer and gives any other tenant the HTTP 404 error,
    and a second POST under the same non-empty key gets the same answer,
    inserts nothing and publishes the same event once more. *)
Theorem create_job_publishes_each_time fid now tr (user : User) p key retries
    (w : WState) :
  pk_unique (db w) ->
  let out := create_job fid now tr user p key retries w in
  (max_concurrent_jobs user <= count_running_jobs (user_id user) (db w) ->
   out = (RaisedHTTPException 429
            (quota_msg (count_running_jobs (user_id user) (db w))
               (max_concurrent_jobs user)), w)) /\
  ((forall resp, out.1 <> Response resp) -> out.2 = w) /\
  (forall resp, out.1 = Response resp ->
     exists job,
       submit_job fid now tr user p key retries (db w) = (Ok job, db out.2) /\
       resp = job_response job /\ tenant_id job = user_id user /\
       published out.2 =
         published w ++ [("job_submitted", submitted_data job)] /\
       (user_id user <> "" ->
        route_get_job (job_id job) user out.2 = Response resp) /\
       (forall other,
          user_id other <> "" -> user_id other <> user_id user ->
          route_get_job (job_id job) other out.2 =
          RaisedHTTPException 404 (not_found_msg (job_id job))) /\
       (forall k fid2 now2 tr2 p2 retries2,
          key = Some k -> k <> "" ->
          create_job fid2 now2 tr2 user p2 key retries2 out.2 =
          (Response resp,
           {| db := db out.2;
              published := published out.2 ++
                           [("job_submitted", submitted_data job)] |}))).
Proof.
  intros Hpk out. subst out. rewrite create_job_cases.
  destruct (submit_job fid now tr user p key retries (db w))
    as [[job|e] st] eqn:E.
  - split; [|split].
    + intros Hq. rewrite submit_job_cases in E.
      rewrite (proj2 (Z.leb_le _ _) Hq) in E. discriminate.
    + intros H. exfalso. by apply (H (job_response job)).
    + intros resp [= <-]. cbn [fst snd db published].
      destruct (submit_job_Ok _ _ _ _ _ _ _ _ _ _ Hpk E) as (Ht & Hget & _).
      exists job. split; [done|]. split; [done|]. split; [done|].
      split; [done|]. split; [|split].
      * intros Hne. unfold route_get_job, get_job. cbn [db].
        rewrite Hget, Ht.
        by rewrite bool_decide_eq_true_2, andb_false_r.
      * intros other Hne Hother. unfold route_get_job, get_job. cbn [db].
        rewrite Hget, (proj2 (truthy_Some _) Hne).
        rewrite bool_decide_eq_false_2 by (intros [= ?]; congruence).
        done.
      * intros k fid2 now2 tr2 p2 retries2 -> Hk.
        rewrite create_job_cases. cbn [db published].
        by rewrite (submit_job_again user k fid now tr p retries (db w) job
                      st fid2 now2 tr2 p2 retries2 Hk E).
  - apply submit_job_Raise in E as Hst. subst st.
    assert ({| db := db w; published := published w |} = w) as Hw
      by by destruct w.
    split; [|split].
    + intros Hq. rewrite submit_job_cases in E.
      rewrite (proj2 (Z.leb_le _ _) Hq) in E. injection E as <-.
      by rewrite Hw.
    + intros _. destruct e; cbn [snd]; exact Hw.
    + intros resp H. destruct e; discriminate H.
Qed.

Lemma create_job_publishes_each_time_witness :
  let w := {| db := empty_store; published := [] |} in
  pk_unique (db w) /\
  exists w1,
    create_job "job-1" 100 "trace-1" tenant1 noop_payload (Some "k1") 3 w =
      (Response (job_response job1), w1) /\
    create_job "job-2" 300 "trace-2" tenant1 other_payload (Some "k1") 3 w1 =
      (Response (job_response job1),
       {| db := db w1;
          published := [("job_submitted", submitted_data job1);
                        ("job_submitted", submitted_data job1)] |}) /\
    route_get_job "job-1" tenant2 w1 =
      RaisedHTTPException 404 "Job job-1 not found".
Proof.
  intros w.
  assert (pk_unique (db w)) as Hpk by (unfold pk_unique; compute_done).
  split; [exact Hpk|].
  destruct (create_job_publishes_each_time "job-1" 100 "trace-1" tenant1
              noop_payload (Some "k1") 3 w Hpk) as (_ & _ & H).
  set (out := create_job "job-1" 100 "trace-1" tenant1 noop_payload
                (Some "k1") 3 w) in *.
  destruct (H (job_response job1) eq_refl)
    as (job & Hsub & _ & _ & Hpub & _ & H404 & Hagain).
  assert (job = job1) as -> by (vm_compute in Hsub |- *; congruence).
  exists out.2. split; [reflexivity|]. split.
  - rewrite (Hagain "k1" "job-2" 300 "trace-2" other_payload 3 eq_refl)
      by discriminate.
    rewrite Hpub. reflexivity.
  - exact (H404 tenant2 ltac:(discriminate) ltac:(discriminate)).
Defined.

(** ** Jobs whose lease ran out *)

Lemma running_not_leasable now j : status j = RUNNING -> leasable now j = false.
Proof. intros H. unfold leasable. by rewrite H. Qed.

(** X22.  A lease that has run out frees nothing.  For a RUNNING job the
    test of [is_lease_expired] and the lease clause of the dequeue agree
    once the lease is past, but both the dequeue and [acquire_lease] also
    ask for status PENDING: at no time does a [dequeue] return the job or
    an [acquire_lease] on it succeed, and neither a lease taken on any id
    nor a submission changes its row. *)
Theorem expired_lease_is_not_reclaimed (st : Store) (j : Job) :
  pk_unique st -> j ∈ jobs st -> status j = RUNNING ->
  (forall now, is_lease_expired now j = true ->
     lease_free now j = true /\ leasable now j = false) /\
  (forall e c s ttl, acquire_lease e c s (job_id j) ttl st = (false, st)) /\
  (forall now wid k, dequeue now wid st = Some k -> job_id k <> job_id j) /\
  (forall i e c s ttl,
     get_by_id (job_id j) (acquire_lease e c s i ttl st).2 = Some j) /\
  (forall fid now tr user p key retries,
     get_by_id (job_id j) (submit_job fid now tr user p key retries st).2
       = Some j).
Proof.
  intros Hpk Hj Hrun.
  pose proof (get_by_id_elem st j Hpk Hj) as Hget.
  split; [|split; [|split; [|split]]].
  - intros now He. split; [|by apply running_not_leasable].
    unfold is_lease_expired, lease_free in *.
    by destruct (lease_expires_at j).
  - intros e c s ttl.
    destruct (acquire_lease e c s (job_id j) ttl st) as [ok st'] eqn:E.
    destruct ok.
    + assert ((acquire_lease e c s (job_id j) ttl st).1 = true) as Hok
        by by rewrite E.
      apply acquire_lease_true in Hok as (k & Hk & Hid & Hl).
      assert (k = j) as -> by by apply (same_key_same_row (jobs st)).
      by rewrite running_not_leasable in Hl.
    + assert ((acquire_lease e c s (job_id j) ttl st).1 = false) as Hno
        by by rewrite E.
      apply acquire_lease_false in Hno. rewrite E in Hno. cbn in Hno.
      by subst st'.
  - intros now wid k Hd Hid.
    apply dequeue_Some in Hd as (Hk & Hl & _).
    assert (k = j) as -> by by apply (same_key_same_row (jobs st)).
    by rewrite running_not_leasable in Hl.
  - intros i e c s ttl. rewrite acquire_lease_snd.
    unfold get_by_id in *. cbn [jobs].
    rewrite find_update_rows, Hget by apply keeps_id_set_lease.
    cbn. by rewrite running_not_leasable, andb_false_r.
  - intros fid now tr user p key retries.
    destruct (submit_job fid now tr user p key retries st) as [r st'] eqn:E.
    apply submit_job_store in E as [->|[_ ->]]; cbn [snd]; [done|].
    unfold get_by_id in *. cbn [jobs]. by apply find_app_Some.
Qed.

Lemma expired_lease_is_not_reclaimed_witness :
  pk_unique store_running /\ job1_running ∈ jobs store_running /\
  status job1_running = RUNNING /\
  is_lease_expired long_after job1_running = true /\
  dequeue long_after "worker-2" store_running = None /\
  acquire_lease long_after long_after long_after "job-1" 300 store_running =
    (false, store_running).
Proof.
  assert (pk_unique store_running) as Hpk
    by (unfold pk_unique; compute_done).
  assert (job1_running ∈ jobs store_running) as Hin
    by (vm_compute; left).
  assert (status job1_running = RUNNING) as Hrun by reflexivity.
  split; [exact Hpk|]. split; [exact Hin|]. split; [exact Hrun|].
  split; [vm_compute; reflexivity|]. split; [vm_compute; reflexivity|].
  destruct (expired_lease_is_not_reclaimed store_running job1_running
              Hpk Hin Hrun) as (_ & Hlease & _).
  exact (Hlease long_after long_after long_after 300).
Defined.
